(** * PII search index: a shallow embedding of the two index backends

    The development follows the JavaScript sources of the repository:

    - [FieldAwareRedisIndexer] (field-aware-redis-indexer.js): the in-memory
      backend, a Redis database of sets;
    - [PIIDatabaseSearchIndexer] (pii-db-search-indexer.js) and
      [PIIDatabaseSearchAPI] (pii-db-search-api.js): the relational backend,
      one PostgreSQL table [pii_search_index].

    Modelling conventions.

    - A JavaScript string is the list of its UTF-16 code units ([list N]);
      [length], [slice] and the loops of the enumerator count code units,
      while the spread [[...n]] iterates code points (a surrogate pair stays
      together), exactly as in the engine.
    - [String.prototype.trim] is written out.  The Unicode tables behind
      [normalize('NFKC')], [toLowerCase] and [toUpperCase], and the HMAC of
      the crypto module, are not code of the repository: they are the fields
      of the class [Runtime], and every theorem holds for every runtime.
      A small concrete runtime ([fragment_runtime]) is used to evaluate the
      code on concrete inputs.
    - A Redis database is a finite map from keys to finite sets of members;
      the table [pii_search_index] is a finite map from its primary key to
      the remaining columns.  Replies whose order the store leaves
      unspecified (SMEMBERS, SINTER, SELECT DISTINCT) are finite sets.
    - PostgreSQL works on characters, not on code units: the LIKE test and
      the limits of the [VARCHAR] columns count code points.  A value that
      its column refuses makes the statement fail; [indexFieldValue] then
      rolls back and rethrows.
    - Timestamps are integers (milliseconds); the clock reading is an
      explicit argument of the operations that consult it.  The reading a
      [Date] is stored as in a [TIMESTAMP] column depends on the time zone
      of the process and is a field of [Runtime] too. *)

From Stdlib Require Import ZArith NArith Ascii String DecimalString.
From stdpp Require Import gmap strings list fin_maps.

Open Scope N_scope.
Open Scope nat_scope.

(** ** JavaScript strings *)

Abbreviation jsstring := (list N).

(** A string literal of the source, as code units. *)
Definition js (s : string) : jsstring :=
  map N_of_ascii (list_ascii_of_string s).

(** [s.slice(i, j)] for non-negative integer indices. *)
Definition slice (s : jsstring) (i j : nat) : jsstring :=
  take (j - i) (drop i s).

Definition is_high_surrogate (c : N) : bool :=
  ((0xD800 <=? c) && (c <=? 0xDBFF))%N.

Definition is_low_surrogate (c : N) : bool :=
  ((0xDC00 <=? c) && (c <=? 0xDFFF))%N.

(** The spread [[...s]]: the string iterator yields code points, that is a
    high surrogate followed by a low surrogate forms one element. *)
Fixpoint spread (s : jsstring) : list jsstring :=
  match s with
  | [] => []
  | c :: t =>
      match t with
      | d :: t' =>
          if is_high_surrogate c && is_low_surrogate d
          then [c; d] :: spread t'
          else [c] :: spread t
      | [] => [[c]]
      end
  end.

(** [parts.join('')] *)
Definition join_empty (parts : list jsstring) : jsstring := concat parts.

(** [[...s].reverse().join('')] *)
Definition reverse_string (s : jsstring) : jsstring :=
  join_empty (rev (spread s)).

(** WhiteSpace and LineTerminator of ECMAScript, the code units removed by
    [trim]. *)
Definition is_js_whitespace (c : N) : bool :=
  ((c =? 0x09) || (c =? 0x0A) || (c =? 0x0B) || (c =? 0x0C) || (c =? 0x0D)
   || (c =? 0x20) || (c =? 0xA0) || (c =? 0x1680)
   || ((0x2000 <=? c) && (c <=? 0x200A))
   || (c =? 0x2028) || (c =? 0x2029) || (c =? 0x202F) || (c =? 0x205F)
   || (c =? 0x3000) || (c =? 0xFEFF))%N.

Fixpoint trimStart (s : jsstring) : jsstring :=
  match s with
  | [] => []
  | c :: t => if is_js_whitespace c then trimStart t else s
  end.

Definition trimEnd (s : jsstring) : jsstring := rev (trimStart (rev s)).

Definition trim (s : jsstring) : jsstring := trimEnd (trimStart s).

(** [`${k}`] for a non-negative integer. *)
Definition number_to_string (k : nat) : jsstring :=
  js (NilEmpty.string_of_uint (Nat.to_uint k)).

(** [`${z}`] for an integer. *)
Definition integer_to_string (z : Z) : jsstring :=
  js (NilEmpty.string_of_int (Z.to_int z)).

(** ** The platform *)

(** What the sources take from the engine, from the crypto module and
    from the database driver. *)
Class Runtime := {
  (** [s.normalize('NFKC')] *)
  nfkc : jsstring -> jsstring;
  (** [s.toLowerCase()] *)
  toLowerCase : jsstring -> jsstring;
  (** [s.toUpperCase()] *)
  toUpperCase : jsstring -> jsstring;
  (** [createHmac('sha256', secret).update(s).digest('base64url')] *)
  hmac_sha256_base64url : jsstring -> jsstring -> jsstring;
  (** A [Date] bound to a [TIMESTAMP] column: the driver writes the local
      time of the process and the column drops the offset.  For the [Date]
      that falls at [d] on the scale of the database's [NOW()], this is the
      reading stored; the two differ by the difference of the time zones of
      the process and of the session. *)
  timestamp_of_date : Z -> Z
}.

(** Outcome of a call that may throw. *)
Inductive js_error : Type :=
  | TypeError (message : jsstring)
  | Error (message : jsstring).

Inductive js_result (A : Type) : Type :=
  | Returned (a : A)
  | Thrown (e : js_error).

Arguments Returned {A} a.
Arguments Thrown {A} e.

(** The object literal [fieldMap] / [FIELD_MAP], shared by the three
    classes. *)
Definition fieldMap : list (jsstring * jsstring) :=
  [ (js "FIRST_NAME", js "fn");
    (js "LAST_NAME", js "ln");
    (js "MIDDLE_NAME", js "mn");
    (js "FULL_NAME", js "name");
    (js "EMAIL", js "email");
    (js "MOBILE_NUMBER", js "phone");
    (js "DATE_OF_BIRTH", js "dob");
    (js "ADDRESS", js "addr");
    (js "COUNTRY", js "country");
    (js "CITY", js "city");
    (js "PAN_CARD", js "pan");
    (js "PASSPORT_NUMBER", js "passport") ].

(** [obj[name]] on an object literal: [None] is [undefined]. *)
Fixpoint property (obj : list (jsstring * jsstring)) (name : jsstring)
  : option jsstring :=
  match obj with
  | [] => None
  | (p, v) :: rest => if decide (p = name) then Some v else property rest name
  end.

(** ** The in-memory backend: FieldAwareRedisIndexer *)

Module Redis.

(** A Redis database holding sets. *)
Abbreviation db := (gmap (list N) (gset (list N))).

(** SMEMBERS: a missing key is the empty set. *)
Definition sMembers (key : jsstring) (st : db) : gset jsstring :=
  default ∅ (st !! key).

(** SADD *)
Definition sAdd (key member : jsstring) (st : db) : db :=
  <[key := {[member]} ∪ sMembers key st]> st.

(** SREM: a set that becomes empty is removed with its key. *)
Definition sRem (key member : jsstring) (st : db) : db :=
  match st !! key with
  | None => st
  | Some s =>
      let s' := s ∖ {[member]} in
      if decide (s' = ∅) then delete key st else <[key := s']> st
  end.

(** SCARD *)
Definition sCard (key : jsstring) (st : db) : nat := size (sMembers key st).

(** DEL *)
Definition del (key : jsstring) (st : db) : db := delete key st.

(** SINTER over one key or more. *)
Definition sInter (keys : list jsstring) (st : db) : gset jsstring :=
  match keys with
  | [] => ∅
  | key :: rest =>
      foldl (fun acc key' => acc ∩ sMembers key' st) (sMembers key st) rest
  end.

(** The commands [search] may send. *)
Inductive command : Type :=
  | SMEMBERS (key : jsstring)
  | SINTER (keys : list jsstring).

Definition run (c : command) (st : db) : gset jsstring :=
  match c with
  | SMEMBERS key => sMembers key st
  | SINTER keys => sInter keys st
  end.

Section Indexer.

Context {R : Runtime}.

(** [this.secret] *)
Variable secret : jsstring.

(** [this.k = 3] *)
Definition this_k : nat := 3.



Definition H (s : jsstring) : jsstring := hmac_sha256_base64url secret s.

Definition normalize (s : jsstring) : jsstring :=
  trim (toLowerCase (nfkc s)).

Definition getFieldAlias (fieldName : jsstring) : jsstring :=
  match property fieldMap (toUpperCase fieldName) with
  | Some alias => alias
  | None => toLowerCase fieldName
  end.

(** [`idx:${field}:${tag}:${this.H(`${field}|${fragment}`)}`] *)
Definition indexKey (field tag fragment : jsstring) : jsstring :=
  js "idx:" ++ field ++ js ":" ++ tag ++ js ":"
     ++ H (field ++ js "|" ++ fragment).

Definition gramTag (k : nat) : jsstring := js "g" ++ number_to_string k.

(** [Array.from({length: n.length - k + 1}, (_, i) => n.slice(i, i + k))] *)
Definition grams (n : jsstring) (k : nat) : list jsstring :=
  map (fun i => slice n i (i + k)) (seq 0 (length n - k + 1)).

Definition keysFor (field op q : jsstring) (k : nat) : list jsstring :=
  let n := normalize q in
  if decide (op = js "eq") then [indexKey field (js "eq") n]
  else if decide (op = js "startsWith") then [indexKey field (js "pre") n]
  else if decide (op = js "endsWith") then
    let r := reverse_string n in
    [indexKey field (js "suf") r]
  else if length n <? k then []
  else map (fun g => indexKey field (gramTag k) g) (grams n k).

Definition generateAllIndexKeys (field value : jsstring) (k : nat)
  : list jsstring :=
  let n := normalize value in
  let r := reverse_string n in
  [indexKey field (js "eq") n]
    ++ map (fun i => indexKey field (js "pre") (slice n 0 i))
           (seq 1 (length n))
    ++ map (fun i => indexKey field (js "suf") (slice r 0 i))
           (seq 1 (length r))
    ++ (if k <=? length n
        then map (fun i => indexKey field (gramTag k) (slice n i (i + k)))
                 (seq 0 (length n - k + 1))
        else []).

(** The value [indexFieldValue] resolves to. *)
Record indexed_summary : Type := {
  indexed : nat;
  summary_field : jsstring;
  summary_alias : jsstring
}.

(** The MULTI/EXEC pipeline of [indexFieldValue]: one SADD per key, in
    order. *)
Definition indexFieldValue (fieldName value token : jsstring) (k : nat)
    (st : db) : indexed_summary * db :=
  let field := getFieldAlias fieldName in
  let keys := generateAllIndexKeys field value k in
  ({| indexed := length keys; summary_field := fieldName;
      summary_alias := field |},
   foldl (fun s key => sAdd key token s) st keys).

Definition cleanupEmptyKeys (keys : list jsstring) (st : db) : db :=
  foldl (fun s key => if sCard key s =? 0 then del key s else s) st keys.

(** The keys [removeFieldValue] destructures. *)
Record field_keys : Type := {
  fk_eq : jsstring;
  fk_pres : list jsstring;
  fk_sufs : list jsstring;
  fk_gk : list jsstring
}.

(** [this.generateFieldKeys]: the class declares no such method, and no
    file of the repository adds one; the property read is [undefined]. *)
Definition generateFieldKeys
  : option (jsstring -> jsstring -> jsstring -> nat -> field_keys) := None.

(** [removeFieldValue]: the call of an undefined property throws a
    TypeError inside the [try]; the handler logs and rethrows. *)
Definition removeFieldValue (fieldName value token : jsstring) (k : nat)
    (st : db) : js_result bool * db :=
  match generateFieldKeys with
  | None =>
      (Thrown (TypeError (js "this.generateFieldKeys is not a function")),
       st)
  | Some gen =>
      let fk := gen fieldName value token k in
      let st1 := sRem (fk_eq fk) token st in
      let st2 := foldl (fun s key => sRem key token s) st1 (fk_pres fk) in
      let st3 := foldl (fun s key => sRem key token s) st2 (fk_sufs fk) in
      let st4 := foldl (fun s key => sRem key token s) st3 (fk_gk fk) in
      (Returned true,
       cleanupEmptyKeys
         (fk_eq fk :: fk_pres fk ++ fk_sufs fk ++ fk_gk fk) st4)
  end.

(** The command [search] sends, if any. *)
Definition searchCommand (fieldName op query : jsstring) (k : nat)
  : option command :=
  let field := getFieldAlias fieldName in
  let keys := keysFor field op query k in
  match keys with
  | [] => None
  | [key] => Some (SMEMBERS key)
  | _ => Some (SINTER keys)
  end.

Definition search (fieldName op query : jsstring) (k : nat) (st : db)
  : js_result (gset jsstring) :=
  match searchCommand fieldName op query k with
  | None => Returned ∅
  | Some c => Returned (run c st)
  end.

End Indexer.

End Redis.

(** ** The relational backend: the table pii_search_index *)

Module Pg.

(** The columns of [pii_search_index] besides the primary key
    [hmac_key]. *)
Record row : Type := {
  token_set : jsstring;
  field_type : jsstring;
  created_at : Z;
  retention_until : Z
}.

Abbreviation table := (gmap (list N) row).

(** The characters of a text value as the server receives it: the code
    points of the string; an unpaired surrogate has no UTF-8 encoding and
    arrives as U+FFFD. *)
Definition characters (s : jsstring) : list jsstring :=
  map (fun ch =>
         match ch with
         | [c] =>
             if is_high_surrogate c || is_low_surrogate c then [0xFFFD%N]
             else ch
         | _ => ch
         end)
      (spread s).

(** [s LIKE pattern] with the default escape character, character by
    character: [%] matches any sequence of characters, [_] any one
    character, a backslash takes the next character literally.  (A pattern
    that ends in a lone backslash is an error in PostgreSQL; the patterns
    built below end in [%].) *)
Fixpoint like_from (pattern : list jsstring) : list jsstring -> bool :=
  match pattern with
  | [] => fun s => match s with [] => true | _ :: _ => false end
  | p :: pattern' =>
      if bool_decide (p = [0x25%N]) then
        fix any (s : list jsstring) : bool :=
          like_from pattern' s
          || match s with [] => false | _ :: s' => any s' end
      else if bool_decide (p = [0x5F%N]) then
        fun s => match s with [] => false | _ :: s' => like_from pattern' s' end
      else if bool_decide (p = [0x5C%N]) then
        match pattern' with
        | [] => fun _ => false
        | q :: pattern'' =>
            fun s =>
              match s with
              | [] => false
              | c :: s' => bool_decide (c = q) && like_from pattern'' s'
              end
        end
      else
        fun s =>
          match s with
          | [] => false
          | c :: s' => bool_decide (c = p) && like_from pattern' s'
          end
  end.

Definition like (s pattern : jsstring) : bool :=
  like_from (characters pattern) (characters s).

(** A value assigned to a [VARCHAR(n)] column: stored as it is when it has
    [n] characters at most, cut to [n] characters when those beyond are all
    spaces, and refused otherwise. *)
Definition varchar (n : nat) (s : jsstring) : option jsstring :=
  let chars := spread s in
  if length chars <=? n then Some s
  else if forallb (fun ch => bool_decide (ch = [0x20%N])) (drop n chars)
  then Some (concat (take n chars))
  else None.

(** The error of a refused value. *)
Definition value_too_long (n : nat) : js_error :=
  Error (js "value too long for type character varying("
           ++ number_to_string n ++ js ")").

(** [string_to_array(s, ',')]: the empty string gives the empty array. *)
Fixpoint split_on (delimiter : N) (current : jsstring) (s : jsstring)
  : list jsstring :=
  match s with
  | [] => [rev current]
  | c :: t =>
      if (c =? delimiter)%N then rev current :: split_on delimiter [] t
      else split_on delimiter (c :: current) t
  end.

Definition string_to_array (s : jsstring) : list jsstring :=
  match s with
  | [] => []
  | _ :: _ => split_on 0x2C%N [] s
  end.

End Pg.

(** ** PIIDatabaseSearchIndexer *)

Module DbIndexer.

Import Pg.

Section Indexer.

Context {R : Runtime}.

(** [this.hmacSecret] *)
Variable hmacSecret : jsstring.

Definition normalize (s : jsstring) : jsstring :=
  trim (toLowerCase (nfkc s)).

Definition H (s : jsstring) : jsstring :=
  hmac_sha256_base64url hmacSecret s.

Definition getFieldAlias (fieldName : jsstring) : jsstring :=
  match property fieldMap (toUpperCase fieldName) with
  | Some alias => alias
  | None => toLowerCase fieldName
  end.

Definition indexKey (field tag fragment : jsstring) : jsstring :=
  js "idx:" ++ field ++ js ":" ++ tag ++ js ":"
     ++ H (field ++ js "|" ++ fragment).

Definition gramTag (k : nat) : jsstring := js "g" ++ number_to_string k.

Definition generateAllIndexKeys (field value : jsstring) (k : nat)
  : list jsstring :=
  let n := normalize value in
  let r := reverse_string n in
  [indexKey field (js "eq") n]
    ++ map (fun i => indexKey field (js "pre") (slice n 0 i))
           (seq 1 (length n))
    ++ map (fun i => indexKey field (js "suf") (slice r 0 i))
           (seq 1 (length r))
    ++ (if k <=? length n
        then map (fun i => indexKey field (gramTag k) (slice n i (i + k)))
                 (seq 0 (length n - k + 1))
        else []).

(** [365 * 24 * 60 * 60 * 1000] *)
Definition one_year : Z := 365 * 24 * 60 * 60 * 1000.

(** What the INSERT ... ON CONFLICT (hmac_key) DO UPDATE statement does to
    the table, for values that have the types of their columns: a new row,
    or the update of the row in conflict. *)
Definition upsert (hmacKey opaqueToken fieldType : jsstring)
    (retention : Z) (now : Z) (t : table) : table :=
  match t !! hmacKey with
  | None =>
      <[hmacKey := {| token_set := opaqueToken; field_type := fieldType;
                      created_at := now; retention_until := retention |}]> t
  | Some old =>
      <[hmacKey :=
          {| token_set :=
               if like (token_set old) (js "%" ++ opaqueToken ++ js "%")
               then token_set old
               else token_set old ++ js "," ++ opaqueToken;
             field_type := field_type old;
             created_at := created_at old;
             retention_until := Z.max (retention_until old) retention |}]> t
  end.

(** [addTokenToIndex], run at clock reading [now].  The values are first
    given the types of their columns, [hmac_key VARCHAR(255)] and
    [field_type VARCHAR(50)] (pii_search_index, part_002); a value that is
    refused makes the query fail, and the method rejects with its error. *)
Definition addTokenToIndex (hmacKey opaqueToken fieldType : jsstring)
    (retentionDate : option Z) (now : Z) (t : table) : js_result table :=
  let retention :=
    timestamp_of_date (default (now + one_year)%Z retentionDate) in
  match varchar 255 hmacKey with
  | None => Thrown (value_too_long 255)
  | Some key =>
      match varchar 50 fieldType with
      | None => Thrown (value_too_long 50)
      | Some field => Returned (upsert key opaqueToken field retention now t)
      end
  end.

Record indexed_summary : Type := {
  indexed : nat;
  summary_field : jsstring;
  summary_alias : jsstring
}.

(** The loop of [indexFieldValue] inside its transaction: one
    [addTokenToIndex] per key with the default retention, up to the first
    one that fails. *)
Fixpoint addTokens (keys : list jsstring) (token fieldName : jsstring)
    (now : Z) (t : table) : js_result table :=
  match keys with
  | [] => Returned t
  | key :: rest =>
      match addTokenToIndex key token fieldName None now t with
      | Thrown e => Thrown e
      | Returned t' => addTokens rest token fieldName now t'
      end
  end.

(** [indexFieldValue]: BEGIN, the loop, COMMIT; on an error ROLLBACK, which
    leaves the table as it was at BEGIN, and the error is rethrown. *)
Definition indexFieldValue (fieldName value token : jsstring) (now : Z)
    (t : table) : js_result indexed_summary * table :=
  let field := getFieldAlias fieldName in
  let keys := generateAllIndexKeys field value 3 in
  match addTokens keys token fieldName now t with
  | Returned t' =>
      (Returned {| indexed := length keys; summary_field := fieldName;
                   summary_alias := field |}, t')
  | Thrown e => (Thrown e, t)
  end.


End Indexer.

End DbIndexer.

(** ** PIIDatabaseSearchAPI *)

Module DbSearch.

Import Pg.

(** [config.search] *)
Record search_config : Type := {
  minResultSize : Z;
  maxResults : Z;
  minQueryLength : Z
}.

(** The values taken when the environment sets none. *)
Definition default_config : search_config :=
  {| minResultSize := 5; maxResults := 1000; minQueryLength := 2 |}.

Definition VALID_OPS : list jsstring :=
  [js "eq"; js "startsWith"; js "endsWith"; js "contains"].

(** One element of [queryConditions]. *)
Record condition : Type := {
  cond_field : jsstring;
  cond_operation : jsstring;
  cond_value : jsstring
}.

(** The response object of [performSearch] (without the wall-clock
    [executionTime]). *)
Record response : Type := {
  tokens : gset jsstring;
  resultCount : nat;
  anonymizedCount : nat;
  queryType : jsstring;
  fieldType : jsstring;
  kAnonymityApplied : bool
}.

Section API.

Context {R : Runtime}.

(** [this.hmacSecret] *)
Variable hmacSecret : jsstring.

Variable config : search_config.

(** [this.k = 3] *)
Definition this_k : nat := 3.

Definition normalize (s : jsstring) : jsstring :=
  trim (toLowerCase (nfkc s)).

Definition H (s : jsstring) : jsstring :=
  hmac_sha256_base64url hmacSecret s.

Definition getFieldAlias (fieldName : jsstring) : jsstring :=
  match property fieldMap (toUpperCase fieldName) with
  | Some alias => alias
  | None => toLowerCase fieldName
  end.

Definition indexKey (field tag fragment : jsstring) : jsstring :=
  js "idx:" ++ field ++ js ":" ++ tag ++ js ":"
     ++ H (field ++ js "|" ++ fragment).

Definition gramTag (k : nat) : jsstring := js "g" ++ number_to_string k.

Definition grams (n : jsstring) (k : nat) : list jsstring :=
  map (fun i => slice n i (i + k)) (seq 0 (length n - k + 1)).

Definition keysFor (field op q : jsstring) (k : nat) : list jsstring :=
  let n := normalize q in
  if decide (op = js "eq") then [indexKey field (js "eq") n]
  else if decide (op = js "startsWith") then [indexKey field (js "pre") n]
  else if decide (op = js "endsWith") then
    let r := reverse_string n in
    [indexKey field (js "suf") r]
  else if length n <? k then []
  else map (fun g => indexKey field (gramTag k) g) (grams n k).

(** [row.token.trim()] over the unnested [token_set], empty strings
    filtered out. *)
Definition row_tokens (r : row) : list jsstring :=
  filter (fun token => token <> []) (map trim (string_to_array (token_set r))).

(** The rows selected by
    [WHERE hmac_key IN (keys) AND retention_until > NOW()]. *)
Definition selected (keys : list jsstring) (now : Z) (t : table) : table :=
  filter (fun kr => kr.1 ∈ keys ∧ (now < retention_until kr.2)%Z) t.

Definition searchTokensInIndex (keys : list jsstring) (now : Z) (t : table)
  : gset jsstring :=
  match keys with
  | [] => ∅
  | _ :: _ =>
      list_to_set
        (mbind (fun kr => row_tokens kr.2) (map_to_list (selected keys now t)))
  end.

Definition search (fieldName op query : jsstring) (k : nat) (now : Z)
    (t : table) : js_result (gset jsstring) :=
  let field := getFieldAlias fieldName in
  let keys := keysFor field op query k in
  match keys with
  | [] => Returned ∅
  | [_] => Returned (searchTokensInIndex keys now t)
  | _ :: _ :: _ =>
      let tokenSets :=
        map (fun key => searchTokensInIndex [key] now t) keys in
      Returned
        (foldl (fun intersection s => intersection ∩ s)
               (hd ∅ tokenSets) (tl tokenSets))
  end.

Definition searchFieldEquals fieldName query :=
  search fieldName (js "eq") query this_k.
Definition searchFieldStartsWith fieldName query :=
  search fieldName (js "startsWith") query this_k.
Definition searchFieldEndsWith fieldName query :=
  search fieldName (js "endsWith") query this_k.
Definition searchFieldContains fieldName query :=
  search fieldName (js "contains") query this_k.

(** The [switch] of [executeComplexQuery] for one condition. *)
Definition evalCondition (c : condition) (now : Z) (t : table)
  : js_result (gset jsstring) :=
  let operation := toLowerCase (cond_operation c) in
  if decide (operation = js "equals") then
    searchFieldEquals (cond_field c) (cond_value c) now t
  else if decide (operation = js "startswith") then
    searchFieldStartsWith (cond_field c) (cond_value c) now t
  else if decide (operation = js "endswith") then
    searchFieldEndsWith (cond_field c) (cond_value c) now t
  else if decide (operation = js "contains") then
    searchFieldContains (cond_field c) (cond_value c) now t
  else Thrown (Error (js "Unsupported operation: " ++ cond_operation c)).

(** The first loop of [executeComplexQuery]: the result sets, or the
    first error. *)
Fixpoint resultSetsOf (queryConditions : list condition) (now : Z)
    (t : table) : js_result (list (gset jsstring)) :=
  match queryConditions with
  | [] => Returned []
  | c :: rest =>
      match evalCondition c now t with
      | Thrown e => Thrown e
      | Returned s =>
          match resultSetsOf rest now t with
          | Thrown e => Thrown e
          | Returned sets => Returned (s :: sets)
          end
      end
  end.

Definition executeComplexQuery (queryConditions : list condition)
    (operator : jsstring) (now : Z) (t : table)
  : js_result (gset jsstring) :=
  match resultSetsOf queryConditions now t with
  | Thrown e => Thrown e
  | Returned [] => Returned ∅
  | Returned (first :: others) =>
      Returned
        (foldl
           (fun finalResult s =>
              if decide (toUpperCase operator = js "AND")
              then finalResult ∩ s
              else if decide (toUpperCase operator = js "OR")
              then finalResult ∪ s
              else finalResult)
           first others)
  end.

(** The [switch] of [performSearch]. *)
Definition operationOf (queryType : jsstring) : jsstring :=
  let qt := toLowerCase queryType in
  if decide (qt = js "exact") then js "eq"
  else if decide (qt = js "equals") then js "eq"
  else if decide (qt = js "starts_with") then js "startsWith"
  else if decide (qt = js "startswith") then js "startsWith"
  else if decide (qt = js "ends_with") then js "endsWith"
  else if decide (qt = js "endswith") then js "endsWith"
  else js "contains".

Definition performSearch (query fieldType0 queryType0 : jsstring) (now : Z)
    (t : table) : js_result response :=
  if bool_decide (query = [])
     || (Z.of_nat (length query) <? minQueryLength config)%Z
  then
    Thrown (Error (js "Query must be at least "
                     ++ integer_to_string (minQueryLength config)
                     ++ js " characters long"))
  else
    let operation := operationOf queryType0 in
    match search fieldType0 operation query this_k now t with
    | Thrown e => Thrown e
    | Returned found =>
        let resultCount0 := size found in
        let anonymizedTokens :=
          if (minResultSize config <=? Z.of_nat resultCount0)%Z
          then found else ∅ in
        Returned
          {| tokens := anonymizedTokens;
             resultCount := resultCount0;
             anonymizedCount := size anonymizedTokens;
             queryType := queryType0;
             fieldType := fieldType0;
             kAnonymityApplied :=
               (0 <? resultCount0) && (size anonymizedTokens =? 0) |}
    end.

End API.

End DbSearch.

(** ** A concrete runtime *)

(** The fragment of the platform tables that covers the ASCII characters,
    U+030A COMBINING RING ABOVE, the letters that decompose into a base
    letter and that mark (U+00C5, U+00E5, U+016E, U+016F, U+1E98, U+1E99) and
    U+212B ANGSTROM SIGN.  On strings over these characters the functions
    below agree with the engine; other code units are left unchanged. *)
Module Fragment.

(** Full decomposition of one character (UnicodeData.txt, field 5). *)
Definition decomposition (c : N) : jsstring :=
  (if c =? 0xC5 then [0x41; 0x30A]
   else if c =? 0xE5 then [0x61; 0x30A]
   else if c =? 0x16E then [0x55; 0x30A]
   else if c =? 0x16F then [0x75; 0x30A]
   else if c =? 0x1E98 then [0x77; 0x30A]
   else if c =? 0x1E99 then [0x79; 0x30A]
   else if c =? 0x212B then [0x41; 0x30A]
   else [c])%N.

(** The primary composite of a starter and a combining mark, if any. *)
Definition primary_composite (starter mark : N) : option N :=
  (if mark =? 0x30A then
     if starter =? 0x41 then Some 0xC5
     else if starter =? 0x61 then Some 0xE5
     else if starter =? 0x55 then Some 0x16E
     else if starter =? 0x75 then Some 0x16F
     else if starter =? 0x77 then Some 0x1E98
     else if starter =? 0x79 then Some 0x1E99
     else None
   else None)%N.

(** Canonical composition, scanning from the last starter. *)
Fixpoint compose_from (starter : N) (rest : jsstring) : jsstring :=
  match rest with
  | [] => [starter]
  | c :: rest' =>
      match primary_composite starter c with
      | Some composite => compose_from composite rest'
      | None => starter :: compose_from c rest'
      end
  end.

Definition compose (s : jsstring) : jsstring :=
  match s with
  | [] => []
  | c :: rest => compose_from c rest
  end.

Definition normalize_nfkc (s : jsstring) : jsstring :=
  compose (mbind decomposition s).

Definition lower_char (c : N) : jsstring :=
  (if (0x41 <=? c) && (c <=? 0x5A) then [c + 0x20]
   else if c =? 0xC5 then [0xE5]
   else if c =? 0x16E then [0x16F]
   else if c =? 0x212B then [0xE5]
   else [c])%N.

Definition upper_char (c : N) : jsstring :=
  (if (0x61 <=? c) && (c <=? 0x7A) then [c - 0x20]
   else if c =? 0xE5 then [0xC5]
   else if c =? 0x16F then [0x16E]
   else if c =? 0x1E98 then [0x57; 0x30A]
   else if c =? 0x1E99 then [0x59; 0x30A]
   else [c])%N.

Definition lower (s : jsstring) : jsstring := mbind lower_char s.

Definition upper (s : jsstring) : jsstring := mbind upper_char s.

(** Stand-in for the keyed hash: the message itself behind the secret, so
    that distinct messages give distinct digests, as the sources assume of
    the HMAC. *)
Definition transparent_mac (secret message : jsstring) : jsstring :=
  secret ++ js ":" ++ message.

End Fragment.

Definition fragment_runtime : Runtime :=
  {| nfkc := Fragment.normalize_nfkc;
     toLowerCase := Fragment.lower;
     toUpperCase := Fragment.upper;
     hmac_sha256_base64url := Fragment.transparent_mac;
     timestamp_of_date := fun d => d |}.

(** The same runtime in an indexing process whose local time is [ahead]
    milliseconds ahead of the time of the database session. *)
Definition zoned_runtime (ahead : Z) : Runtime :=
  {| nfkc := Fragment.normalize_nfkc;
     toLowerCase := Fragment.lower;
     toUpperCase := Fragment.upper;
     hmac_sha256_base64url := Fragment.transparent_mac;
     timestamp_of_date := fun d => (d + ahead)%Z |}.

(** The secret used in the worked examples. *)
Definition example_secret : jsstring := js "s3cret".


(** ** The enumerator of the specification *)

(** The four operator tags of an index key. *)
Inductive operator_tag : Type :=
  | TagEq
  | TagPre
  | TagSuf
  | TagGram (K : nat).

Definition tag_string (t : operator_tag) : jsstring :=
  match t with
  | TagEq => js "eq"
  | TagPre => js "pre"
  | TagSuf => js "suf"
  | TagGram K => js "g" ++ number_to_string K
  end.

(** The fragment table of the specification, written after its words: [v]
    itself, the prefixes [v[0..1]] to [v[0..|v|]], the same prefixes of the
    code-point reversal, and the windows [v[i..i+K]] for [0 <= i <= |v|-K]
    (none if [|v| < K]). *)
Definition spec_fragments (v : jsstring) (K : nat)
  : list (operator_tag * jsstring) :=
  [(TagEq, v)]
    ++ map (fun i => (TagPre, take i v)) (seq 1 (length v))
    ++ map (fun i => (TagSuf, take i (reverse_string v))) (seq 1 (length v))
    ++ (if length v <? K then []
        else map (fun i => (TagGram K, take K (drop i v)))
                 (seq 0 (length v - K + 1))).

(** [q] occurs in [v] as a run of consecutive code units. *)
Definition substring_of (q v : jsstring) : Prop :=
  exists a b, v = a ++ q ++ b.

Section Derivation.

Context {R : Runtime}.

Variable secret : jsstring.

(** The key derived from one fragment. *)
Definition derive (field : jsstring) (tf : operator_tag * jsstring)
  : jsstring :=
  Redis.indexKey secret field (tag_string tf.1) tf.2.

End Derivation.

(** The operator semantics of the specification on normalized strings: the
    normalized query [nq] matches the normalized value [nv] under the
    operator [op] with gram width [K].  A suffix is taken at a code-point
    boundary, as the reversal is. *)
Inductive query_matches (K : nat) (nv : jsstring)
  : jsstring -> jsstring -> Prop :=
  | matches_eq :
      query_matches K nv (js "eq") nv
  | matches_startsWith (nq : jsstring) :
      nq <> [] -> nq `prefix_of` nv ->
      query_matches K nv (js "startsWith") nq
  | matches_endsWith (nq : jsstring) :
      nq <> [] -> spread nq `suffix_of` spread nv ->
      query_matches K nv (js "endsWith") nq
  | matches_contains (nq : jsstring) :
      K <= length nq -> substring_of nq nv ->
      query_matches K nv (js "contains") nq.

(** ** ASCII strings *)

Definition is_ascii (s : jsstring) : Prop := Forall (fun c => (c < 128)%N) s.

(** The lowercase mapping of an ASCII character. *)
Definition ascii_lower (c : N) : N :=
  (if (0x41 <=? c) && (c <=? 0x5A) then c + 0x20 else c)%N.

(** What every engine guarantees on ASCII strings: they are in NFKC form,
    and lowercasing maps [A-Z] to [a-z] and nothing else. *)
Class AsciiFaithful (R : Runtime) : Prop := {
  nfkc_ascii : forall s, is_ascii s -> nfkc s = s;
  toLowerCase_ascii : forall s, is_ascii s -> toLowerCase s = map ascii_lower s
}.

(** What the proofs use of the platform's NFKC and lowercase mappings
    around white space: white space at the ends of a string is not composed
    with its neighbours and is no context of a case mapping, so it stays in
    place; NFKC may replace one white space character by another (U+00A0 by
    U+0020). *)
Class PaddingFaithful (R : Runtime) : Prop := {
  nfkc_padding : forall ws1 s ws2,
    Forall (fun c => is_js_whitespace c = true) ws1 ->
    Forall (fun c => is_js_whitespace c = true) ws2 ->
    exists ws1' ws2',
      Forall (fun c => is_js_whitespace c = true) ws1'
      /\ Forall (fun c => is_js_whitespace c = true) ws2'
      /\ nfkc (ws1 ++ s ++ ws2) = ws1' ++ nfkc s ++ ws2';
  toLowerCase_padding : forall ws1 s ws2,
    Forall (fun c => is_js_whitespace c = true) ws1 ->
    Forall (fun c => is_js_whitespace c = true) ws2 ->
    toLowerCase (ws1 ++ s ++ ws2) = ws1 ++ toLowerCase s ++ ws2
}.

(** ** Both backends side by side *)

(** One call of [indexFieldValue], with the clock reading it meets on the
    relational backend. *)
Record indexing : Type := {
  ix_field : jsstring;
  ix_value : jsstring;
  ix_token : jsstring;
  ix_time : Z
}.

Section Backends.

Context {R : Runtime}.

Variable secret : jsstring.

(** The Redis database after a sequence of [indexFieldValue] calls on an
    empty database, with the default gram width. *)
Definition redis_after (ops : list indexing) : Redis.db :=
  foldl (fun st o =>
           (Redis.indexFieldValue secret (ix_field o) (ix_value o)
              (ix_token o) Redis.this_k st).2)
        ∅ ops.

(** The table after the same calls on the relational indexer. *)
Definition table_after (ops : list indexing) : Pg.table :=
  foldl (fun t o =>
           (DbIndexer.indexFieldValue secret (ix_field o) (ix_value o)
              (ix_token o) (ix_time o) t).2)
        ∅ ops.

End Backends.





(** ** FieldAwareRedisIndexer: records and composed queries *)

(** A property value of [recordData]: [indexRecord] only tells strings from
    everything else. *)
Inductive js_value : Type :=
  | JsString (s : jsstring)
  | JsNotString.

Module RedisRecord.

(** The object [indexRecord] resolves to; [recordKeys] is
    [Object.keys(recordData)]. *)
Record record_summary : Type := {
  summary_token : jsstring;
  indexedFields : list jsstring;
  totalKeys : nat;
  recordKeys : list jsstring
}.

Section Indexer.

Context {R : Runtime}.

Variable secret : jsstring.

(** [value && typeof value === 'string' && value.trim()] *)
Definition indexable (value : js_value) : option jsstring :=
  match value with
  | JsString s =>
      if bool_decide (s = []) then None
      else if bool_decide (trim s = []) then None
      else Some s
  | JsNotString => None
  end.

(** The loop of [indexRecord] over [Object.entries(recordData)]; the state
    is [totalKeys], [indexedFields] and the database. *)
Definition indexRecordLoop (entries : list (jsstring * js_value))
    (token : jsstring) (k : nat) (st : Redis.db)
  : nat * list jsstring * Redis.db :=
  foldl
    (fun acc entry =>
       let '(total, fields, st') := acc in
       let '(fieldName, value) := entry in
       match indexable value with
       | Some s =>
           let result := Redis.indexFieldValue secret fieldName s token k st' in
           (total + Redis.indexed result.1, fields ++ [fieldName], result.2)
       | None => acc
       end)
    (0, [], st) entries.

Definition indexRecord (entries : list (jsstring * js_value))
    (token : jsstring) (k : nat) (st : Redis.db)
  : record_summary * Redis.db :=
  let '(total, fields, st') := indexRecordLoop entries token k st in
  ({| summary_token := token; indexedFields := fields; totalKeys := total;
      recordKeys := map fst entries |}, st').

(** The [switch] of [executeComplexQuery] for one condition. *)
Definition evalCondition (c : DbSearch.condition) (st : Redis.db)
  : js_result (gset jsstring) :=
  let operation := toLowerCase (DbSearch.cond_operation c) in
  if decide (operation = js "equals") then
    Redis.search secret (DbSearch.cond_field c) (js "eq")
      (DbSearch.cond_value c) Redis.this_k st
  else if decide (operation = js "starts_with") then
    Redis.search secret (DbSearch.cond_field c) (js "startsWith")
      (DbSearch.cond_value c) Redis.this_k st
  else if decide (operation = js "ends_with") then
    Redis.search secret (DbSearch.cond_field c) (js "endsWith")
      (DbSearch.cond_value c) Redis.this_k st
  else if decide (operation = js "contains") then
    Redis.search secret (DbSearch.cond_field c) (js "contains")
      (DbSearch.cond_value c) Redis.this_k st
  else
    Thrown (Error (js "Unsupported operation: " ++ DbSearch.cond_operation c)).

(** The first loop of [executeComplexQuery]: the result sets, or the first
    error. *)
Fixpoint resultSetsOf (queryConditions : list DbSearch.condition)
    (st : Redis.db) : js_result (list (gset jsstring)) :=
  match queryConditions with
  | [] => Returned []
  | c :: rest =>
      match evalCondition c st with
      | Thrown e => Thrown e
      | Returned s =>
          match resultSetsOf rest st with
          | Thrown e => Thrown e
          | Returned sets => Returned (s :: sets)
          end
      end
  end.

Definition executeComplexQuery (queryConditions : list DbSearch.condition)
    (operator : jsstring) (st : Redis.db) : js_result (gset jsstring) :=
  match resultSetsOf queryConditions st with
  | Thrown e => Thrown e
  | Returned [] => Returned ∅
  | Returned (first :: others) =>
      Returned
        (foldl
           (fun finalResult s =>
              if decide (toUpperCase operator = js "AND")
              then finalResult ∩ s
              else if decide (toUpperCase operator = js "OR")
              then finalResult ∪ s
              else finalResult)
           first others)
  end.

End Indexer.

End RedisRecord.

(** The operation names the [switch] of each [executeComplexQuery]
    accepts. *)
Definition redis_operations : list jsstring :=
  [js "equals"; js "starts_with"; js "ends_with"; js "contains"].


(** The query side of the fragment table of the specification: the
    fragments looked up for a normalized query [n]. *)
Definition query_fragments (op n : jsstring) (K : nat)
  : list (operator_tag * jsstring) :=
  if decide (op = js "eq") then [(TagEq, n)]
  else if decide (op = js "startsWith") then [(TagPre, n)]
  else if decide (op = js "endsWith") then [(TagSuf, reverse_string n)]
  else if length n <? K then []
  else map (fun i => (TagGram K, take K (drop i n)))
           (seq 0 (length n - K + 1)).

Section Collisions.

Context {R : Runtime}.

Variable secret : jsstring.

(** No key looked up for the query [(fieldName, op, q)] coincides with the
    key of a different fragment, or of another field, indexed by [ops]. *)
Definition collision_free (ops : list indexing)
    (fieldName op q : jsstring) (K : nat) : Prop :=
  forall (o : indexing) (tf tf' : operator_tag * jsstring),
    o ∈ ops ->
    In tf (query_fragments op (Redis.normalize q) K) ->
    In tf' (spec_fragments (Redis.normalize (ix_value o)) Redis.this_k) ->
    derive secret (Redis.getFieldAlias fieldName) tf
      = derive secret (Redis.getFieldAlias (ix_field o)) tf' ->
    Redis.getFieldAlias fieldName = Redis.getFieldAlias (ix_field o)
    /\ tf = tf'.

End Collisions.

Section Composition.

Context {R : Runtime}.

(** What the second loop of [executeComplexQuery] makes of the result sets
    [sets] under the top-level [operator]. *)
Definition composed_by (operator : jsstring) (sets : list (gset jsstring))
    (found : gset jsstring) : Prop :=
  (toUpperCase operator = js "AND" ->
   forall x, x ∈ found <-> sets <> [] /\ forall s, s ∈ sets -> x ∈ s)
  /\ (toUpperCase operator = js "OR" ->
      forall x, x ∈ found <-> exists s, s ∈ sets /\ x ∈ s)
  /\ (toUpperCase operator <> js "AND" ->
      toUpperCase operator <> js "OR" ->
      found = hd ∅ sets).

End Composition.

#[global] Instance operator_tag_eq_dec : EqDecision operator_tag.
Proof. solve_decision. Defined.


(** Three indexing calls used in the examples. *)
Definition example_indexings : list indexing :=
  [ {| ix_field := js "FIRST_NAME"; ix_value := js "Arjun";
       ix_token := js "T2"; ix_time := 0 |};
    {| ix_field := js "FIRST_NAME"; ix_value := js "Arnav";
       ix_token := js "T3"; ix_time := 5 |};
    {| ix_field := js "LAST_NAME"; ix_value := js "Arora";
       ix_token := js "T4"; ix_time := 5 |} ].

(** Three rows of the build query, with the clock readings of their
    transactions, and a decryption that fails on the first one: a row
    that does not decrypt, a blank one and one with text. *)
Definition example_decrypt (data : jsstring) : js_result jsstring :=
  if bool_decide (data = js "vault:v1:bad") then Thrown (Error (js "403"))
  else if bool_decide (data = js "vault:v1:blank") then Returned (js "  ")
  else Returned (js "Bob").

(** A Redis database never holds an empty set: the server removes a key
    with its last member. *)
Definition no_empty_sets (st : Redis.db) : Prop :=
  forall key s, st !! key = Some s -> s <> ∅.

(** ** RedisHmacIndexer (src/redis-hmac-indexer.js) *)

Module Hmac.

(** The object [idxKeys] returns. *)
Record idx_keys : Type := {
  eq : jsstring;
  pres : list jsstring;
  sufs : list jsstring;
  gk : list jsstring
}.

Section Indexer.

Context {R : Runtime}.

(** [this.secret] *)
Variable secret : jsstring.

(** [this.k = 3] *)
Definition this_k : nat := 3.

Definition H (s : jsstring) : jsstring := hmac_sha256_base64url secret s.

(** [s.normalize('NFKC').toLowerCase()]: no trimming here. *)
Definition norm (s : jsstring) : jsstring := toLowerCase (nfkc s).

(** [(s.length < k) ? [] : Array.from({length: s.length - k + 1}, ...)] *)
Definition grams (s : jsstring) (k : nat) : list jsstring :=
  if length s <? k then []
  else map (fun i => slice s i (i + k)) (seq 0 (length s - k + 1)).

(** [Array.from({length: s.length}, (_, i) => s.slice(0, i + 1))] *)
Definition prefixes (s : jsstring) : list jsstring :=
  map (fun i => slice s 0 (i + 1)) (seq 0 (length s)).

Definition idxKeys (phrase : jsstring) (k : nat) : idx_keys :=
  let n := norm phrase in
  let r := reverse_string n in
  {| eq := js "idx:eq:" ++ H n;
     pres := map (fun x => js "idx:pre:" ++ H x) (prefixes n);
     sufs := map (fun x => js "idx:suf:" ++ H x) (prefixes r);
     gk := map (fun x => js "idx:g" ++ number_to_string k ++ js ":" ++ H x)
               (grams n k) |}.

(** The commands one phrase queues on a pipeline, in order. *)
Definition queue (command : jsstring -> jsstring -> Redis.db -> Redis.db)
    (keys : idx_keys) (token : jsstring) (st : Redis.db) : Redis.db :=
  let st1 := command (eq keys) token st in
  let st2 := foldl (fun s key => command key token s) st1 (pres keys) in
  let st3 := foldl (fun s key => command key token s) st2 (sufs keys) in
  foldl (fun s key => command key token s) st3 (gk keys).

Definition addPhraseToken (phrase token : jsstring) (k : nat)
    (st : Redis.db) : bool * Redis.db :=
  (true, queue Redis.sAdd (idxKeys phrase k) token st).

Definition cleanupEmptyKeys (keys : list jsstring) (st : Redis.db)
  : Redis.db :=
  foldl (fun s key => if Redis.sCard key s =? 0 then Redis.del key s else s)
        st keys.

Definition removePhraseToken (phrase token : jsstring) (k : nat)
    (st : Redis.db) : bool * Redis.db :=
  let keys := idxKeys phrase k in
  let st' := queue Redis.sRem keys token st in
  (true,
   cleanupEmptyKeys (eq keys :: pres keys ++ sufs keys ++ gk keys) st').

Definition equalsLookup (query : jsstring) (st : Redis.db) : gset jsstring :=
  Redis.sMembers (js "idx:eq:" ++ H (norm query)) st.

Definition startsWithLookup (query : jsstring) (st : Redis.db)
  : gset jsstring :=
  Redis.sMembers (js "idx:pre:" ++ H (norm query)) st.

Definition endsWithLookup (query : jsstring) (st : Redis.db)
  : gset jsstring :=
  let reversed := reverse_string (norm query) in
  Redis.sMembers (js "idx:suf:" ++ H reversed) st.

Definition containsLookup (query : jsstring) (k : nat) (st : Redis.db)
  : gset jsstring :=
  let keys :=
    map (fun g => js "idx:g" ++ number_to_string k ++ js ":" ++ H g)
        (grams (norm query) k) in
  if length keys =? 0 then ∅ else Redis.sInter keys st.

(** One pipeline for all the phrases of a token. *)
Definition addTokenPhrases (token : jsstring) (phrases : list jsstring)
    (k : nat) (st : Redis.db) : bool * Redis.db :=
  (true,
   foldl (fun s phrase => queue Redis.sAdd (idxKeys phrase k) token s)
         st phrases).

End Indexer.

End Hmac.

(** ** PIIDatabaseSearchIndexer: maintenance, field detection, records *)

Module DbMaintenance.

Import Pg.

(** [DELETE FROM pii_search_index WHERE retention_until < NOW()], with the
    [rowCount] the method returns. *)
Definition cleanupExpiredEntries (now : Z) (t : table) : nat * table :=
  (size (filter (fun kr => (retention_until kr.2 < now)%Z) t),
   filter (fun kr => ~ (retention_until kr.2 < now)%Z) t).

End DbMaintenance.

(** [s.split(c)] for a separator of one code unit; the empty string gives
    one empty piece. *)
Definition split (separator : N) (s : jsstring) : list jsstring :=
  Pg.split_on separator [] s.

(** [parts.join(separator)] *)
Fixpoint join (separator : jsstring) (parts : list jsstring) : jsstring :=
  match parts with
  | [] => []
  | [p] => p
  | p :: rest => p ++ separator ++ join separator rest
  end.

(** [s.split(/\s+/)]: the pieces between the maximal runs of whitespace;
    [skipping] holds inside a run. *)
Fixpoint split_whitespace (current : jsstring) (skipping : bool)
    (s : jsstring) : list jsstring :=
  match s with
  | [] => [rev current]
  | c :: t =>
      if is_js_whitespace c then
        if skipping then split_whitespace current true t
        else rev current :: split_whitespace [] true t
      else split_whitespace (c :: current) false t
  end.

(** The character classes of the patterns: [\d], [[A-Z]], [[a-zA-Z]]. *)
Definition is_digit (c : N) : bool := ((0x30 <=? c) && (c <=? 0x39))%N.

Definition is_upper (c : N) : bool := ((0x41 <=? c) && (c <=? 0x5A))%N.

Definition is_letter (c : N) : bool :=
  (is_upper c || ((0x61 <=? c) && (c <=? 0x7A)))%N.

(** [s.replace(/\D/g, '')] *)
Definition digits_of (s : jsstring) : jsstring := List.filter is_digit s.

(** [/^\d{n}$/] *)
Definition digits_pattern (n : nat) (s : jsstring) : bool :=
  (length s =? n) && forallb is_digit s.

(** [/^[A-Z]{5}\d{4}[A-Z]$/] *)
Definition pan_pattern (s : jsstring) : bool :=
  (length s =? 10) && forallb is_upper (take 5 s)
  && forallb is_digit (take 4 (drop 5 s)) && forallb is_upper (drop 9 s).

(** [/^[A-Z]\d{7}$/] *)
Definition passport_pattern (s : jsstring) : bool :=
  (length s =? 8) && forallb is_upper (take 1 s) && forallb is_digit (drop 1 s).

(** [\d{4}] at the head of [s]: what follows it. *)
Definition four_digits (s : jsstring) : option jsstring :=
  if (4 <=? length s) && forallb is_digit (take 4 s) then Some (drop 4 s)
  else None.

(** [[-\s]?] at the head of [s]: what follows it.  A separator that is
    there is taken: the group after it starts with a digit. *)
Definition optional_separator (s : jsstring) : jsstring :=
  match s with
  | c :: t => if (c =? 0x2D)%N || is_js_whitespace c then t else s
  | [] => []
  end.

(** [/^\d{4}[-\s]?\d{4}[-\s]?\d{4}[-\s]?\d{4}$/] *)
Definition card_pattern (s : jsstring) : bool :=
  match four_digits s with
  | None => false
  | Some s1 =>
      match four_digits (optional_separator s1) with
      | None => false
      | Some s2 =>
          match four_digits (optional_separator s2) with
          | None => false
          | Some s3 =>
              match four_digits (optional_separator s3) with
              | Some [] => true
              | _ => false
              end
          end
      end
  end.

(** [/^[a-zA-Z\s]+$/] *)
Definition name_pattern (s : jsstring) : bool :=
  negb (length s =? 0) && forallb (fun c => is_letter c || is_js_whitespace c) s.

(** The object literal [FIELD_IDS]. *)
Definition FIELD_IDS : list (jsstring * Z) :=
  [ (js "EMAIL", 1%Z); (js "PHONE", 2%Z); (js "NAME", 3%Z);
    (js "FIRST_NAME", 3%Z); (js "LAST_NAME", 3%Z); (js "MIDDLE_NAME", 3%Z);
    (js "ADDRESS", 4%Z); (js "PAN_CARD", 5%Z); (js "PASSPORT", 6%Z);
    (js "PASSPORT_NUMBER", 6%Z); (js "CREDIT_CARD", 7%Z); (js "SSN", 8%Z);
    (js "CITY", 10%Z); (js "COUNTRY", 11%Z); (js "MOBILE_NUMBER", 2%Z);
    (js "DATE_OF_BIRTH", 9%Z) ].

(** [FIELD_IDS[name]] *)
Fixpoint field_id (obj : list (jsstring * Z)) (name : jsstring) : option Z :=
  match obj with
  | [] => None
  | (p, v) :: rest => if decide (p = name) then Some v else field_id rest name
  end.

Module DbRecords.

Import Pg.

Definition validFieldTypes : list jsstring :=
  [ js "FIRST_NAME"; js "LAST_NAME"; js "MIDDLE_NAME"; js "FULL_NAME";
    js "EMAIL"; js "MOBILE_NUMBER"; js "DATE_OF_BIRTH"; js "ADDRESS";
    js "CITY"; js "COUNTRY"; js "PAN_CARD"; js "PASSPORT_NUMBER";
    js "CREDIT_CARD"; js "SSN" ].

(** The object [indexRecord] resolves to. *)
Record record_result : Type := {
  recordId : Z;
  opaqueToken : jsstring;
  fieldName : jsstring;
  fieldAlias : jsstring;
  keyCount : nat;
  normalizedValue : jsstring
}.

(** A row of the query of [buildIndexFromDatabase]. *)
Record token_row : Type := {
  row_id : Z;
  pii_data_point : jsstring;
  row_token : jsstring
}.

(** The object [buildIndexFromDatabase] resolves to. *)
Record build_summary : Type := {
  build_indexed : nat;
  build_failed : nat;
  build_total : nat
}.

Section Indexer.

Context {R : Runtime}.

(** [this.hmacSecret] *)
Variable hmacSecret : jsstring.

(** The transit decryption of Vault: the plaintext, or the error the
    request fails with. *)
Variable decryptPIIData : jsstring -> js_result jsstring.

(** The results are [FIELD_IDS.EMAIL], [.PHONE], [.PAN_CARD], [.PASSPORT],
    [.CREDIT_CARD], [.SSN], [.ADDRESS] and [.NAME], in this order. *)
Definition determineFieldId (decryptedValue : jsstring) : Z :=
  let value := toLowerCase decryptedValue in
  if bool_decide (0x40%N ∈ value) then 1
  else if digits_pattern 10 (digits_of value) then 2
  else if pan_pattern (toUpperCase decryptedValue) then 5
  else if passport_pattern (toUpperCase decryptedValue) then 6
  else if card_pattern value then 7
  else if digits_pattern 9 (digits_of value) then 8
  else if bool_decide (0x20%N ∈ value) && (10 <? length value) then 4
  else 3.

(** The field type read from the suffix of the token, if any: the pieces
    after the second underscore, when there are three pieces or more and
    the suffix is a known field type. *)
Definition fieldTypeOfToken (token : option jsstring) : option jsstring :=
  match token with
  | None => None
  | Some [] => None
  | Some token =>
      let tokenParts := split 0x5F token in
      if 3 <=? length tokenParts then
        let fieldType := join (js "_") (drop 2 tokenParts) in
        if bool_decide (fieldType ∈ validFieldTypes) then Some fieldType
        else None
      else None
  end.

Definition determineFieldName (decryptedValue : jsstring)
    (token : option jsstring) : jsstring :=
  match fieldTypeOfToken token with
  | Some fieldType => fieldType
  | None =>
      let value := toLowerCase decryptedValue in
      if bool_decide (0x40%N ∈ value) then js "EMAIL"
      else if digits_pattern 10 (digits_of value) then js "MOBILE_NUMBER"
      else if pan_pattern (toUpperCase decryptedValue) then js "PAN_CARD"
      else if passport_pattern (toUpperCase decryptedValue)
      then js "PASSPORT_NUMBER"
      else if card_pattern value then js "CREDIT_CARD"
      else if digits_pattern 9 (digits_of value) then js "SSN"
      else if bool_decide (0x20%N ∈ value) && (10 <? length value)
      then js "ADDRESS"
      else if name_pattern decryptedValue && (length value <? 50) then
        let parts := split_whitespace [] false (trim value) in
        if length parts =? 1 then js "FIRST_NAME"
        else if length parts =? 2 then js "FULL_NAME"
        else if 3 <=? length parts then js "FULL_NAME"
        else js "FIRST_NAME"
      else js "FIRST_NAME"
  end.

(** [indexRecord]: [fieldName] is [None] for [null]; the empty string is
    falsy as well.  A failed decryption is rethrown and nothing is
    written; an empty normalized text gives [null]; an error of
    [indexFieldValue], which has rolled back, is rethrown too. *)
Definition indexRecord (recordId0 : Z) (encryptedPiiData existingToken : jsstring)
    (fieldName0 : option jsstring) (now : Z) (t : table)
  : js_result (option record_result) * table :=
  match decryptPIIData encryptedPiiData with
  | Thrown e => (Thrown e, t)
  | Returned decryptedValue =>
      let normalizedText := DbIndexer.normalize decryptedValue in
      if bool_decide (normalizedText = []) then (Returned None, t)
      else
        let opaqueToken0 := existingToken in
        let actualFieldName :=
          match fieldName0 with
          | Some (c :: f) => c :: f
          | _ => determineFieldName decryptedValue (Some opaqueToken0)
          end in
        let result :=
          DbIndexer.indexFieldValue hmacSecret actualFieldName normalizedText
            opaqueToken0 now t in
        match result.1 with
        | Thrown e => (Thrown e, result.2)
        | Returned summary =>
            (Returned
               (Some {| recordId := recordId0;
                        opaqueToken := opaqueToken0;
                        fieldName := DbIndexer.summary_field summary;
                        fieldAlias := DbIndexer.summary_alias summary;
                        keyCount := DbIndexer.indexed summary;
                        normalizedValue := normalizedText |}),
             result.2)
        end
  end.

(** The loop of [buildIndexFromDatabase] over the rows of its query, each
    with the clock reading of its transaction: a record that throws is
    counted as failed, every other one as indexed. *)
Definition buildIndexFromDatabase (rows : list (token_row * Z)) (t : table)
  : build_summary * table :=
  let '(indexed, failed, t') :=
    foldl
      (fun acc row =>
         let '(indexed, failed, t0) := acc in
         match indexRecord (row_id row.1) (pii_data_point row.1)
                 (row_token row.1) None row.2 t0 with
         | (Returned _, t1) => (indexed + 1, failed, t1)
         | (Thrown _, t1) => (indexed, failed + 1, t1)
         end)
      (0, 0, t) rows in
  ({| build_indexed := indexed; build_failed := failed;
      build_total := length rows |}, t').

(** Whether the decryption of a row of the build query succeeds, and
    whether the row then has something to index. *)
Definition decrypts (row : token_row * Z) : bool :=
  match decryptPIIData (pii_data_point row.1) with
  | Returned _ => true
  | Thrown _ => false
  end.

Definition has_text (row : token_row * Z) : bool :=
  match decryptPIIData (pii_data_point row.1) with
  | Returned v => negb (bool_decide (DbIndexer.normalize v = []))
  | Thrown _ => false
  end.

(** Whether the key column accepts every index key of a row of the build
    query, and with it whether [indexRecord] returns for the row and
    whether it writes to the index. *)
Definition keys_accepted (row : token_row * Z) : bool :=
  match decryptPIIData (pii_data_point row.1) with
  | Returned v =>
      match mapM (varchar 255)
              (DbIndexer.generateAllIndexKeys hmacSecret
                 (DbIndexer.getFieldAlias
                    (determineFieldName v (Some (row_token row.1))))
                 (DbIndexer.normalize v) 3) with
      | Some _ => true
      | None => false
      end
  | Thrown _ => true
  end.

Definition indexes (row : token_row * Z) : bool :=
  decrypts row && (negb (has_text row) || keys_accepted row).

Definition writes (row : token_row * Z) : bool :=
  has_text row && keys_accepted row.

End Indexer.

End DbRecords.

Definition example_rows : list (DbRecords.token_row * Z) :=
  [ ({| DbRecords.row_id := 1; DbRecords.pii_data_point := js "vault:v1:bad";
        DbRecords.row_token := js "T1" |}, 1%Z);
    ({| DbRecords.row_id := 2;
        DbRecords.pii_data_point := js "vault:v1:blank";
        DbRecords.row_token := js "T2" |}, 2%Z);
    ({| DbRecords.row_id := 3; DbRecords.pii_data_point := js "vault:v1:bob";
        DbRecords.row_token := js "T3" |}, 3%Z) ].

(** ** pii-data-generator.js: the tokens of the generated records *)

Module Generator.

(** [generateToken]: the prefix and the random part,
    [faker.string.alphanumeric({ length: 12, casing: 'upper' })]. *)
Definition generateToken (randomPart : jsstring) : jsstring :=
  js "TKN_" ++ randomPart.

(** What the random part is made of. *)
Definition is_upper_alphanumeric (c : N) : bool := is_digit c || is_upper c.

(** The [type] of the entries of [fieldsToProcess], optional ones
    included. *)
Definition field_types : list jsstring :=
  [ js "FIRST_NAME"; js "LAST_NAME"; js "EMAIL"; js "MOBILE_NUMBER";
    js "DATE_OF_BIRTH"; js "ADDRESS"; js "CITY"; js "COUNTRY";
    js "MIDDLE_NAME"; js "PAN_CARD"; js "PASSPORT_NUMBER" ].

(** [`${baseToken}_${field.type}`] *)
Definition fieldToken (baseToken fieldType : jsstring) : jsstring :=
  baseToken ++ js "_" ++ fieldType.

End Generator.

(** ** The trigram index: PIISearchIndexer and PIISearchAPI *)

Module Trigram.

Definition BOUNDARY_START : jsstring := [0x01%N].

Definition BOUNDARY_END : jsstring := [0x02%N].

(** [QUERY_TYPES] *)
Definition EXACT : jsstring := js "exact".
Definition CONTAINS : jsstring := js "contains".
Definition STARTS_WITH : jsstring := js "starts_with".
Definition ENDS_WITH : jsstring := js "ends_with".
Definition PARTIAL : jsstring := js "partial".

(** [s.substr(i, n)] *)
Definition substr (s : jsstring) (i n : nat) : jsstring := take n (drop i s).

(** [for (let i = 0; i <= bounded.length - n; i++) push(bounded.substr(i, n))] *)
Definition windows (bounded : jsstring) (n : nat) : list jsstring :=
  map (fun i => substr bounded i n) (seq 0 (length bounded + 1 - n)).

(** [[...new Set(grams)]]: the first occurrence of each gram, in order. *)
Fixpoint unique (seen grams : list jsstring) : list jsstring :=
  match grams with
  | [] => []
  | g :: rest =>
      if decide (g ∈ seen) then unique seen rest
      else g :: unique (g :: seen) rest
  end.

(** [PIISearchIndexer.generateTrigrams] *)
Definition generateTrigrams (normalizedText : jsstring) : list jsstring :=
  if length normalizedText <? 1 then []
  else
    let bounded := BOUNDARY_START ++ normalizedText ++ BOUNDARY_END in
    unique []
      (windows bounded 3
         ++ (if length normalizedText <=? 3 then windows bounded 2 else [])).

(** [PIISearchAPI.generateQueryTrigrams] *)
Definition generateQueryTrigrams (normalizedText queryType : jsstring)
  : list jsstring :=
  if length normalizedText <? 1 then []
  else
    let bounded :=
      if decide (queryType = EXACT)
      then BOUNDARY_START ++ normalizedText ++ BOUNDARY_END
      else if decide (queryType = STARTS_WITH)
      then BOUNDARY_START ++ normalizedText
      else if decide (queryType = ENDS_WITH)
      then normalizedText ++ BOUNDARY_END
      else normalizedText in
    unique []
      (windows bounded 3
         ++ (if length normalizedText <=? 3 then windows bounded 2 else [])).

(** What a query of type [queryType] asks of a normalized value. *)
Definition asks (queryType q v : jsstring) : Prop :=
  if decide (queryType = EXACT) then q = v
  else if decide (queryType = STARTS_WITH) then q `prefix_of` v
  else if decide (queryType = ENDS_WITH) then q `suffix_of` v
  else substring_of q v.

End Trigram.

(** ** PIIDatabaseSearchAPI.batchSearch *)

Module DbBatch.


(** One element of the array [batchSearch] returns. *)
Inductive entry : Type :=
  | Result (r : DbSearch.response)
  | Failure (error query fieldType : jsstring).

(** [error.message] *)
Definition message (e : js_error) : jsstring :=
  match e with
  | TypeError m => m
  | Error m => m
  end.

Section API.

Context {R : Runtime}.

Variable hmacSecret : jsstring.

Variable config : DbSearch.search_config.


End API.

End DbBatch.
(** ** Facts about strings *)

Lemma slice_from_start (s : jsstring) (i : nat) : slice s 0 i = take i s.
Proof. unfold slice. by rewrite Nat.sub_0_r, drop_0. Qed.

Lemma slice_window (s : jsstring) (i k : nat) :
  slice s i (i + k) = take k (drop i s).
Proof. unfold slice. by replace (i + k - i) with k by lia. Qed.

Lemma spread_cons_cases (c : N) (t : jsstring) :
  (exists d t', t = d :: t' /\ spread (c :: t) = [c; d] :: spread t')
  \/ spread (c :: t) = [c] :: spread t.
Proof.
  destruct t as [|d t']; simpl.
  - by right.
  - destruct (is_high_surrogate c && is_low_surrogate d); eauto.
Qed.

Lemma concat_spread (s : jsstring) : concat (spread s) = s.
Proof.
  remember (length s) as n eqn:Hn.
  revert s Hn. induction (lt_wf n) as [n _ IH]. intros s Hn.
  destruct s as [|c t]; [done|].
  destruct (spread_cons_cases c t) as [(d & t' & -> & ->) | ->].
  - simpl. do 2 f_equal. apply (IH (length t')); [simpl in Hn; lia | done].
  - simpl. f_equal. apply (IH (length t)); [simpl in Hn; lia | done].
Qed.

Lemma length_concat_rev (parts : list jsstring) :
  length (concat (rev parts)) = length (concat parts).
Proof.
  induction parts as [|p parts IH]; [done|].
  simpl. rewrite concat_app, !length_app, IH. simpl.
  rewrite app_nil_r. lia.
Qed.

Lemma length_reverse_string (s : jsstring) :
  length (reverse_string s) = length s.
Proof.
  unfold reverse_string, join_empty.
  by rewrite length_concat_rev, concat_spread.
Qed.

Lemma trimStart_idempotent (s : jsstring) : trimStart (trimStart s) = trimStart s.
Proof.
  induction s as [|c t IH]; [done|].
  simpl. destruct (is_js_whitespace c) eqn:E; [done|]. simpl. by rewrite E.
Qed.

Lemma trimStart_suffix (s : jsstring) : exists ws, s = ws ++ trimStart s.
Proof.
  induction s as [|c t [ws IH]]; [by exists []|].
  simpl. destruct (is_js_whitespace c).
  - exists (c :: ws). simpl. by f_equal.
  - by exists [].
Qed.

Lemma trimStart_head (s t : jsstring) (c : N) :
  trimStart s = c :: t -> is_js_whitespace c = false.
Proof.
  induction s as [|d u IH]; [done|].
  simpl. destruct (is_js_whitespace d) eqn:E; [done|]. by intros [= <- _].
Qed.

Lemma trimStart_fixed (s : jsstring) :
  (forall c t, s = c :: t -> is_js_whitespace c = false) -> trimStart s = s.
Proof.
  destruct s as [|c t]; [done|]. intros Hs. simpl. by rewrite (Hs c t).
Qed.

Lemma trimEnd_prefix (s : jsstring) : exists ws, s = trimEnd s ++ ws.
Proof.
  unfold trimEnd. destruct (trimStart_suffix (rev s)) as [ws Hws].
  exists (rev ws). by rewrite <- rev_app_distr, <- Hws, rev_involutive.
Qed.

Lemma trim_fixed (s : jsstring) :
  (forall c t, s = c :: t -> is_js_whitespace c = false) ->
  (forall c t, rev s = c :: t -> is_js_whitespace c = false) ->
  trim s = s.
Proof.
  intros Hhead Hlast. unfold trim, trimEnd.
  rewrite (trimStart_fixed s Hhead), (trimStart_fixed (rev s) Hlast).
  apply rev_involutive.
Qed.

Lemma trim_idempotent (s : jsstring) : trim (trim s) = trim s.
Proof.
  apply trim_fixed.
  - intros c t Hc. unfold trim in Hc.
    destruct (trimEnd_prefix (trimStart s)) as [ws Hws].
    rewrite Hc in Hws. simpl in Hws.
    by apply (trimStart_head s (t ++ ws)).
  - intros c t Hc. unfold trim, trimEnd in Hc.
    rewrite rev_involutive in Hc. by apply trimStart_head in Hc.
Qed.

(** ** The fragment enumerator *)

Lemma In_tagged (tag tag' : operator_tag) (p : jsstring)
    (f : nat -> jsstring) (l : list nat) :
  In (tag, p) (map (fun i => (tag', f i)) l) <-> tag = tag' /\ In p (map f l).
Proof.
  rewrite !in_map_iff. split.
  - intros (i & [= <- <-] & Hi). eauto.
  - intros [-> (i & <- & Hi)]. eauto.
Qed.

Lemma In_prefixes (v p : jsstring) :
  In p (map (fun i => take i v) (seq 1 (length v)))
  <-> p <> [] /\ p `prefix_of` v.
Proof.
  rewrite in_map_iff. split.
  - intros (i & <- & Hi). apply in_seq in Hi. split.
    + destruct v; simpl in *; [lia|]. destruct i; [lia|done].
    + exists (drop i v). by rewrite take_drop.
  - intros [Hp [rest ->]]. exists (length p). split.
    + by rewrite take_app_length.
    + apply in_seq. rewrite length_app.
      destruct p; [done|]. simpl. lia.
Qed.

Lemma In_windows (v g : jsstring) (K : nat) :
  K <= length v ->
  In g (map (fun i => take K (drop i v)) (seq 0 (length v - K + 1)))
  <-> length g = K /\ substring_of g v.
Proof.
  intros HK. rewrite in_map_iff. split.
  - intros (i & <- & Hi). apply in_seq in Hi. split.
    + rewrite length_take, length_drop. lia.
    + exists (take i v), (drop K (drop i v)).
      by rewrite take_drop, take_drop.
  - intros [Hg (a & b & ->)]. exists (length a). split.
    + by rewrite drop_app_length, <- Hg, take_app_length.
    + apply in_seq. rewrite !length_app. lia.
Qed.

(** What the fragment table holds, tag by tag. *)
Lemma In_spec_fragments (v p : jsstring) (K : nat) (tag : operator_tag) :
  In (tag, p) (spec_fragments v K)
  <-> match tag with
      | TagEq => p = v
      | TagPre => p <> [] /\ p `prefix_of` v
      | TagSuf => p <> [] /\ p `prefix_of` reverse_string v
      | TagGram K' => K' = K /\ length p = K /\ substring_of p v
      end.
Proof.
  unfold spec_fragments. rewrite !in_app_iff.
  rewrite (In_tagged tag TagPre), (In_tagged tag TagSuf).
  rewrite <- (length_reverse_string v) at 2.
  rewrite !In_prefixes.
  assert (Hg : In (tag, p)
                 (if length v <? K then []
                  else map (fun i => (TagGram K, take K (drop i v)))
                           (seq 0 (length v - K + 1)))
               <-> tag = TagGram K /\ length p = K /\ substring_of p v).
  { destruct (Nat.ltb_spec (length v) K) as [Hlt|Hle].
    - split; [by intros []|]. intros (_ & Hp & a & b & Hv).
      rewrite Hv, !length_app in Hlt. lia.
    - rewrite In_tagged, In_windows by done. tauto. }
  rewrite Hg. simpl. destruct tag; split.
  all: try (intros [[[= ->]|[]]|[[? ?]|[[? ?]|[? ?]]]]; done).
  all: try (intros [[[= ]|[]]|[[? ?]|[[? ?]|[? ?]]]]; done).
  - intros ->. by left; left.
  - intros [? ?]. right. by left.
  - intros [? ?]. right. right. by left.
  - intros [[[= ]|[]]|[[? ?]|[[? ?]|[[= ->] ?]]]]; done.
  - intros [-> ?]. by right; right; right.
Qed.

Lemma length_spec_fragments (v : jsstring) (K : nat) :
  Z.of_nat (length (spec_fragments v K))
  = (1 + 2 * Z.of_nat (length v)
     + Z.max 0 (Z.of_nat (length v) - Z.of_nat K + 1))%Z.
Proof.
  unfold spec_fragments.
  rewrite !length_app, !length_map, !length_seq. simpl length.
  destruct (Nat.ltb_spec (length v) K).
  - simpl. lia.
  - rewrite length_map, length_seq. lia.
Qed.

Section Enumerator.

Context {R : Runtime}.

Variable secret : jsstring.

Lemma generateAllIndexKeys_fragments (field value : jsstring) (K : nat) :
  Redis.generateAllIndexKeys secret field value K
  = map (derive secret field) (spec_fragments (Redis.normalize value) K).
Proof.
  unfold Redis.generateAllIndexKeys, spec_fragments.
  set (v := Redis.normalize value).
  rewrite !map_app, !map_map, length_reverse_string. simpl map.
  f_equal. f_equal; [|f_equal].
  - apply map_ext. intros i. unfold derive. simpl. by rewrite slice_from_start.
  - apply map_ext. intros i. unfold derive. simpl. by rewrite slice_from_start.
  - destruct (Nat.leb_spec K (length v)), (Nat.ltb_spec (length v) K);
      try lia; [|done].
    rewrite map_map. apply map_ext. intros i. unfold derive. simpl.
    by rewrite slice_window.
Qed.

Lemma db_generateAllIndexKeys_same (field value : jsstring) (K : nat) :
  DbIndexer.generateAllIndexKeys secret field value K
  = Redis.generateAllIndexKeys secret field value K.
Proof. reflexivity. Qed.

(** C8.  For a value whose normalized form [v] is non-empty, both indexers
    emit exactly the keys of the specification's fragment table, one key per
    fragment and in its order: the eq fragment [v], every non-empty prefix of
    [v], every non-empty prefix of the code-point reversal of [v], and every
    [K]-wide window of [v] (none when [|v| < K]); their number is
    [1 + 2|v| + max(0, |v| - K + 1)]. *)
Theorem fragment_enumeration (field value : jsstring) (K : nat) :
  let v := Redis.normalize value in
  v <> [] ->
  Redis.generateAllIndexKeys secret field value K
    = map (derive secret field) (spec_fragments v K)
  /\ DbIndexer.generateAllIndexKeys secret field value K
    = map (derive secret field) (spec_fragments v K)
  /\ (forall e, In (TagEq, e) (spec_fragments v K) <-> e = v)
  /\ (forall p, In (TagPre, p) (spec_fragments v K)
                <-> p <> [] /\ p `prefix_of` v)
  /\ (forall p, In (TagSuf, p) (spec_fragments v K)
                <-> p <> [] /\ p `prefix_of` reverse_string v)
  /\ (forall K' g, In (TagGram K', g) (spec_fragments v K)
                <-> K' = K /\ length g = K /\ substring_of g v)
  /\ Z.of_nat (length (Redis.generateAllIndexKeys secret field value K))
     = (1 + 2 * Z.of_nat (length v)
        + Z.max 0 (Z.of_nat (length v) - Z.of_nat K + 1))%Z.
Proof.
  intros v _.
  split; [apply generateAllIndexKeys_fragments|].
  split; [apply generateAllIndexKeys_fragments|].
  split; [intros e; apply (In_spec_fragments v e K TagEq)|].
  split; [intros p; apply (In_spec_fragments v p K TagPre)|].
  split; [intros p; apply (In_spec_fragments v p K TagSuf)|].
  split; [intros K' g; apply (In_spec_fragments v g K (TagGram K'))|].
  rewrite generateAllIndexKeys_fragments, length_map.
  apply length_spec_fragments.
Qed.

End Enumerator.

(** ** The Redis store *)

Lemma sMembers_sAdd (key key' member : jsstring) (st : Redis.db) :
  Redis.sMembers key' (Redis.sAdd key member st)
  = if decide (key = key') then {[member]} ∪ Redis.sMembers key' st
    else Redis.sMembers key' st.
Proof.
  unfold Redis.sAdd, Redis.sMembers at 1.
  destruct (decide (key = key')) as [->|Hne].
  - by rewrite lookup_insert_eq.
  - by rewrite lookup_insert_ne.
Qed.

(** The store after the pipeline of [indexFieldValue]. *)
Lemma lookup_pipeline (keys : list jsstring) (token key : jsstring)
    (st : Redis.db) :
  foldl (fun s k => Redis.sAdd k token s) st keys !! key
  = if decide (key ∈ keys) then Some ({[token]} ∪ Redis.sMembers key st)
    else st !! key.
Proof.
  revert st. induction keys as [|k ks IH]; intros st; cbn [foldl].
  - case_decide as Hin; [by apply elem_of_nil in Hin | done].
  - rewrite IH, sMembers_sAdd. unfold Redis.sAdd.
    rewrite (lookup_insert st k key).
    destruct (decide (key ∈ ks)) as [Hin|Hnin],
             (decide (k = key)) as [->|Hne].
    + rewrite decide_True by (by left). f_equal.
      by rewrite (assoc_L (∪)), (idemp_L (∪)).
    + by rewrite decide_True by (by right).
    + by rewrite decide_True by (by left).
    + by rewrite decide_False by (by intros [->|?]%elem_of_cons).
Qed.

Lemma sMembers_pipeline (keys : list jsstring) (token key : jsstring)
    (st : Redis.db) :
  key ∈ keys ->
  token ∈ Redis.sMembers key (foldl (fun s k => Redis.sAdd k token s) st keys).
Proof.
  intros Hin. unfold Redis.sMembers at 1.
  rewrite lookup_pipeline, decide_True by done. simpl. set_solver.
Qed.

Lemma elem_of_sInter (keys : list jsstring) (x : jsstring) (st : Redis.db) :
  keys <> [] ->
  (forall key, key ∈ keys -> x ∈ Redis.sMembers key st) ->
  x ∈ Redis.sInter keys st.
Proof.
  destruct keys as [|key rest]; [done|]. intros _ Hall. simpl.
  assert (Hfirst : x ∈ Redis.sMembers key st) by (apply Hall; by left).
  assert (Hrest : forall k, k ∈ rest -> x ∈ Redis.sMembers k st)
    by (intros k Hk; apply Hall; by right).
  clear Hall. revert Hfirst Hrest. generalize (Redis.sMembers key st).
  induction rest as [|k rest IH]; intros acc Hacc Hrest; simpl; [done|].
  apply IH.
  - apply elem_of_intersection. split; [done|]. apply Hrest. by left.
  - intros k' Hk'. apply Hrest. by right.
Qed.

(** ** Coverage *)

Lemma reverse_string_suffix (nq nv : jsstring) :
  spread nq `suffix_of` spread nv ->
  reverse_string nq `prefix_of` reverse_string nv.
Proof.
  intros [front Hnv]. unfold reverse_string, join_empty.
  rewrite Hnv, rev_app_distr, concat_app. by eexists.
Qed.

Section Coverage.

Context {R : Runtime}.

Variable secret : jsstring.

(** Every key of a matching query is among the keys of the indexed value. *)
Lemma keysFor_indexed (field v op nq : jsstring) (K : nat) :
  query_matches K (Redis.normalize v) op nq ->
  forall q, Redis.normalize q = nq ->
  Redis.keysFor secret field op q K <> []
  /\ forall key, key ∈ Redis.keysFor secret field op q K ->
                 key ∈ Redis.generateAllIndexKeys secret field v K.
Proof.
  intros Hm q Hq. rewrite generateAllIndexKeys_fragments.
  unfold Redis.keysFor. rewrite Hq. clear Hq.
  set (nv := Redis.normalize v) in *.
  assert (Hfrag : forall tag p,
             In (tag, p) (spec_fragments nv K) ->
             Redis.indexKey secret field (tag_string tag) p
               ∈ map (derive secret field) (spec_fragments nv K)).
  { intros tag p Hin. apply list_elem_of_In, in_map_iff.
    by exists (tag, p). }
  destruct Hm as [|nq Hne Hpre|nq Hne Hsuf|nq Hlen Hsub].
  - rewrite decide_True by done. split; [done|].
    intros key ->%list_elem_of_singleton.
    apply (Hfrag TagEq). by apply In_spec_fragments.
  - rewrite decide_False, decide_True by done. split; [done|].
    intros key ->%list_elem_of_singleton.
    apply (Hfrag TagPre). by apply In_spec_fragments.
  - rewrite !decide_False, decide_True by done. split; [done|].
    intros key ->%list_elem_of_singleton.
    apply (Hfrag TagSuf). apply In_spec_fragments. split.
    + intros Hnil. apply Hne.
      apply (f_equal length) in Hnil. rewrite length_reverse_string in Hnil.
      by destruct nq.
    + by apply reverse_string_suffix.
  - rewrite !decide_False by done.
    destruct (Nat.ltb_spec (length nq) K) as [?|_]; [lia|].
    unfold Redis.grams. split.
    + rewrite map_map. intros Hnil%(f_equal length).
      rewrite length_map, length_seq in Hnil. simpl in Hnil. lia.
    + intros key (g & <- & Hg)%list_elem_of_In%in_map_iff.
      apply (Hfrag (TagGram K)). apply In_spec_fragments.
      apply in_map_iff in Hg as (i & <- & Hi%in_seq).
      rewrite slice_window. split; [done|].
      split; [rewrite length_take, length_drop; lia|].
      destruct Hsub as (a & b & Hnv).
      exists (a ++ take i nq), (drop K (drop i nq) ++ b).
      rewrite Hnv, <- !app_assoc. f_equal.
      rewrite (app_assoc (take K _)), take_drop.
      by rewrite (app_assoc (take i _)), take_drop.
Qed.

End Coverage.

Section Evaluator.

Context {R : Runtime}.

Variable secret : jsstring.

(** A reference held under every key of a query is in the answer. *)
Lemma search_over_keys (fieldName op q ref : jsstring) (K : nat)
    (st : Redis.db) :
  Redis.keysFor secret (Redis.getFieldAlias fieldName) op q K <> [] ->
  (forall key,
      key ∈ Redis.keysFor secret (Redis.getFieldAlias fieldName) op q K ->
      ref ∈ Redis.sMembers key st) ->
  exists found,
    Redis.search secret fieldName op q K st = Returned found /\ ref ∈ found.
Proof.
  intros Hne Hall. unfold Redis.search, Redis.searchCommand.
  destruct (Redis.keysFor secret (Redis.getFieldAlias fieldName) op q K)
    as [|key [|key' rest]]; [done| |].
  - eexists. split; [done|]. apply Hall. by left.
  - eexists. split; [done|]. by apply elem_of_sInter.
Qed.

(** The reference just indexed is found by the equality query for the same
    value. *)
Lemma eq_search_finds_reference (fieldName v ref : jsstring) (K : nat)
    (st : Redis.db) :
  exists found,
    Redis.search secret fieldName (js "eq") v K
      (Redis.indexFieldValue secret fieldName v ref K st).2 = Returned found
    /\ ref ∈ found.
Proof.
  destruct (keysFor_indexed secret (Redis.getFieldAlias fieldName) v
              (js "eq") _ K (matches_eq K (Redis.normalize v)) v eq_refl)
    as [Hne Hkeys].
  apply search_over_keys; [done|]. intros key Hkey.
  apply sMembers_pipeline. by apply Hkeys.
Qed.

(** C2, amended.  After [indexFieldValue(f, v, ref)], every query [q] whose
    normalized form matches the normalized value (equal to it for eq; a
    non-empty prefix for startsWith; a non-empty suffix at a code-point
    boundary for endsWith; a substring of at least [K] code units for
    contains) is answered by [search(f, op, q)] with a set that contains
    [ref]. *)
Theorem coverage (fieldName v ref op q : jsstring) (K : nat) (st : Redis.db) :
  query_matches K (Redis.normalize v) op (Redis.normalize q) ->
  exists found,
    Redis.search secret fieldName op q K
      (Redis.indexFieldValue secret fieldName v ref K st).2 = Returned found
    /\ ref ∈ found.
Proof.
  intros Hm.
  destruct (keysFor_indexed secret (Redis.getFieldAlias fieldName) v op _ K
              Hm q eq_refl) as [Hne Hkeys].
  apply search_over_keys; [done|]. intros key Hkey.
  unfold Redis.indexFieldValue. cbn [snd].
  apply sMembers_pipeline. by apply Hkeys.
Qed.

(** C10.  Indexing the same field value and token a second time leaves the
    store as the first indexing left it and reports the same summary; the
    members of a Redis set are pairwise distinct. *)
Theorem reindex_idempotent (fieldName value token : jsstring) (K : nat)
    (st : Redis.db) :
  let once := Redis.indexFieldValue secret fieldName value token K st in
  let twice := Redis.indexFieldValue secret fieldName value token K once.2 in
  twice.2 = once.2
  /\ twice.1 = once.1
  /\ forall (st' : Redis.db) (key : jsstring),
       NoDup (elements (Redis.sMembers key st')).
Proof.
  unfold Redis.indexFieldValue. cbn [fst snd]. split; [|split]; [|done|].
  - apply map_eq. intros key. rewrite !lookup_pipeline.
    case_decide as Hin; [|done]. f_equal.
    unfold Redis.sMembers at 1. rewrite lookup_pipeline, decide_True by done.
    cbn [default id]. by rewrite (assoc_L (∪)), (idemp_L (∪)).
  - intros st' key. apply NoDup_elements.
Qed.

(** C5.  [removeFieldValue] does not complete: the call of the missing
    method [generateFieldKeys] throws, the store is left as it was, and the
    reference just indexed is still returned by an equality query. *)
Theorem removeFieldValue_throws (fieldName value token : jsstring) (K : nat)
    (st : Redis.db) :
  let indexed := (Redis.indexFieldValue secret fieldName value token K st).2 in
  let removal := Redis.removeFieldValue fieldName value token K indexed in
  removal.1 = Thrown (TypeError (js "this.generateFieldKeys is not a function"))
  /\ removal.2 = indexed
  /\ exists found,
       Redis.search secret fieldName (js "eq") value K removal.2
         = Returned found
       /\ token ∈ found.
Proof.
  cbn zeta. split; [done|]. split; [done|].
  unfold Redis.removeFieldValue. cbn [Redis.generateFieldKeys snd].
  apply eq_search_finds_reference.
Qed.

Lemma db_keysFor_same (field op q : jsstring) (K : nat) :
  DbSearch.keysFor secret field op q K = Redis.keysFor secret field op q K.
Proof. reflexivity. Qed.



End Evaluator.

(** ** The relational store *)

(** The rows a query selects, read back as a set of tokens. *)
Lemma elem_of_searchTokensInIndex (keys : list jsstring) (now : Z)
    (t : Pg.table) (x : jsstring) :
  x ∈ DbSearch.searchTokensInIndex keys now t
  <-> exists key r,
        t !! key = Some r /\ key ∈ keys /\ (now < Pg.retention_until r)%Z
        /\ x ∈ DbSearch.row_tokens r.
Proof.
  unfold DbSearch.searchTokensInIndex.
  destruct keys as [|k0 keys'].
  - split; [by intros ?%elem_of_empty|].
    by intros (key & r & _ & ?%elem_of_nil & _).
  - set (keys := k0 :: keys'). rewrite elem_of_list_to_set, list_elem_of_bind.
    split.
    + intros ([key r] & Hx & Hsel%elem_of_map_to_list).
      apply map_lookup_filter_Some in Hsel as [Hlook [Hk Hr]].
      by exists key, r.
    + intros (key & r & Hlook & Hk & Hr & Hx). exists (key, r).
      split; [done|]. apply elem_of_map_to_list, map_lookup_filter_Some.
      by split.
Qed.

(** A row past its retention date takes no part in a selection. *)
Lemma selected_delete_expired (keys : list jsstring) (now : Z) (t : Pg.table)
    (key : jsstring) (r : Pg.row) :
  t !! key = Some r -> (Pg.retention_until r < now)%Z ->
  DbSearch.selected keys now (delete key t) = DbSearch.selected keys now t.
Proof.
  intros Hlook Hexp. unfold DbSearch.selected.
  rewrite map_filter_delete. apply delete_id.
  apply eq_None_not_Some. intros [r' Hr'].
  apply map_lookup_filter_Some in Hr' as [Hr' [_ Hlive]].
  rewrite Hlook in Hr'. injection Hr' as <-. simpl in Hlive. lia.
Qed.

Lemma searchTokensInIndex_delete_expired (keys : list jsstring) (now : Z)
    (t : Pg.table) (key : jsstring) (r : Pg.row) :
  t !! key = Some r -> (Pg.retention_until r < now)%Z ->
  DbSearch.searchTokensInIndex keys now (delete key t)
  = DbSearch.searchTokensInIndex keys now t.
Proof.
  intros Hlook Hexp. unfold DbSearch.searchTokensInIndex.
  destruct keys; [done|]. by rewrite (selected_delete_expired _ _ _ _ r).
Qed.

Lemma foldl_intersection_subseteq (acc : gset jsstring)
    (sets : list (gset jsstring)) :
  foldl (fun intersection s => intersection ∩ s) acc sets ⊆ acc.
Proof.
  revert acc. induction sets as [|s sets IH]; intros acc; cbn [foldl].
  - done.
  - etrans; [apply IH|]. apply intersection_subseteq_l.
Qed.

Section Relational.

Context {R : Runtime}.

Variable hmacSecret : jsstring.

(** Whatever [search] returns on the relational backend was read from a
    row of the table. *)
Lemma db_search_from_rows (fieldName op q : jsstring) (K : nat) (now : Z)
    (t : Pg.table) :
  exists found,
    DbSearch.search hmacSecret fieldName op q K now t = Returned found
    /\ forall x, x ∈ found ->
         exists key r, t !! key = Some r /\ x ∈ DbSearch.row_tokens r.
Proof.
  unfold DbSearch.search.
  destruct (DbSearch.keysFor _ _ _ _ _) as [|k1 [|k2 ks]].
  - eexists. split; [done|]. by intros x ?%elem_of_empty.
  - eexists. split; [done|].
    intros x (key & r & ? & _ & _ & ?)%elem_of_searchTokensInIndex. eauto.
  - eexists. split; [done|]. cbn zeta. cbn [map hd tl].
    intros x Hx%foldl_intersection_subseteq.
    apply elem_of_searchTokensInIndex in Hx as (key & r & ? & _ & _ & ?).
    eauto.
Qed.

(** C6, amended.  On the relational backend a lookup performed strictly
    after the [retention_until] of an entry returns what it would return if
    the entry were absent: this holds for the selection itself, for
    [search], for [executeComplexQuery] and for [performSearch]. *)
Theorem retention (key : jsstring) (r : Pg.row) (now : Z) (t : Pg.table) :
  t !! key = Some r ->
  (Pg.retention_until r < now)%Z ->
  (forall keys,
      DbSearch.searchTokensInIndex keys now t
      = DbSearch.searchTokensInIndex keys now (delete key t))
  /\ (forall fieldName op q K,
        DbSearch.search hmacSecret fieldName op q K now t
        = DbSearch.search hmacSecret fieldName op q K now (delete key t))
  /\ (forall queryConditions operator,
        DbSearch.executeComplexQuery hmacSecret queryConditions operator now t
        = DbSearch.executeComplexQuery hmacSecret queryConditions operator now
            (delete key t))
  /\ (forall config query fieldType queryType,
        DbSearch.performSearch hmacSecret config query fieldType queryType
          now t
        = DbSearch.performSearch hmacSecret config query fieldType queryType
            now (delete key t)).
Proof.
  intros Hlook Hexp.
  assert (Hsel : forall keys,
             DbSearch.searchTokensInIndex keys now t
             = DbSearch.searchTokensInIndex keys now (delete key t)).
  { intros keys. symmetry. by apply (searchTokensInIndex_delete_expired _ _ _ _ r). }
  assert (Hsearch : forall fieldName op q K,
             DbSearch.search hmacSecret fieldName op q K now t
             = DbSearch.search hmacSecret fieldName op q K now (delete key t)).
  { intros fieldName op q K. unfold DbSearch.search.
    destruct (DbSearch.keysFor _ _ _ _ _) as [|k1 [|k2 ks]]; [done| |].
    - by rewrite Hsel.
    - cbn zeta.
      replace (map (fun k => DbSearch.searchTokensInIndex [k] now t)
                   (k1 :: k2 :: ks))
        with (map (fun k => DbSearch.searchTokensInIndex [k] now
                              (delete key t))
                  (k1 :: k2 :: ks)); [done|].
      apply map_ext. intros k. by rewrite Hsel. }
  split; [done|]. split; [done|]. split.
  - intros queryConditions operator. unfold DbSearch.executeComplexQuery.
    assert (Hsets : DbSearch.resultSetsOf hmacSecret queryConditions now t
                    = DbSearch.resultSetsOf hmacSecret queryConditions now
                        (delete key t)).
    { induction queryConditions as [|c rest IH]; [done|].
      cbn [DbSearch.resultSetsOf]. rewrite IH. f_equal.
      unfold DbSearch.evalCondition, DbSearch.searchFieldEquals,
        DbSearch.searchFieldStartsWith, DbSearch.searchFieldEndsWith,
        DbSearch.searchFieldContains.
      by rewrite !Hsearch. }
    by rewrite Hsets.
  - intros config query fieldType queryType. unfold DbSearch.performSearch.
    by rewrite Hsearch.
Qed.

(** C3, amended.  [performSearch] applies the gate to the result of its one
    predicate: whenever the query is non-empty and at least [minQueryLength]
    long it returns a response, and with [n] the size of the set found, the
    response carries the empty set and the flag when [0 < n < minResultSize],
    the empty set and no flag when [n = 0], and the full set and no flag when
    [n >= minResultSize]. *)
Theorem k_anonymity_gate (config : DbSearch.search_config)
    (query fieldType queryType : jsstring) (now : Z) (t : Pg.table) :
  query <> [] ->
  (DbSearch.minQueryLength config <= Z.of_nat (length query))%Z ->
  exists found resp,
    DbSearch.search hmacSecret fieldType (DbSearch.operationOf queryType)
      query DbSearch.this_k now t = Returned found
    /\ DbSearch.performSearch hmacSecret config query fieldType queryType
         now t = Returned resp
    /\ let n := Z.of_nat (size found) in
       let k_min := DbSearch.minResultSize config in
       ((0 < n < k_min)%Z ->
          DbSearch.tokens resp = ∅ /\ DbSearch.kAnonymityApplied resp = true)
       /\ (n = 0%Z ->
          DbSearch.tokens resp = ∅ /\ DbSearch.kAnonymityApplied resp = false)
       /\ ((k_min <= n)%Z ->
          DbSearch.tokens resp = found
          /\ DbSearch.kAnonymityApplied resp = false).
Proof.
  intros Hne Hlen. unfold DbSearch.performSearch.
  rewrite bool_decide_eq_false_2 by done.
  destruct (Z.ltb_spec (Z.of_nat (length query))
              (DbSearch.minQueryLength config)) as [?|_]; [lia|].
  cbn [orb].
  destruct (db_search_from_rows fieldType (DbSearch.operationOf queryType)
              query DbSearch.this_k now t) as (found & Hfound & _).
  rewrite Hfound. eexists found, _. split; [done|]. split; [done|].
  cbn zeta. cbn [DbSearch.tokens DbSearch.kAnonymityApplied].
  destruct (Z.leb_spec (DbSearch.minResultSize config)
              (Z.of_nat (size found))) as [Hge|Hlt].
  - split; [lia|]. split.
    + intros Hz. assert (Hsize : size found = 0) by lia.
      apply size_empty_inv in Hsize. apply leibniz_equiv in Hsize.
      subst found. by rewrite size_empty.
    + intros _. split; [done|].
      destruct (Nat.ltb_spec 0 (size found)) as [Hpos|]; [|done].
      cbn [andb]. apply Nat.eqb_neq. lia.
  - rewrite size_empty. split; [|split].
    + intros [Hpos _]. split; [done|].
      destruct (Nat.ltb_spec 0 (size found)); [done|lia].
    + intros Hz. split; [done|].
      destruct (Nat.ltb_spec 0 (size found)); [lia|done].
    + lia.
Qed.

End Relational.

(** ** Normalization *)

Lemma Forall_trimStart (P : N -> Prop) (s : jsstring) :
  Forall P s -> Forall P (trimStart s).
Proof.
  intros Hs. destruct (trimStart_suffix s) as [ws Hws].
  rewrite Hws in Hs. by apply Forall_app in Hs as [_ ?].
Qed.

Lemma Forall_trim (P : N -> Prop) (s : jsstring) :
  Forall P s -> Forall P (trim s).
Proof.
  intros Hs. unfold trim.
  destruct (trimEnd_prefix (trimStart s)) as [ws Hws].
  apply Forall_trimStart in Hs. rewrite Hws in Hs.
  by apply Forall_app in Hs as [? _].
Qed.

Lemma trimStart_whitespace (ws s : jsstring) :
  Forall (fun c => is_js_whitespace c = true) ws ->
  trimStart (ws ++ s) = trimStart s.
Proof.
  induction 1 as [|c ws Hc _ IH]; [done|]. simpl. by rewrite Hc.
Qed.

Lemma trimStart_keep (s ws : jsstring) :
  trimStart s <> [] -> trimStart (s ++ ws) = trimStart s ++ ws.
Proof.
  induction s as [|c t IH]; [done|].
  simpl. destruct (is_js_whitespace c); [apply IH | done].
Qed.

(** White space around a string does not survive [trim]. *)
Lemma trim_padding (ws1 s ws2 : jsstring) :
  Forall (fun c => is_js_whitespace c = true) ws1 ->
  Forall (fun c => is_js_whitespace c = true) ws2 ->
  trim (ws1 ++ s ++ ws2) = trim s.
Proof.
  intros H1 H2. unfold trim. rewrite trimStart_whitespace by done.
  destruct (trimStart s) as [|c t] eqn:E.
  - assert (Hall : trimStart (s ++ ws2) = []).
    { clear -E H2. induction s as [|d u IH]; simpl in *.
      - rewrite <- (app_nil_r ws2). by rewrite trimStart_whitespace.
      - destruct (is_js_whitespace d); [auto|done]. }
    by rewrite Hall.
  - rewrite trimStart_keep by (by rewrite E). rewrite E.
    unfold trimEnd. rewrite rev_app_distr.
    rewrite trimStart_whitespace; [done|].
    apply Forall_forall. intros x Hx%list_elem_of_In%in_rev.
    by apply (proj1 (Forall_forall _ _) H2), list_elem_of_In.
Qed.

Lemma ascii_lower_ascii (c : N) : (c < 128)%N -> (ascii_lower c < 128)%N.
Proof.
  unfold ascii_lower. intros Hc.
  destruct (N.leb_spec 0x41 c), (N.leb_spec c 0x5A); simpl; lia.
Qed.

Lemma ascii_lower_idempotent (c : N) :
  ascii_lower (ascii_lower c) = ascii_lower c.
Proof.
  unfold ascii_lower.
  destruct (N.leb_spec 0x41 c), (N.leb_spec c 0x5A); cbn [andb].
  all: repeat match goal with
         | |- context [(?a <=? ?b)%N] => destruct (N.leb_spec a b)
         end; cbn [andb]; try done; lia.
Qed.

Lemma ascii_lower_whitespace (c : N) :
  is_js_whitespace c = true -> ascii_lower c = c.
Proof.
  unfold ascii_lower. intros Hc.
  destruct (N.leb_spec 0x41 c), (N.leb_spec c 0x5A); simpl; try done.
  exfalso. revert Hc. unfold is_js_whitespace.
  repeat match goal with
         | |- context [(c =? ?n)%N] => destruct (N.eqb_spec c n); [lia|]
         end.
  destruct (N.leb_spec 0x2000 c); [lia|]. done.
Qed.

Section Normalization.

Context {R : Runtime}.

Variable secret : jsstring.

Lemma normalize_same (s : jsstring) :
  DbIndexer.normalize s = Redis.normalize s
  /\ DbSearch.normalize s = Redis.normalize s.
Proof. done. Qed.

Lemma normalize_stable_image (s : jsstring) :
  nfkc (Redis.normalize s) = Redis.normalize s ->
  toLowerCase (Redis.normalize s) = Redis.normalize s ->
  Redis.normalize (Redis.normalize s) = Redis.normalize s.
Proof.
  intros Hn Hl. unfold Redis.normalize at 1. rewrite Hn, Hl.
  apply trim_idempotent.
Qed.

(** Equal canonical forms give the same keys, on the indexing side and on
    the query side. *)
Lemma keys_of_equal_images (s1 s2 field op : jsstring) (K : nat) :
  Redis.normalize s1 = Redis.normalize s2 ->
  Redis.generateAllIndexKeys secret field s1 K
  = Redis.generateAllIndexKeys secret field s2 K
  /\ Redis.keysFor secret field op s1 K = Redis.keysFor secret field op s2 K.
Proof.
  intros Heq. unfold Redis.generateAllIndexKeys, Redis.keysFor.
  by rewrite Heq.
Qed.

Context {F : AsciiFaithful R}.

Lemma normalize_ascii (s : jsstring) :
  is_ascii s -> Redis.normalize s = trim (map ascii_lower s).
Proof.
  intros Hs. unfold Redis.normalize.
  by rewrite (nfkc_ascii s Hs), (toLowerCase_ascii s Hs).
Qed.

Lemma normalize_ascii_idempotent (s : jsstring) :
  is_ascii s -> Redis.normalize (Redis.normalize s) = Redis.normalize s.
Proof.
  intros Hs. rewrite (normalize_ascii s Hs).
  assert (Hlow : Forall (fun c => (c < 128)%N /\ ascii_lower c = c)
                        (map ascii_lower s)).
  { apply Forall_map. eapply Forall_impl; [exact Hs|].
    intros c Hc. simpl.
    split; [by apply ascii_lower_ascii | apply ascii_lower_idempotent]. }
  apply (Forall_trim _ _) in Hlow.
  rewrite normalize_ascii.
  - replace (map ascii_lower (trim (map ascii_lower s)))
      with (trim (map ascii_lower s)); [apply trim_idempotent|].
    induction Hlow as [|c l [_ Hc] _ IH]; [done|]. simpl. by rewrite Hc, <- IH.
  - eapply Forall_impl; [exact Hlow|]. by intros c [? _].
Qed.

Context {P : PaddingFaithful R}.

(** White space around any string leaves its image as it is. *)
Lemma normalize_padding (ws1 s ws2 : jsstring) :
  Forall (fun c => is_js_whitespace c = true) ws1 ->
  Forall (fun c => is_js_whitespace c = true) ws2 ->
  Redis.normalize (ws1 ++ s ++ ws2) = Redis.normalize s.
Proof.
  intros Hws1 Hws2. unfold Redis.normalize.
  destruct (nfkc_padding ws1 s ws2 Hws1 Hws2)
    as (ws1' & ws2' & Hws1' & Hws2' & ->).
  rewrite toLowerCase_padding by done. by apply trim_padding.
Qed.

(** C9, amended.  [normalize] is the same function in the three classes.  It
    is idempotent on every string whose image is in NFKC form and in
    lowercase, and on every ASCII string.  Strings with the same NFKC form,
    and strings whose NFKC forms have the same lowercase form, have equal
    images; so have ASCII strings that differ only by the case of their
    letters, and any string, ASCII or not, with or without white space
    around it.  Strings with equal images derive the same index keys. *)
Theorem normalization :
  (forall s, DbIndexer.normalize s = Redis.normalize s
             /\ DbSearch.normalize s = Redis.normalize s)
  /\ (forall s,
        nfkc (Redis.normalize s) = Redis.normalize s ->
        toLowerCase (Redis.normalize s) = Redis.normalize s ->
        Redis.normalize (Redis.normalize s) = Redis.normalize s)
  /\ (forall s,
        is_ascii s -> Redis.normalize (Redis.normalize s) = Redis.normalize s)
  /\ (forall s1 s2,
        nfkc s1 = nfkc s2 -> Redis.normalize s1 = Redis.normalize s2)
  /\ (forall s1 s2,
        toLowerCase (nfkc s1) = toLowerCase (nfkc s2) ->
        Redis.normalize s1 = Redis.normalize s2)
  /\ (forall s1 s2,
        is_ascii s1 -> is_ascii s2 ->
        map ascii_lower s1 = map ascii_lower s2 ->
        Redis.normalize s1 = Redis.normalize s2)
  /\ (forall ws1 s ws2,
        is_ascii ws1 -> is_ascii s -> is_ascii ws2 ->
        Forall (fun c => is_js_whitespace c = true) ws1 ->
        Forall (fun c => is_js_whitespace c = true) ws2 ->
        Redis.normalize (ws1 ++ s ++ ws2) = Redis.normalize s)
  /\ (forall ws1 s ws2,
        Forall (fun c => is_js_whitespace c = true) ws1 ->
        Forall (fun c => is_js_whitespace c = true) ws2 ->
        Redis.normalize (ws1 ++ s ++ ws2) = Redis.normalize s)
  /\ (forall s1 s2 field op K,
        Redis.normalize s1 = Redis.normalize s2 ->
        Redis.generateAllIndexKeys secret field s1 K
          = Redis.generateAllIndexKeys secret field s2 K
        /\ Redis.keysFor secret field op s1 K
          = Redis.keysFor secret field op s2 K).
Proof.
  split; [apply normalize_same|].
  split; [apply normalize_stable_image|].
  split; [apply normalize_ascii_idempotent|].
  split; [intros s1 s2 H12; unfold Redis.normalize; by rewrite H12|].
  split; [intros s1 s2 H12; unfold Redis.normalize; by rewrite H12|].
  split.
  { intros s1 s2 H1 H2 H12. by rewrite !normalize_ascii, H12. }
  split; [intros; by apply normalize_padding|].
  split; [apply normalize_padding|].
  intros; by apply keys_of_equal_images.
Qed.

End Normalization.

(** ** The upsert of the relational indexer *)

Lemma upsert_other (key key' token fieldType : jsstring)
    (retention now : Z) (t : Pg.table) :
  key <> key' ->
  DbIndexer.upsert key token fieldType retention now t !! key' = t !! key'.
Proof.
  intros Hne. unfold DbIndexer.upsert.
  destruct (t !! key); by rewrite lookup_insert_ne.
Qed.

Lemma upsert_created (key token fieldType : jsstring)
    (retention now : Z) (t : Pg.table) :
  t !! key = None ->
  DbIndexer.upsert key token fieldType retention now t !! key
  = Some {| Pg.token_set := token; Pg.field_type := fieldType;
            Pg.created_at := now; Pg.retention_until := retention |}.
Proof.
  intros Hnone. unfold DbIndexer.upsert.
  by rewrite Hnone, lookup_insert_eq.
Qed.

Lemma upsert_updated (key token fieldType : jsstring)
    (retention now : Z) (t : Pg.table) (old : Pg.row) :
  t !! key = Some old ->
  DbIndexer.upsert key token fieldType retention now t !! key
  = Some {| Pg.token_set :=
              if Pg.like (Pg.token_set old) (js "%" ++ token ++ js "%")
              then Pg.token_set old
              else Pg.token_set old ++ js "," ++ token;
            Pg.field_type := Pg.field_type old;
            Pg.created_at := Pg.created_at old;
            Pg.retention_until := Z.max (Pg.retention_until old) retention |}.
Proof.
  intros Hold. unfold DbIndexer.upsert.
  by rewrite Hold, lookup_insert_eq.
Qed.

(** A value within the limit of its column is stored as it is. *)
Lemma varchar_within (n : nat) (s : jsstring) :
  length (spread s) <= n -> Pg.varchar n s = Some s.
Proof.
  intros Hn. unfold Pg.varchar. cbn zeta.
  by destruct (Nat.leb_spec (length (spread s)) n); [|lia].
Qed.


Section Statement.

Context {R : Runtime}.

(** Whether the statements of one [indexFieldValue] are accepted depends on
    the keys and on the field name alone.  When every value is accepted,
    the loop upserts the stored keys with the stored field type. *)
Lemma addTokens_accepted (keys keys' : list jsstring)
    (fieldName fieldType token : jsstring) (now : Z) (t : Pg.table) :
  mapM (Pg.varchar 255) keys = Some keys' ->
  Pg.varchar 50 fieldName = Some fieldType ->
  DbIndexer.addTokens keys token fieldName now t
  = Returned
      (foldl (fun t0 key =>
                DbIndexer.upsert key token fieldType
                  (timestamp_of_date (now + DbIndexer.one_year)%Z) now t0)
             t keys').
Proof.
  intros Hkeys Hfield. revert keys' Hkeys t.
  induction keys as [|key keys IH]; intros keys' Hkeys t.
  - by injection Hkeys as <-.
  - cbn [mapM] in Hkeys. cbn [DbIndexer.addTokens].
    unfold DbIndexer.addTokenToIndex. cbn zeta.
    destruct (Pg.varchar 255 key) as [key'|]; [|done].
    destruct (mapM (Pg.varchar 255) keys) as [rest|]; [|done].
    cbn in Hkeys. injection Hkeys as <-. rewrite Hfield.
    cbn [foldl default]. by apply IH.
Qed.

(** When a value is refused, the loop fails, with an error that does not
    depend on the token, the time or the table. *)
Lemma addTokens_refused (keys : list jsstring) (fieldName : jsstring) :
  keys <> [] ->
  mapM (Pg.varchar 255) keys = None \/ Pg.varchar 50 fieldName = None ->
  exists e,
    forall token now t,
      DbIndexer.addTokens keys token fieldName now t = Thrown e.
Proof.
  induction keys as [|key keys IH]; [done|]. intros _ Hrefused.
  cbn [DbIndexer.addTokens]. unfold DbIndexer.addTokenToIndex. cbn zeta.
  cbn [mapM] in Hrefused.
  destruct (Pg.varchar 255 key) as [key'|]; [|by eexists].
  destruct (Pg.varchar 50 fieldName) as [fieldType|] eqn:Hfield;
    [|by eexists].
  destruct Hrefused as [Hkeys|?]; [|done].
  destruct keys as [|key2 keys]; [done|].
  destruct IH as [e He]; [done| |by exists e].
  left. by destruct (mapM (Pg.varchar 255) (key2 :: keys)).
Qed.


(** C4.  A reference that occurs inside a stored reference is taken for
    already present.  For a key and a field type that their columns accept,
    after [add(key, "T10", ...)] and [add(key, "T1", ...)] the posting list
    at the stored key is still ["T10"] and does not contain ["T1"]; for any
    other key or field type both calls are refused. *)
Theorem addTokenToIndex_misses_reference (key fieldType : jsstring)
    (retention1 retention2 : option Z) (now1 now2 : Z) :
  let add1 :=
    DbIndexer.addTokenToIndex key (js "T10") fieldType retention1 now1 ∅ in
  match Pg.varchar 255 key, Pg.varchar 50 fieldType with
  | Some stored, Some _ =>
      exists t1 t2 r,
        add1 = Returned t1
        /\ DbIndexer.addTokenToIndex key (js "T1") fieldType retention2 now2
             t1 = Returned t2
        /\ t2 !! stored = Some r
        /\ Pg.token_set r = js "T10"
        /\ (js "T1" ∉ DbSearch.row_tokens r)
  | _, _ =>
      exists e,
        add1 = Thrown e
        /\ forall t,
             DbIndexer.addTokenToIndex key (js "T1") fieldType retention2
               now2 t = Thrown e
  end.
Proof.
  cbn zeta. unfold DbIndexer.addTokenToIndex. cbn zeta.
  destruct (Pg.varchar 255 key) as [stored|]; [|by eexists].
  destruct (Pg.varchar 50 fieldType) as [field|]; [|by eexists].
  eexists _, _, _. split; [done|]. split; [done|]. split.
  - erewrite upsert_updated; [done|]. by apply upsert_created.
  - split; [done|]. cbn [Pg.token_set].
    replace (Pg.like (js "T10") (js "%" ++ js "T1" ++ js "%")) with true
      by (by vm_compute).
    replace (DbSearch.row_tokens _) with [js "T10"] by (by vm_compute).
    by intros [=]%list_elem_of_singleton.
Qed.

End Statement.

Section Shadowed.

(** A stored reference [big] and a reference [small] that the LIKE test
    finds inside it. *)
Variables big small : jsstring.

Hypothesis like_self : Pg.like big (js "%" ++ big ++ js "%") = true.

Hypothesis like_inside : Pg.like big (js "%" ++ small ++ js "%") = true.

Lemma add_reference_keeps (key token fieldType : jsstring)
    (retention now : Z) (t : Pg.table) :
  (forall k r, t !! k = Some r -> Pg.token_set r = big) ->
  token = big \/ (token = small /\ is_Some (t !! key)) ->
  forall k r,
    DbIndexer.upsert key token fieldType retention now t !! k = Some r ->
    Pg.token_set r = big.
Proof.
  intros Hinv Htoken k r.
  destruct (decide (key = k)) as [<-|Hne].
  - destruct (t !! key) as [old|] eqn:Hold.
    + rewrite (upsert_updated _ _ _ _ _ _ old Hold).
      intros Hr%(inj Some). subst r. cbn [Pg.token_set].
      rewrite (Hinv key old Hold).
      destruct Htoken as [->|[-> _]].
      * by rewrite like_self.
      * by rewrite like_inside.
    + rewrite (upsert_created _ _ _ _ _ _ Hold).
      intros Hr%(inj Some). subst r. cbn [Pg.token_set].
      destruct Htoken as [->|[_ [? [=]]]]. done.
  - rewrite upsert_other by done. apply Hinv.
Qed.

Lemma add_reference_present (key token fieldType : jsstring)
    (retention now : Z) (t : Pg.table) (k : jsstring) :
  k = key \/ is_Some (t !! k) ->
  is_Some (DbIndexer.upsert key token fieldType retention now t !! k).
Proof.
  intros Hk. destruct (decide (key = k)) as [<-|Hne].
  - destruct (t !! key) as [old|] eqn:Hold.
    + by rewrite (upsert_updated _ _ _ _ _ _ old Hold).
    + by rewrite (upsert_created _ _ _ _ _ _ Hold).
  - rewrite upsert_other by done. by destruct Hk as [->|].
Qed.

Lemma index_big (keys : list jsstring) (fieldType : jsstring)
    (retention now : Z) (t : Pg.table) :
  (forall k r, t !! k = Some r -> Pg.token_set r = big) ->
  let t' :=
    foldl (fun t0 key =>
             DbIndexer.upsert key big fieldType retention now t0) t keys in
  (forall k r, t' !! k = Some r -> Pg.token_set r = big)
  /\ (forall k, k ∈ keys \/ is_Some (t !! k) -> is_Some (t' !! k)).
Proof.
  revert t. induction keys as [|key keys IH]; intros t Hinv; cbn [foldl].
  - split; [done|]. by intros k [?%elem_of_nil|?].
  - destruct (IH (DbIndexer.upsert key big fieldType retention now t))
      as [IH1 IH2].
    { apply add_reference_keeps; auto. }
    split; [done|]. intros k Hk. apply IH2.
    destruct Hk as [[->|Hk]%elem_of_cons|Hk]; [| by left |].
    + right. apply add_reference_present. by left.
    + right. apply add_reference_present. by right.
Qed.

Lemma index_small (keys : list jsstring) (fieldType : jsstring)
    (retention now : Z) (t : Pg.table) :
  (forall k r, t !! k = Some r -> Pg.token_set r = big) ->
  (forall k, k ∈ keys -> is_Some (t !! k)) ->
  forall k r,
    foldl (fun t0 key =>
             DbIndexer.upsert key small fieldType retention now t0) t keys
      !! k = Some r ->
    Pg.token_set r = big.
Proof.
  revert t. induction keys as [|key keys IH]; intros t Hinv Hdom; cbn [foldl].
  - done.
  - apply IH.
    + apply add_reference_keeps; [done|]. right. split; [done|].
      apply Hdom. by left.
    + intros k Hk. apply add_reference_present. right. apply Hdom. by right.
Qed.

End Shadowed.

Section Equivalence.

Context {R : Runtime}.

Variable secret : jsstring.

Lemma generateAllIndexKeys_nonempty (field value : jsstring) (K : nat) :
  DbIndexer.generateAllIndexKeys secret field value K <> [].
Proof. done. Qed.

(** The table [indexFieldValue] leaves: the one it met when a value is
    refused, and otherwise the one the upserts of the stored keys give. *)
Lemma indexFieldValue_table (fieldName value : jsstring) :
  (exists e,
      forall token now t,
        DbIndexer.indexFieldValue secret fieldName value token now t
        = (Thrown e, t))
  \/ (exists (keys' : list jsstring) (fieldType : jsstring),
        forall token now t,
          DbIndexer.indexFieldValue secret fieldName value token now t
          = (Returned
               {| DbIndexer.indexed :=
                    length (DbIndexer.generateAllIndexKeys secret
                              (DbIndexer.getFieldAlias fieldName) value 3);
                  DbIndexer.summary_field := fieldName;
                  DbIndexer.summary_alias :=
                    DbIndexer.getFieldAlias fieldName |},
             foldl (fun t0 key =>
                      DbIndexer.upsert key token fieldType
                        (timestamp_of_date (now + DbIndexer.one_year)%Z)
                        now t0)
                   t keys')).
Proof.
  unfold DbIndexer.indexFieldValue. cbn zeta.
  set (keys := DbIndexer.generateAllIndexKeys secret
                 (DbIndexer.getFieldAlias fieldName) value 3).
  destruct (mapM (Pg.varchar 255) keys) as [keys'|] eqn:Hkeys;
    [destruct (Pg.varchar 50 fieldName) as [fieldType|] eqn:Hfield|].
  - right. exists keys', fieldType. intros token now t.
    by rewrite (addTokens_accepted keys keys' fieldName fieldType).
  - left. destruct (addTokens_refused keys fieldName) as [e He];
      [apply generateAllIndexKeys_nonempty|by right|].
    exists e. intros token now t. by rewrite He.
  - left. destruct (addTokens_refused keys fieldName) as [e He];
      [apply generateAllIndexKeys_nonempty|by left|].
    exists e. intros token now t. by rewrite He.
Qed.


(** The defect of [addTokenToIndex] seen from the queries: after indexing
    the references ["T10"] and then ["T1"] for the same field value, the
    in-memory backend answers the equality query for that value with a set
    that contains ["T1"], while on the relational backend no query at all
    returns ["T1"]. *)
Lemma references_shadowed (fieldName value : jsstring) (now1 now2 now3 : Z) :
  let redis :=
    (Redis.indexFieldValue secret fieldName value (js "T1") 3
       (Redis.indexFieldValue secret fieldName value (js "T10") 3 ∅).2).2 in
  let table :=
    (DbIndexer.indexFieldValue secret fieldName value (js "T1") now2
       (DbIndexer.indexFieldValue secret fieldName value (js "T10") now1 ∅).2).2
  in
  (exists found,
      Redis.search secret fieldName (js "eq") value 3 redis = Returned found
      /\ js "T1" ∈ found)
  /\ (forall field op q K,
        exists found,
          DbSearch.search secret field op q K now3 table = Returned found
          /\ js "T1" ∉ found).
Proof.
  cbn zeta. split.
  - apply eq_search_finds_reference.
  - intros field op q K.
    destruct (db_search_from_rows secret field op q K now3
                (DbIndexer.indexFieldValue secret fieldName value (js "T1")
                   now2
                   (DbIndexer.indexFieldValue secret fieldName value
                      (js "T10") now1 ∅).2).2)
      as (found & Hfound & Hrows).
    exists found. split; [done|]. intros Hin.
    destruct (Hrows _ Hin) as (key & r & Hr & Hx).
    assert (Hself : Pg.like (js "T10") (js "%" ++ js "T10" ++ js "%") = true)
      by (by vm_compute).
    assert (Hinside : Pg.like (js "T10") (js "%" ++ js "T1" ++ js "%") = true)
      by (by vm_compute).
    destruct (indexFieldValue_table fieldName value)
      as [[e He]|(keys' & fieldType & Hk)].
    { rewrite !He in Hr. cbn [snd] in Hr. by rewrite lookup_empty in Hr. }
    rewrite !Hk in Hr. cbn [snd] in Hr.
    assert (Hbig : Pg.token_set r = js "T10").
    { destruct (index_big (js "T10") (js "T1") Hself Hinside keys'
                  fieldType (timestamp_of_date (now1 + DbIndexer.one_year))
                  now1 ∅) as [Hinv Hdom].
      { intros k r0. by rewrite lookup_empty. }
      eapply (index_small (js "T10") (js "T1") Hself Hinside);
        [exact Hinv| |exact Hr].
      intros k Hk'. apply Hdom. by left. }
    unfold DbSearch.row_tokens in Hx. rewrite Hbig in Hx.
    vm_compute in Hx. by apply list_elem_of_singleton in Hx.
Qed.

End Equivalence.

(** ** Agreement of the two backends *)


Lemma split_on_field (d : N) (x acc s : jsstring) :
  d ∉ x -> Pg.split_on d acc (x ++ s) = Pg.split_on d (rev x ++ acc) s.
Proof.
  revert acc. induction x as [|c x IH]; intros acc Hd; [done|].
  cbn [app Pg.split_on].
  destruct (N.eqb_spec c d) as [->|_]; [exfalso; apply Hd; by left|].
  rewrite IH by (intros ?; apply Hd; by right).
  cbn [rev]. by rewrite <- app_assoc.
Qed.








Section Agreement.

Context {R : Runtime}.

Variable secret : jsstring.



End Agreement.

(** ** When the LIKE test is exact *)








Section Equivalent.

Context {R : Runtime}.

Variable secret : jsstring.


End Equivalent.

(** ** The concrete runtime is faithful on ASCII *)

Lemma fragment_decomposition_ascii (c : N) :
  (c < 128)%N -> Fragment.decomposition c = [c].
Proof.
  intros Hc. unfold Fragment.decomposition.
  repeat match goal with
         | |- context [(c =? ?n)%N] => destruct (N.eqb_spec c n); [lia|]
         end.
  done.
Qed.

Lemma fragment_compose_ascii (s : jsstring) (c : N) :
  is_ascii s -> Fragment.compose_from c s = c :: s.
Proof.
  intros Hs. revert c. induction Hs as [|d s Hd _ IH]; intros c; [done|].
  cbn [Fragment.compose_from]. unfold Fragment.primary_composite.
  destruct (N.eqb_spec d 0x30A); [lia|]. by rewrite IH.
Qed.

Lemma fragment_nfkc_ascii (s : jsstring) :
  is_ascii s -> Fragment.normalize_nfkc s = s.
Proof.
  intros Hs. unfold Fragment.normalize_nfkc.
  assert (Hd : mbind Fragment.decomposition s = s).
  { induction Hs as [|c s Hc _ IH]; [done|].
    cbn [mbind list_bind]. fold (mbind Fragment.decomposition s).
    by rewrite IH, fragment_decomposition_ascii. }
  rewrite Hd. destruct Hs as [|c s Hc Hs]; [done|].
  by apply fragment_compose_ascii.
Qed.

Lemma fragment_lower_ascii (s : jsstring) :
  is_ascii s -> Fragment.lower s = map ascii_lower s.
Proof.
  intros Hs. unfold Fragment.lower.
  induction Hs as [|c s Hc _ IH]; [done|].
  cbn [mbind list_bind map]. fold (mbind Fragment.lower_char s).
  rewrite IH. unfold Fragment.lower_char, ascii_lower.
  destruct ((0x41 <=? c) && (c <=? 0x5A))%N; [done|].
  repeat match goal with
         | |- context [(c =? ?n)%N] => destruct (N.eqb_spec c n); [lia|]
         end.
  done.
Qed.

Lemma fragment_ascii_faithful : AsciiFaithful fragment_runtime.
Proof.
  split; [apply fragment_nfkc_ascii | apply fragment_lower_ascii].
Qed.

(** ** The concrete runtime leaves white space in place *)

Lemma fragment_decomposition_whitespace (c : N) :
  is_js_whitespace c = true -> Fragment.decomposition c = [c].
Proof.
  intros Hc. unfold Fragment.decomposition.
  repeat match goal with
         | |- context [(c =? ?n)%N] =>
             destruct (N.eqb_spec c n); [subst c; by vm_compute in Hc|]
         end.
  done.
Qed.

Lemma fragment_lower_whitespace (c : N) :
  is_js_whitespace c = true -> Fragment.lower_char c = [c].
Proof.
  intros Hc. unfold Fragment.lower_char.
  destruct ((0x41 <=? c) && (c <=? 0x5A))%N eqn:Hrange.
  { apply andb_true_iff in Hrange as [H1%N.leb_le H2%N.leb_le].
    exfalso. unfold is_js_whitespace in Hc.
    repeat match type of Hc with
           | context [(c =? ?n)%N] => destruct (N.eqb_spec c n); [lia|]
           end.
    destruct (N.leb_spec 0x2000 c); [lia|]. done. }
  repeat match goal with
         | |- context [(c =? ?n)%N] =>
             destruct (N.eqb_spec c n); [subst c; by vm_compute in Hc|]
         end.
  done.
Qed.

Lemma fragment_no_composite_after_whitespace (w c : N) :
  is_js_whitespace w = true -> Fragment.primary_composite w c = None.
Proof.
  intros Hw. unfold Fragment.primary_composite.
  destruct (c =? 0x30A)%N; [|done].
  repeat match goal with
         | |- context [(w =? ?n)%N] =>
             destruct (N.eqb_spec w n); [subst w; by vm_compute in Hw|]
         end.
  done.
Qed.

Lemma fragment_no_composite_with_whitespace (c w : N) :
  is_js_whitespace w = true -> Fragment.primary_composite c w = None.
Proof.
  intros Hw. unfold Fragment.primary_composite.
  by destruct (N.eqb_spec w 0x30A); [subst w; by vm_compute in Hw|].
Qed.

Lemma fragment_bind_whitespace (f : N -> jsstring) (ws : jsstring) :
  (forall c, is_js_whitespace c = true -> f c = [c]) ->
  Forall (fun c => is_js_whitespace c = true) ws -> mbind f ws = ws.
Proof.
  intros Hf. induction 1 as [|c ws Hc _ IH]; [done|].
  rewrite bind_cons, IH, Hf by done. done.
Qed.

Lemma fragment_compose_from_end (rest ws : jsstring) (c : N) :
  Forall (fun c => is_js_whitespace c = true) ws ->
  Fragment.compose_from c (rest ++ ws) = Fragment.compose_from c rest ++ ws.
Proof.
  intros Hws. revert c. induction rest as [|d rest IH]; intros c.
  - cbn [app Fragment.compose_from]. revert c.
    induction Hws as [|w ws Hw _ IHws]; intros c; [done|].
    cbn [Fragment.compose_from].
    rewrite fragment_no_composite_with_whitespace by done.
    by rewrite IHws.
  - cbn [app Fragment.compose_from].
    destruct (Fragment.primary_composite c d); by rewrite IH.
Qed.

Lemma fragment_compose_start (ws s : jsstring) :
  Forall (fun c => is_js_whitespace c = true) ws ->
  Fragment.compose (ws ++ s) = ws ++ Fragment.compose s.
Proof.
  induction 1 as [|w ws Hw _ IH]; [done|].
  cbn [app Fragment.compose]. rewrite <- IH.
  destruct (ws ++ s) as [|d r]; [done|].
  cbn [Fragment.compose_from Fragment.compose].
  by rewrite fragment_no_composite_after_whitespace.
Qed.

Lemma fragment_compose_end (s ws : jsstring) :
  Forall (fun c => is_js_whitespace c = true) ws ->
  Fragment.compose (s ++ ws) = Fragment.compose s ++ ws.
Proof.
  intros Hws. destruct s as [|c rest].
  - pose proof (fragment_compose_start ws [] Hws) as Hstart.
    cbn [Fragment.compose] in Hstart. by rewrite !app_nil_r in Hstart.
  - cbn [app Fragment.compose]. by apply fragment_compose_from_end.
Qed.

Lemma fragment_padding_faithful : PaddingFaithful fragment_runtime.
Proof.
  split.
  - intros ws1 s ws2 Hws1 Hws2. exists ws1, ws2.
    split; [done|]. split; [done|].
    cbn [nfkc fragment_runtime]. unfold Fragment.normalize_nfkc.
    rewrite !bind_app.
    rewrite (fragment_bind_whitespace Fragment.decomposition ws1),
      (fragment_bind_whitespace Fragment.decomposition ws2)
      by (done || apply fragment_decomposition_whitespace).
    rewrite fragment_compose_start by done.
    rewrite fragment_compose_end by done. done.
  - intros ws1 s ws2 Hws1 Hws2.
    cbn [toLowerCase fragment_runtime]. unfold Fragment.lower.
    rewrite !bind_app.
    rewrite (fragment_bind_whitespace Fragment.lower_char ws1),
      (fragment_bind_whitespace Fragment.lower_char ws2)
      by (done || apply fragment_lower_whitespace).
    done.
Qed.

(** ** Worked examples on the concrete runtime *)

Section Examples.

#[local] Existing Instance fragment_runtime.

(** C8 at the value [" Bob "] of field [fn]: eight keys. *)
Lemma fragment_enumeration_example :
  Redis.normalize (js " Bob ") <> []
  /\ Redis.generateAllIndexKeys example_secret (js "fn") (js " Bob ") 3
     = map (derive example_secret (js "fn")) (spec_fragments (js "bob") 3)
  /\ Z.of_nat
       (length
          (Redis.generateAllIndexKeys example_secret (js "fn") (js " Bob ") 3))
     = 8%Z.
Proof.
  assert (Hv : Redis.normalize (js " Bob ") <> []) by (by vm_compute).
  split; [exact Hv|].
  destruct (fragment_enumeration example_secret (js "fn") (js " Bob ") 3 Hv)
    as (Hkeys & _ & _ & _ & _ & _ & Hlen).
  split; [exact Hkeys | exact Hlen].
Defined.

(** C2 at the value ["Bob"] and the query [endsWith "OB "]. *)
Lemma coverage_example :
  query_matches 3 (Redis.normalize (js "Bob")) (js "endsWith")
    (Redis.normalize (js "OB "))
  /\ exists found,
       Redis.search example_secret (js "FIRST_NAME") (js "endsWith")
         (js "OB ") 3
         (Redis.indexFieldValue example_secret (js "FIRST_NAME") (js "Bob")
            (js "T1") 3 ∅).2 = Returned found
       /\ js "T1" ∈ found.
Proof.
  assert (Hm : query_matches 3 (Redis.normalize (js "Bob")) (js "endsWith")
                 (Redis.normalize (js "OB "))).
  { apply matches_endsWith; [by vm_compute|].
    exists [js "b"]. by vm_compute. }
  split; [exact Hm|].
  exact (coverage example_secret (js "FIRST_NAME") (js "Bob") (js "T1")
           (js "endsWith") (js "OB ") 3 ∅ Hm).
Defined.

(** C2 as stated fails.  (1) ["ab "] is a substring of three code units of
    the normalized value ["ab cd"], but the query is trimmed to two code
    units and [search] returns the empty set.  (2) The image U+0077 U+030A of
    the value U+0057 U+030A is not its own image: used as an equality query
    it is normalized once more, to U+1E98, and the key of the value is
    missed. *)
Lemma coverage_raw_query_counterexample :
  (query_matches 3 (Redis.normalize (js "ab cd")) (js "contains") (js "ab ")
   /\ Redis.search example_secret (js "FIRST_NAME") (js "contains")
        (js "ab ") 3
        (Redis.indexFieldValue example_secret (js "FIRST_NAME") (js "ab cd")
           (js "T1") 3 ∅).2
      = Returned ∅)
  /\ (query_matches 3 (Redis.normalize [0x57; 0x30A]%N) (js "eq")
        [0x77; 0x30A]%N
      /\ Redis.search example_secret (js "FIRST_NAME") (js "eq")
           [0x77; 0x30A]%N 3
           (Redis.indexFieldValue example_secret (js "FIRST_NAME")
              [0x57; 0x30A]%N (js "T1") 3 ∅).2
         = Returned ∅).
Proof.
  split; split.
  - apply matches_contains; [by vm_compute|].
    exists [], (js "cd"). by vm_compute.
  - by vm_compute.
  - change [0x77; 0x30A]%N with (Redis.normalize [0x57; 0x30A]%N).
    apply matches_eq.
  - by vm_compute.
Qed.



(** C9 as stated fails on U+0057 U+030A (W with a combining ring above, the
    uppercase form of U+1E98): its image is U+0077 U+030A, whose image is
    U+1E98; and the two case variants have different images. *)
Lemma normalize_not_idempotent :
  let s := [0x57; 0x30A]%N in
  Redis.normalize s = [0x77; 0x30A]%N
  /\ Redis.normalize (Redis.normalize s) = [0x1E98]%N
  /\ Redis.normalize (Redis.normalize s) <> Redis.normalize s
  /\ toUpperCase [0x1E98]%N = s
  /\ Redis.normalize [0x1E98]%N <> Redis.normalize s.
Proof. by vm_compute. Qed.

(** C9, amended, on ASCII strings and on U+1E98 between a space and a
    no-break space. *)
Lemma normalization_example :
  is_ascii (js "  Alice SMITH ")
  /\ Redis.normalize (Redis.normalize (js "  Alice SMITH "))
     = Redis.normalize (js "  Alice SMITH ")
  /\ (map ascii_lower (js "Alice") = map ascii_lower (js "aLICE")
      /\ Redis.normalize (js "Alice") = Redis.normalize (js "aLICE"))
  /\ (Redis.normalize ([0x20%N] ++ [0x1E98%N] ++ [0xA0%N])
      = Redis.normalize [0x1E98%N]
      /\ Redis.normalize [0x1E98%N] = [0x1E98%N])
  /\ Redis.keysFor example_secret (js "fn") (js "eq") (js "Alice") 3
     = Redis.keysFor example_secret (js "fn") (js "eq") (js "aLICE") 3.
Proof.
  assert (Hascii : forall s, Forall (fun c => (c <? 128)%N = true) s ->
                             is_ascii s).
  { intros s Hs. eapply Forall_impl; [exact Hs|].
    intros c Hc. by apply N.ltb_lt. }
  assert (H1 : is_ascii (js "  Alice SMITH "))
    by (apply Hascii; by repeat constructor).
  assert (H2 : is_ascii (js "Alice")) by (apply Hascii; by repeat constructor).
  assert (H3 : is_ascii (js "aLICE")) by (apply Hascii; by repeat constructor).
  assert (H4 : map ascii_lower (js "Alice") = map ascii_lower (js "aLICE"))
    by (by vm_compute).
  assert (H5 : Forall (fun c => is_js_whitespace c = true) [0x20%N])
    by (by repeat constructor).
  assert (H6 : Forall (fun c => is_js_whitespace c = true) [0xA0%N])
    by (by repeat constructor).
  destruct (@normalization fragment_runtime example_secret
              fragment_ascii_faithful fragment_padding_faithful)
    as (_ & _ & Hidem & _ & _ & Hcase & _ & Hpad & Hkeys).
  split; [exact H1|]. split; [exact (Hidem _ H1)|].
  split; [exact (conj H4 (Hcase _ _ H2 H3 H4))|].
  split; [exact (conj (Hpad _ [0x1E98%N] _ H5 H6) eq_refl)|].
  exact (proj2 (Hkeys _ _ (js "fn") (js "eq") 3 (Hcase _ _ H2 H3 H4))).
Defined.

(** C3 as stated fails: [executeComplexQuery] returns its one matching
    reference, a set of cardinality 1 below the threshold 5, as it is; its
    result carries no flag. *)
Lemma complex_query_not_gated :
  let t :=
    (DbIndexer.indexFieldValue example_secret (js "FIRST_NAME") (js "Bob")
       (js "T1") 0 ∅).2 in
  let found : gset jsstring := {[js "T1"]} in
  DbSearch.executeComplexQuery example_secret
    [{| DbSearch.cond_field := js "FIRST_NAME";
        DbSearch.cond_operation := js "equals";
        DbSearch.cond_value := js "bob" |}]
    (js "AND") 1 t = Returned found
  /\ (0 < Z.of_nat (size found)
      < DbSearch.minResultSize DbSearch.default_config)%Z
  /\ found <> ∅.
Proof. by vm_compute. Qed.

(** C3, amended: the same query through [performSearch] is suppressed. *)
Lemma k_anonymity_gate_example :
  let t :=
    (DbIndexer.indexFieldValue example_secret (js "FIRST_NAME") (js "Bob")
       (js "T1") 0 ∅).2 in
  js "bob" <> []
  /\ (DbSearch.minQueryLength DbSearch.default_config
      <= Z.of_nat (length (js "bob")))%Z
  /\ exists resp,
       DbSearch.performSearch example_secret DbSearch.default_config
         (js "bob") (js "FIRST_NAME") (js "equals") 1 t = Returned resp
       /\ DbSearch.resultCount resp = 1
       /\ DbSearch.tokens resp = ∅
       /\ DbSearch.kAnonymityApplied resp = true.
Proof.
  cbn zeta.
  assert (Hq : js "bob" <> []) by (by vm_compute).
  assert (Hl : (DbSearch.minQueryLength DbSearch.default_config
                <= Z.of_nat (length (js "bob")))%Z) by (by vm_compute).
  split; [exact Hq|]. split; [exact Hl|].
  destruct (k_anonymity_gate example_secret DbSearch.default_config (js "bob")
              (js "FIRST_NAME") (js "equals") 1
              (DbIndexer.indexFieldValue example_secret (js "FIRST_NAME")
                 (js "Bob") (js "T1") 0 ∅).2 Hq Hl)
    as (found & resp & Hfound & Hresp & Hsmall & _ & _).
  exists resp. split; [exact Hresp|]. split.
  - vm_compute in Hresp. injection Hresp as <-. reflexivity.
  - apply Hsmall. vm_compute in Hfound. injection Hfound as <-.
    by vm_compute.
Defined.

(** C6 one millisecond after the retention date of the entry indexed at
    time 0. *)
Lemma retention_example :
  let t :=
    (DbIndexer.indexFieldValue example_secret (js "FIRST_NAME") (js "Bob")
       (js "T1") 0 ∅).2 in
  let key := DbIndexer.indexKey example_secret (js "fn") (js "eq") (js "bob") in
  let r := {| Pg.token_set := js "T1"; Pg.field_type := js "FIRST_NAME";
              Pg.created_at := 0; Pg.retention_until := DbIndexer.one_year |} in
  let now := (DbIndexer.one_year + 1)%Z in
  t !! key = Some r
  /\ (Pg.retention_until r < now)%Z
  /\ DbSearch.search example_secret (js "FIRST_NAME") (js "eq") (js "bob") 3
       now t
     = DbSearch.search example_secret (js "FIRST_NAME") (js "eq") (js "bob") 3
         now (delete key t)
  /\ DbSearch.search example_secret (js "FIRST_NAME") (js "eq") (js "bob") 3
       DbIndexer.one_year t = Returned ∅
  /\ DbSearch.search example_secret (js "FIRST_NAME") (js "eq") (js "bob") 3
       (DbIndexer.one_year - 1) t = Returned {[js "T1"]}.
Proof.
  cbn zeta.
  set (t := (DbIndexer.indexFieldValue example_secret (js "FIRST_NAME")
               (js "Bob") (js "T1") 0 ∅).2).
  set (key := DbIndexer.indexKey example_secret (js "fn") (js "eq") (js "bob")).
  set (r := {| Pg.token_set := js "T1"; Pg.field_type := js "FIRST_NAME";
               Pg.created_at := 0; Pg.retention_until := DbIndexer.one_year |}).
  assert (Hr : t !! key = Some r) by (by vm_compute).
  assert (Hexp : (Pg.retention_until r < DbIndexer.one_year + 1)%Z)
    by (by vm_compute).
  split; [exact Hr|]. split; [exact Hexp|].
  destruct (retention example_secret key r (DbIndexer.one_year + 1) t Hr Hexp)
    as (_ & Hsearch & _ & _).
  split; [apply Hsearch|]. split; by vm_compute.
Defined.



(** C4 at a key and a field type that their columns accept: both calls
    return, and the row lists ["T10"] alone. *)
Lemma shadowed_reference_example :
  match DbIndexer.addTokenToIndex (js "idx:fn:eq:k") (js "T10")
          (js "FIRST_NAME") None 0 ∅ with
  | Returned t1 =>
      match DbIndexer.addTokenToIndex (js "idx:fn:eq:k") (js "T1")
              (js "FIRST_NAME") None 5 t1 with
      | Returned t2 =>
          t2 !! js "idx:fn:eq:k"
          = Some {| Pg.token_set := js "T10";
                    Pg.field_type := js "FIRST_NAME";
                    Pg.created_at := 0;
                    Pg.retention_until := 5 + DbIndexer.one_year |}
      | Thrown _ => False
      end
  | Thrown _ => False
  end.
Proof. by vm_compute. Qed.

(** The wildcard [_] of the LIKE test takes one character, a surrogate
    pair included: with the reference T, U+1F600, 1 in the posting list,
    the reference ["T_1"] is taken for present and never stored by the
    relational backend. *)
Lemma like_wildcard_takes_character :
  let smiley := [0x54; 0xD83D; 0xDE00; 0x31]%N in
  let ops :=
    [ {| ix_field := js "FIRST_NAME"; ix_value := js "Bob";
         ix_token := smiley; ix_time := 0 |};
      {| ix_field := js "FIRST_NAME"; ix_value := js "Bob";
         ix_token := js "T_1"; ix_time := 0 |} ] in
  Pg.like smiley (js "%" ++ js "T_1" ++ js "%") = true
  /\ Redis.search example_secret (js "FIRST_NAME") (js "eq") (js "Bob") 3
       (redis_after example_secret ops) = Returned {[smiley; js "T_1"]}
  /\ DbSearch.search example_secret (js "FIRST_NAME") (js "eq") (js "Bob") 3
       1 (table_after example_secret ops) = Returned {[smiley]}.
Proof. by vm_compute. Qed.

(** C6 as stated fails on the in-memory backend.  The entry created by
    [indexFieldValue] at time 0 expires after one year on the relational
    backend; the in-memory backend records no expiry and its [search] reads
    no clock: at every time it returns the reference, not the empty set it
    returns once the entry is absent. *)
Lemma in_memory_entry_never_expires :
  let st :=
    (Redis.indexFieldValue example_secret (js "LAST_NAME") (js "Kumar")
       (js "T4") 3 ∅).2 in
  let t :=
    (DbIndexer.indexFieldValue example_secret (js "LAST_NAME") (js "Kumar")
       (js "T4") 0 ∅).2 in
  let key := Redis.indexKey example_secret (js "ln") (js "eq") (js "kumar") in
  Pg.retention_until <$> t !! key = Some DbIndexer.one_year
  /\ Redis.sMembers key st = {[js "T4"]}
  /\ Redis.search example_secret (js "LAST_NAME") (js "eq") (js "Kumar") 3 st
     = Returned {[js "T4"]}
  /\ Redis.search example_secret (js "LAST_NAME") (js "eq") (js "Kumar") 3
       (Redis.del key st) = Returned ∅.
Proof. by vm_compute. Qed.

End Examples.

(** The retention date is written in the local time of the indexing
    process.  With that process an hour behind the database session, the
    entry indexed at time 0 is held with a date an hour short of the year,
    and a query a second before the year is over finds it on the in-memory
    backend only. *)
Lemma backends_differ_across_time_zones :
  let hour := (60 * 60 * 1000)%Z in
  let ops :=
    [ {| ix_field := js "FIRST_NAME"; ix_value := js "Bob";
         ix_token := js "T1"; ix_time := 0 |} ] in
  let now := (DbIndexer.one_year - 1000)%Z in
  (now < 0 + DbIndexer.one_year)%Z
  /\ Pg.retention_until
       <$> table_after (R := zoned_runtime (- hour)) example_secret ops
             !! DbIndexer.indexKey (R := zoned_runtime (- hour))
                  example_secret (js "fn") (js "eq") (js "bob")
     = Some (DbIndexer.one_year - hour)%Z
  /\ Redis.search (R := zoned_runtime (- hour)) example_secret
       (js "FIRST_NAME") (js "eq") (js "Bob") 3
       (redis_after (R := zoned_runtime (- hour)) example_secret ops)
     = Returned {[js "T1"]}
  /\ DbSearch.search (R := zoned_runtime (- hour)) example_secret
       (js "FIRST_NAME") (js "eq") (js "Bob") 3 now
       (table_after (R := zoned_runtime (- hour)) example_secret ops)
     = Returned ∅.
Proof. by vm_compute. Qed.

(** ** What the in-memory search returns *)

Lemma elem_of_foldl_intersection (f : jsstring -> gset jsstring)
    (acc : gset jsstring) (keys : list jsstring) (x : jsstring) :
  x ∈ foldl (fun a k => a ∩ f k) acc keys
  <-> x ∈ acc /\ forall k, k ∈ keys -> x ∈ f k.
Proof.
  revert acc. induction keys as [|k keys IH]; intros acc; cbn [foldl].
  - split; [|by intros []]. intros Hx. split; [done|].
    by intros k ?%elem_of_nil.
  - rewrite IH, elem_of_intersection. split.
    + intros [[Ha Hk] Hrest]. split; [done|].
      intros k' [->|Hk']%elem_of_cons; auto.
    + intros [Ha Hall]. split; [split|]; [done| |].
      * apply Hall. by left.
      * intros k' Hk'. apply Hall. by right.
Qed.

Lemma elem_of_sInter_iff (keys : list jsstring) (x : jsstring)
    (st : Redis.db) :
  keys <> [] ->
  x ∈ Redis.sInter keys st
  <-> forall key, key ∈ keys -> x ∈ Redis.sMembers key st.
Proof.
  destruct keys as [|key rest]; [done|]. intros _. cbn [Redis.sInter].
  rewrite (elem_of_foldl_intersection (fun k => Redis.sMembers k st)).
  split.
  - intros [Hkey Hrest] k [->|Hk]%elem_of_cons; auto.
  - intros Hall. split; [apply Hall; by left|].
    intros k Hk. apply Hall. by right.
Qed.

Section Answers.

Context {R : Runtime}.

Variable secret : jsstring.

(** The answer of [search] is the set of the members common to all its
    keys; without keys it is empty. *)
Lemma elem_of_search (fieldName op q : jsstring) (K : nat) (st : Redis.db) :
  exists found,
    Redis.search secret fieldName op q K st = Returned found
    /\ forall x,
         x ∈ found
         <-> Redis.keysFor secret (Redis.getFieldAlias fieldName) op q K <> []
             /\ forall key,
                  key ∈ Redis.keysFor secret (Redis.getFieldAlias fieldName)
                          op q K ->
                  x ∈ Redis.sMembers key st.
Proof.
  unfold Redis.search, Redis.searchCommand.
  destruct (Redis.keysFor secret (Redis.getFieldAlias fieldName) op q K)
    as [|k1 [|k2 ks]] eqn:Hkeys.
  - exists ∅. split; [done|]. intros x. split; [by intros ?%elem_of_empty|].
    by intros [? _].
  - eexists. split; [done|]. intros x. cbn [Redis.run]. split.
    + intros Hx. split; [done|]. by intros key ->%list_elem_of_singleton.
    + intros [_ Hall]. apply Hall. by left.
  - eexists. split; [done|]. intros x. cbn [Redis.run].
    rewrite elem_of_sInter_iff by done. split; [by intros ?|by intros [_ ?]].
Qed.

Lemma keysFor_fragments (field op q : jsstring) (K : nat) :
  Redis.keysFor secret field op q K
  = map (derive secret field) (query_fragments op (Redis.normalize q) K).
Proof.
  unfold Redis.keysFor, query_fragments.
  repeat case_decide; try done.
  destruct (length (Redis.normalize q) <? K); [done|].
  unfold Redis.grams. rewrite !map_map. apply map_ext. intros i.
  unfold derive. cbn [fst snd tag_string]. by rewrite slice_window.
Qed.

Lemma sMembers_indexFieldValue (fieldName value token key : jsstring)
    (k : nat) (st : Redis.db) :
  Redis.sMembers key (Redis.indexFieldValue secret fieldName value token k st).2
  = if decide (key ∈ Redis.generateAllIndexKeys secret
                       (Redis.getFieldAlias fieldName) value k)
    then {[token]} ∪ Redis.sMembers key st
    else Redis.sMembers key st.
Proof.
  unfold Redis.indexFieldValue. cbn [snd]. unfold Redis.sMembers at 1.
  rewrite lookup_pipeline. by case_decide.
Qed.

(** The members of a key after a sequence of [indexFieldValue] calls. *)
Lemma elem_of_sMembers_after (ops : list indexing) (st : Redis.db)
    (key x : jsstring) :
  x ∈ Redis.sMembers key
        (foldl (fun st o =>
                  (Redis.indexFieldValue secret (ix_field o) (ix_value o)
                     (ix_token o) Redis.this_k st).2) st ops)
  <-> x ∈ Redis.sMembers key st
      \/ exists o, o ∈ ops /\ ix_token o = x
           /\ key ∈ Redis.generateAllIndexKeys secret
                      (Redis.getFieldAlias (ix_field o)) (ix_value o)
                      Redis.this_k.
Proof.
  revert st. induction ops as [|o ops IH]; intros st; cbn [foldl].
  - split; [by left|]. intros [?|(o & ?%elem_of_nil & _)]; done.
  - rewrite IH, sMembers_indexFieldValue. split.
    + intros [Hx|(o' & Ho' & Ht & Hk)].
      * case_decide as Hin.
        -- apply elem_of_union in Hx as [->%elem_of_singleton|Hx]; [|by left].
           right. exists o. split; [by left|]. done.
        -- by left.
      * right. exists o'. split; [by right|]. done.
    + intros [Hx|(o' & [->|Ho']%elem_of_cons & Ht & Hk)].
      * left. case_decide; [apply elem_of_union; by right|done].
      * left. rewrite decide_True by done. apply elem_of_union. left.
        by apply elem_of_singleton.
      * right. by exists o'.
Qed.

Lemma elem_of_sMembers_redis_after (ops : list indexing) (key x : jsstring) :
  x ∈ Redis.sMembers key (redis_after secret ops)
  <-> exists o, o ∈ ops /\ ix_token o = x
        /\ key ∈ Redis.generateAllIndexKeys secret
                   (Redis.getFieldAlias (ix_field o)) (ix_value o)
                   Redis.this_k.
Proof.
  unfold redis_after. rewrite elem_of_sMembers_after.
  unfold Redis.sMembers at 1. rewrite lookup_empty. cbn [default].
  split; [|by right]. by intros [?%elem_of_empty|?].
Qed.

(** The answer of [search] after a sequence of indexing calls, fragment by
    fragment. *)
Lemma search_by_fragments (ops : list indexing) (fieldName op q : jsstring)
    (K : nat) :
  collision_free secret ops fieldName op q K ->
  exists found,
    Redis.search secret fieldName op q K (redis_after secret ops)
      = Returned found
    /\ forall x,
         x ∈ found
         <-> query_fragments op (Redis.normalize q) K <> []
             /\ forall tf,
                  In tf (query_fragments op (Redis.normalize q) K) ->
                  exists o,
                    o ∈ ops /\ ix_token o = x
                    /\ Redis.getFieldAlias (ix_field o)
                       = Redis.getFieldAlias fieldName
                    /\ In tf (spec_fragments (Redis.normalize (ix_value o))
                                Redis.this_k).
Proof.
  intros Hfree.
  destruct (elem_of_search fieldName op q K (redis_after secret ops))
    as (found & Hfound & Hx).
  exists found. split; [done|]. intros x. rewrite Hx, keysFor_fragments.
  clear Hx Hfound. split.
  - intros [Hne Hall]. split.
    { intros Hnil. apply Hne. by rewrite Hnil. }
    intros tf Htf.
    destruct (proj1 (elem_of_sMembers_redis_after ops _ x)
                (Hall (derive secret (Redis.getFieldAlias fieldName) tf)
                   ltac:(apply list_elem_of_In, in_map; exact Htf)))
      as (o & Ho & Ht & Hk).
    rewrite generateAllIndexKeys_fragments in Hk.
    apply list_elem_of_In, in_map_iff in Hk as (tf' & Heq & Htf').
    destruct (Hfree o tf tf' Ho Htf Htf' (eq_sym Heq)) as [Halias ->].
    by exists o.
  - intros [Hne Hall]. split.
    { intros Hnil. apply Hne. by destruct (query_fragments _ _ _). }
    intros key (tf & <- & Htf)%list_elem_of_In%in_map_iff.
    destruct (Hall tf Htf) as (o & Ho & Ht & Halias & Hin).
    apply elem_of_sMembers_redis_after. exists o. split; [done|].
    split; [done|]. rewrite generateAllIndexKeys_fragments, Halias.
    apply list_elem_of_In, in_map. exact Hin.
Qed.

End Answers.

Section Exact.

Context {R : Runtime}.

Variable secret : jsstring.

(** X1. After any sequence of [indexFieldValue] calls on an empty store,
    and when no key looked up collides with the key of another fragment or
    field, the in-memory [search] for [eq], [startsWith] or [endsWith]
    returns exactly the tokens indexed under the same field alias whose
    normalized value is the normalized query, starts with it or ends with
    it (the code-point reversal of the query is a prefix of that of the
    value); the empty query matches nothing under the last two
    operators. *)
Theorem single_key_search_exact (ops : list indexing)
    (fieldName op q : jsstring) (K : nat) :
  op ∈ [js "eq"; js "startsWith"; js "endsWith"] ->
  collision_free secret ops fieldName op q K ->
  exists found,
    Redis.search secret fieldName op q K (redis_after secret ops)
      = Returned found
    /\ forall x,
         x ∈ found
         <-> exists o,
               o ∈ ops /\ ix_token o = x
               /\ Redis.getFieldAlias (ix_field o)
                  = Redis.getFieldAlias fieldName
               /\ let nv := Redis.normalize (ix_value o) in
                  let nq := Redis.normalize q in
                  (op = js "eq" /\ nq = nv)
                  \/ (op = js "startsWith" /\ nq <> [] /\ nq `prefix_of` nv)
                  \/ (op = js "endsWith" /\ nq <> []
                      /\ reverse_string nq `prefix_of` reverse_string nv).
Proof.
  intros Hop Hfree.
  destruct (search_by_fragments secret ops fieldName op q K Hfree)
    as (found & Hfound & Hx).
  exists found. split; [done|]. intros x. rewrite Hx. clear Hx Hfound Hfree.
  assert (Hrev : forall s : jsstring, reverse_string s <> [] <-> s <> []).
  { intros s. split; intros Hs Hnil; apply Hs.
    - by rewrite Hnil.
    - apply (f_equal length) in Hnil. rewrite length_reverse_string in Hnil.
      by destruct s. }
  unfold query_fragments.
  apply elem_of_cons in Hop as [->|Hop];
    [|apply elem_of_cons in Hop as [->|Hop];
      [|apply list_elem_of_singleton in Hop as ->]].
  - rewrite decide_True by done. split.
    + intros [_ Hall]. destruct (Hall _ (or_introl eq_refl))
        as (o & Ho & Ht & Ha & Hin).
      exists o. do 3 (split; [done|]). left. split; [done|].
      by apply (In_spec_fragments _ _ _ TagEq) in Hin.
    + intros (o & Ho & Ht & Ha & [[_ Hm]|[[[=] _]|[[=] _]]]).
      split; [done|]. intros tf [<-|[]]. exists o. do 3 (split; [done|]).
      by apply (In_spec_fragments _ _ _ TagEq).
  - rewrite decide_False, decide_True by done. split.
    + intros [_ Hall]. destruct (Hall _ (or_introl eq_refl))
        as (o & Ho & Ht & Ha & Hin).
      exists o. do 3 (split; [done|]). right. left. split; [done|].
      by apply (In_spec_fragments _ _ _ TagPre) in Hin.
    + intros (o & Ho & Ht & Ha & [[[=] _]|[[_ Hm]|[[=] _]]]).
      split; [done|]. intros tf [<-|[]]. exists o. do 3 (split; [done|]).
      by apply (In_spec_fragments _ _ _ TagPre).
  - rewrite !decide_False, decide_True by done. split.
    + intros [_ Hall]. destruct (Hall _ (or_introl eq_refl))
        as (o & Ho & Ht & Ha & Hin).
      exists o. do 3 (split; [done|]). right. right. split; [done|].
      apply (In_spec_fragments _ _ _ TagSuf) in Hin as [Hne Hpre].
      split; [by apply Hrev|done].
    + intros (o & Ho & Ht & Ha & [[[=] _]|[[[=] _]|[_ [Hne Hpre]]]]).
      split; [done|]. intros tf [<-|[]]. exists o. do 3 (split; [done|]).
      apply (In_spec_fragments _ _ _ TagSuf). split; [by apply Hrev|done].
Qed.

(** X2. Under the same assumptions, the in-memory [search] with any other
    operator returns exactly the tokens that, for every window of [K] units
    of the normalized query, were indexed under the same field alias with a
    value that contains the window; the windows may come from different
    values of the token, and nothing is returned when [K] is not the gram
    size of the indexer or the query has fewer than [K] units. *)
Theorem contains_search_exact (ops : list indexing)
    (fieldName op q : jsstring) (K : nat) :
  op ∉ [js "eq"; js "startsWith"; js "endsWith"] ->
  collision_free secret ops fieldName op q K ->
  exists found,
    Redis.search secret fieldName op q K (redis_after secret ops)
      = Returned found
    /\ forall x,
         x ∈ found
         <-> K = Redis.this_k
             /\ K <= length (Redis.normalize q)
             /\ forall i,
                  i + K <= length (Redis.normalize q) ->
                  exists o,
                    o ∈ ops /\ ix_token o = x
                    /\ Redis.getFieldAlias (ix_field o)
                       = Redis.getFieldAlias fieldName
                    /\ substring_of (take K (drop i (Redis.normalize q)))
                         (Redis.normalize (ix_value o)).
Proof.
  intros Hop Hfree.
  destruct (search_by_fragments secret ops fieldName op q K Hfree)
    as (found & Hfound & Hx).
  exists found. split; [done|]. intros x. rewrite Hx. clear Hx Hfound Hfree.
  set (nq := Redis.normalize q). unfold query_fragments.
  rewrite !decide_False
    by (intros ->; apply Hop; repeat constructor).
  destruct (Nat.ltb_spec (length nq) K) as [Hlt|Hle].
  - split; [by intros [? _]|]. intros (_ & ? & _). lia.
  - split.
    + intros [Hne Hall].
      assert (HK : K = Redis.this_k).
      { destruct (Hall (TagGram K, take K (drop 0 nq)))
          as (o & _ & _ & _ & Hin).
        { apply in_map_iff. exists 0. split; [done|]. apply in_seq. lia. }
        by apply (In_spec_fragments _ _ _ (TagGram K)) in Hin as [? _]. }
      split; [done|]. split; [done|]. intros i Hi.
      destruct (Hall (TagGram K, take K (drop i nq)))
        as (o & Ho & Ht & Ha & Hin).
      { apply in_map_iff. exists i. split; [done|]. apply in_seq. lia. }
      exists o. do 3 (split; [done|]).
      by apply (In_spec_fragments _ _ _ (TagGram K)) in Hin as (_ & _ & ?).
    + intros (HK & _ & Hall). split.
      { intros Hnil%(f_equal length).
        rewrite length_map, length_seq in Hnil. simpl in Hnil. lia. }
      intros tf (i & <- & Hi%in_seq)%in_map_iff.
      destruct (Hall i ltac:(lia)) as (o & Ho & Ht & Ha & Hsub).
      exists o. do 3 (split; [done|]).
      apply (In_spec_fragments _ _ _ (TagGram K)).
      split; [done|]. split; [|done].
      rewrite length_take, length_drop. lia.
Qed.

End Exact.

Section Checking.

Context {R : Runtime}.

Variable secret : jsstring.

(** [collision_free] as a finite check. *)
Lemma collision_free_check (ops : list indexing) (fieldName op q : jsstring)
    (K : nat) :
  Forall
    (fun o =>
       Forall
         (fun tf =>
            Forall
              (fun tf' =>
                 derive secret (Redis.getFieldAlias fieldName) tf
                   = derive secret (Redis.getFieldAlias (ix_field o)) tf' ->
                 Redis.getFieldAlias fieldName
                   = Redis.getFieldAlias (ix_field o)
                 /\ tf = tf')
              (spec_fragments (Redis.normalize (ix_value o)) Redis.this_k))
         (query_fragments op (Redis.normalize q) K))
    ops ->
  collision_free secret ops fieldName op q K.
Proof.
  intros Hall o tf tf' Ho Htf Htf' Heq.
  rewrite Forall_forall in Hall. specialize (Hall o Ho).
  rewrite Forall_forall in Hall.
  specialize (Hall tf (proj2 (list_elem_of_In _ _) Htf)).
  rewrite Forall_forall in Hall.
  by apply (Hall tf' (proj2 (list_elem_of_In _ _) Htf')).
Qed.

End Checking.

Section SearchExamples.
#[local] Existing Instance fragment_runtime.

Lemma single_key_search_exact_example :
  (js "startsWith" ∈ [js "eq"; js "startsWith"; js "endsWith"])
  /\ collision_free example_secret example_indexings (js "FIRST_NAME")
       (js "startsWith") (js "Ar") 3
  /\ exists found,
       Redis.search example_secret (js "FIRST_NAME") (js "startsWith")
         (js "Ar") 3 (redis_after example_secret example_indexings) = Returned found
       /\ js "T2" ∈ found /\ (js "T4" ∉ found).
Proof.
  assert (Hop : js "startsWith" ∈ [js "eq"; js "startsWith"; js "endsWith"])
    by (apply (bool_decide_unpack _); by vm_compute).
  assert (Hfree : collision_free example_secret example_indexings (js "FIRST_NAME")
                    (js "startsWith") (js "Ar") 3).
  { apply collision_free_check. apply (bool_decide_unpack _). by vm_compute. }
  split; [exact Hop|]. split; [exact Hfree|].
  destruct (single_key_search_exact example_secret example_indexings
              (js "FIRST_NAME") (js "startsWith") (js "Ar") 3 Hop Hfree)
    as (found & Hfound & Hx).
  exists found. split; [exact Hfound|]. split.
  - apply Hx. eexists. split; [by left|]. split; [done|]. split; [done|].
    right. left. split; [done|]. split; [by vm_compute|].
    exists (js "jun"). by vm_compute.
  - intros (o & Ho & Ht & Ha & _)%Hx.
    apply elem_of_cons in Ho as [->|Ho]; [by vm_compute in Ht|].
    apply elem_of_cons in Ho as [->|Ho]; [by vm_compute in Ht|].
    apply list_elem_of_singleton in Ho as ->. by vm_compute in Ha.
Defined.

Lemma contains_search_exact_example :
  (js "contains" ∉ [js "eq"; js "startsWith"; js "endsWith"])
  /\ collision_free example_secret example_indexings (js "FIRST_NAME")
       (js "contains") (js "rJu") 3
  /\ exists found,
       Redis.search example_secret (js "FIRST_NAME") (js "contains")
         (js "rJu") 3 (redis_after example_secret example_indexings) = Returned found
       /\ js "T2" ∈ found /\ (js "T3" ∉ found).
Proof.
  assert (Hop : js "contains" ∉ [js "eq"; js "startsWith"; js "endsWith"])
    by (apply (bool_decide_unpack _); by vm_compute).
  assert (Hfree : collision_free example_secret example_indexings (js "FIRST_NAME")
                    (js "contains") (js "rJu") 3).
  { apply collision_free_check. apply (bool_decide_unpack _). by vm_compute. }
  split; [exact Hop|]. split; [exact Hfree|].
  destruct (contains_search_exact example_secret example_indexings
              (js "FIRST_NAME") (js "contains") (js "rJu") 3 Hop Hfree)
    as (found & Hfound & Hx).
  exists found. split; [exact Hfound|]. split.
  - apply Hx. split; [done|]. split; [vm_compute; lia|].
    intros i Hi.
    assert (Hlen : length (Redis.normalize (js "rJu")) = 3) by by vm_compute.
    assert (i = 0) as -> by lia.
    eexists. split; [by left|]. split; [done|]. split; [done|].
    exists (js "a"), (js "n"). by vm_compute.
  - intros (_ & _ & Hall)%Hx.
    destruct (Hall 0) as (o & Ho & Ht & _ & pre & suf & Hsub);
      [vm_compute; lia|].
    apply elem_of_cons in Ho as [->|Ho]; [by vm_compute in Ht|].
    apply elem_of_cons in Ho as [->|Ho].
    + assert (Hj : 106%N ∈ take 3 (drop 0 (Redis.normalize (js "rJu"))))
        by (apply (bool_decide_unpack _); by vm_compute).
      assert (Hn : 106%N ∉ Redis.normalize (js "Arnav"))
        by (apply (bool_decide_unpack _); by vm_compute).
      apply Hn. cbn [ix_value] in Hsub. rewrite Hsub, !elem_of_app. auto.
    + apply list_elem_of_singleton in Ho as ->. by vm_compute in Ht.
Defined.
End SearchExamples.

(** ** The in-memory store under further indexing *)

Lemma sAdd_comm (key key' member member' : jsstring) (st : Redis.db) :
  Redis.sAdd key member (Redis.sAdd key' member' st)
  = Redis.sAdd key' member' (Redis.sAdd key member st).
Proof.
  unfold Redis.sAdd at 1 3. rewrite !sMembers_sAdd. unfold Redis.sAdd.
  destruct (decide (key' = key)) as [->|Hne].
  - rewrite decide_True by done. rewrite !insert_insert_eq. f_equal.
    rewrite !(assoc_L (∪)). f_equal. apply (comm_L (∪)).
  - rewrite decide_False by done. by apply insert_insert_ne.
Qed.

Lemma pipeline_sAdd_comm (keys : list jsstring) (token key member : jsstring)
    (st : Redis.db) :
  foldl (fun s k => Redis.sAdd k token s) (Redis.sAdd key member st) keys
  = Redis.sAdd key member (foldl (fun s k => Redis.sAdd k token s) st keys).
Proof.
  revert st. induction keys as [|k keys IH]; intros st; cbn [foldl]; [done|].
  by rewrite <- IH, sAdd_comm.
Qed.

Lemma pipeline_comm (keys keys' : list jsstring) (token token' : jsstring)
    (st : Redis.db) :
  foldl (fun s k => Redis.sAdd k token' s)
        (foldl (fun s k => Redis.sAdd k token s) st keys) keys'
  = foldl (fun s k => Redis.sAdd k token s)
          (foldl (fun s k => Redis.sAdd k token' s) st keys') keys.
Proof.
  revert st. induction keys as [|k keys IH]; intros st; cbn [foldl]; [done|].
  by rewrite IH, pipeline_sAdd_comm.
Qed.

Lemma foldl_commute_permutation {A B : Type} (f : B -> A -> B)
    (l l' : list A) :
  (forall s a b, f (f s a) b = f (f s b) a) ->
  l ≡ₚ l' -> forall s, foldl f s l = foldl f s l'.
Proof.
  intros Hcomm. induction 1 as [|x l l' _ IH|x y l|l l' l'' _ IH _ IH'];
    intros s; cbn [foldl].
  - done.
  - apply IH.
  - by rewrite Hcomm.
  - by rewrite IH.
Qed.

Lemma sMembers_pipeline_mono (keys : list jsstring) (token key : jsstring)
    (st : Redis.db) :
  Redis.sMembers key st
  ⊆ Redis.sMembers key (foldl (fun s k => Redis.sAdd k token s) st keys).
Proof.
  unfold Redis.sMembers at 2. rewrite lookup_pipeline.
  case_decide; [|done]. cbn [from_option]. unfold id.
  apply union_subseteq_r.
Qed.

Section Store.

Context {R : Runtime}.

Variable secret : jsstring.

Lemma indexFieldValue_comm (f v t f' v' t' : jsstring) (k k' : nat)
    (st : Redis.db) :
  (Redis.indexFieldValue secret f' v' t' k'
     (Redis.indexFieldValue secret f v t k st).2).2
  = (Redis.indexFieldValue secret f v t k
       (Redis.indexFieldValue secret f' v' t' k' st).2).2.
Proof. unfold Redis.indexFieldValue. cbn [snd]. apply pipeline_comm. Qed.

(** X3. The in-memory store does not depend on the order of the
    [indexFieldValue] calls that built it. *)
Theorem redis_after_permutation (ops ops' : list indexing) :
  ops ≡ₚ ops' -> redis_after secret ops = redis_after secret ops'.
Proof.
  intros Hperm. unfold redis_after.
  apply (foldl_commute_permutation
           (fun st o =>
              (Redis.indexFieldValue secret (ix_field o) (ix_value o)
                 (ix_token o) Redis.this_k st).2)); [|done].
  intros s a b. apply indexFieldValue_comm.
Qed.

(** X4. An [indexFieldValue] call never removes a token from the answer of
    any [search]: the answer on the store after the call includes the
    answer before it. *)
Theorem search_monotone (fieldName op q : jsstring) (K : nat)
    (fieldName' value token : jsstring) (k : nat) (st : Redis.db) :
  exists before after,
    Redis.search secret fieldName op q K st = Returned before
    /\ Redis.search secret fieldName op q K
         (Redis.indexFieldValue secret fieldName' value token k st).2
       = Returned after
    /\ before ⊆ after.
Proof.
  destruct (elem_of_search secret fieldName op q K st)
    as (before & Hbefore & Hb).
  destruct (elem_of_search secret fieldName op q K
              (Redis.indexFieldValue secret fieldName' value token k st).2)
    as (after & Hafter & Ha).
  exists before, after. split; [done|]. split; [done|].
  intros x [Hne Hall]%Hb. apply Ha. split; [done|].
  intros key Hkey. unfold Redis.indexFieldValue. cbn [snd].
  by apply sMembers_pipeline_mono, Hall.
Qed.

End Store.

Section StoreExamples.

#[local] Existing Instance fragment_runtime.

Lemma redis_after_permutation_example :
  example_indexings ≡ₚ reverse example_indexings
  /\ redis_after example_secret example_indexings
     = redis_after example_secret (reverse example_indexings).
Proof.
  assert (Hperm : example_indexings ≡ₚ reverse example_indexings)
    by (symmetry; apply reverse_Permutation).
  split; [exact Hperm|].
  exact (redis_after_permutation example_secret _ _ Hperm).
Defined.

End StoreExamples.

(** ** Composed queries *)

Lemma elem_of_foldl_intersection_sets (acc : gset jsstring)
    (sets : list (gset jsstring)) (x : jsstring) :
  x ∈ foldl (fun a s => a ∩ s) acc sets
  <-> x ∈ acc /\ forall s, s ∈ sets -> x ∈ s.
Proof.
  revert acc. induction sets as [|s sets IH]; intros acc; cbn [foldl].
  - split; [|by intros []]. intros Hx. split; [done|].
    by intros s ?%elem_of_nil.
  - rewrite IH, elem_of_intersection. split.
    + intros [[Ha Hs] Hrest]. split; [done|].
      intros s' [->|Hs']%elem_of_cons; auto.
    + intros [Ha Hall]. split; [split|]; [done| |].
      * apply Hall. by left.
      * intros s' Hs'. apply Hall. by right.
Qed.

Lemma elem_of_foldl_union_sets (acc : gset jsstring)
    (sets : list (gset jsstring)) (x : jsstring) :
  x ∈ foldl (fun a s => a ∪ s) acc sets
  <-> x ∈ acc \/ exists s, s ∈ sets /\ x ∈ s.
Proof.
  revert acc. induction sets as [|s sets IH]; intros acc; cbn [foldl].
  - split; [by left|]. intros [?|(s & ?%elem_of_nil & _)]; done.
  - rewrite IH, elem_of_union. split.
    + intros [[Ha|Hs]|(s' & Hs' & Hx)]; [by left| |].
      * right. exists s. split; [by left|done].
      * right. exists s'. split; [by right|done].
    + intros [Ha|(s' & [->|Hs']%elem_of_cons & Hx)].
      * by left; left.
      * by left; right.
      * right. by exists s'.
Qed.

Lemma foldl_keep {A B : Type} (acc : A) (l : list B) :
  foldl (fun a _ => a) acc l = acc.
Proof. induction l as [|b l IH]; cbn [foldl]; done. Qed.

Lemma first_failure_cons {A : Type} (P Q : A -> Prop) (c : A) (l : list A) :
  (exists pre c' post,
      c :: l = pre ++ c' :: post /\ Forall P pre /\ ~ P c' /\ Q c')
  <-> (~ P c /\ Q c)
      \/ (P c /\ exists pre c' post,
                   l = pre ++ c' :: post /\ Forall P pre /\ ~ P c' /\ Q c').
Proof.
  split.
  - intros ([|c0 pre] & c' & post & Heq & Hpre & Hc & Hq);
      cbn [app] in Heq; injection Heq as <- ->.
    + by left.
    + apply Forall_cons in Hpre as [Hc0 Hpre]. right. split; [done|].
      by exists pre, c', post.
  - intros [[Hc Hq]|[Hc (pre & c' & post & -> & Hpre & Hc' & Hq)]].
    + by exists [], c, l.
    + exists (c :: pre), c', post. split; [done|]. split; [|done].
      by constructor.
Qed.

Section Composing.

Context {R : Runtime}.

(** The second loop of either [executeComplexQuery]. *)
Lemma composed_by_fold (operator : jsstring) (first : gset jsstring)
    (others : list (gset jsstring)) :
  composed_by operator (first :: others)
    (foldl
       (fun finalResult s =>
          if decide (toUpperCase operator = js "AND")
          then finalResult ∩ s
          else if decide (toUpperCase operator = js "OR")
          then finalResult ∪ s
          else finalResult)
       first others).
Proof.
  unfold composed_by.
  destruct (decide (toUpperCase operator = js "AND")) as [Hand|Hand];
    [|destruct (decide (toUpperCase operator = js "OR")) as [Hor|Hor]].
  - split; [|split]; [|intros Hor; by rewrite Hand in Hor|done].
    intros _ x. rewrite elem_of_foldl_intersection_sets. split.
    + intros [Hf Hall]. split; [done|].
      intros s [->|Hs]%elem_of_cons; auto.
    + intros [_ Hall]. split; [apply Hall; by left|].
      intros s Hs. apply Hall. by right.
  - split; [done|]. split; [|done].
    intros _ x. rewrite elem_of_foldl_union_sets. split.
    + intros [Hf|(s & Hs & Hx)].
      * exists first. split; [by left|done].
      * exists s. split; [by right|done].
    + intros (s & [->|Hs]%elem_of_cons & Hx); [by left|].
      right. by exists s.
  - split; [done|]. split; [done|]. intros _ _. cbn [hd]. apply foldl_keep.
Qed.

Variable secret : jsstring.

Lemma redis_evalCondition_accepts (c : DbSearch.condition) (st : Redis.db) :
  toLowerCase (DbSearch.cond_operation c) ∈ redis_operations ->
  exists s, RedisRecord.evalCondition secret c st = Returned s.
Proof.
  intros Hop. unfold RedisRecord.evalCondition.
  repeat case_decide;
    try (by apply (elem_of_search secret _ _ _ _ st)
              || (destruct (elem_of_search secret (DbSearch.cond_field c)
                     (js "eq") (DbSearch.cond_value c) Redis.this_k st)
                    as (s & Hs & _); by exists s)).
  all: try by (unfold Redis.search; destruct (Redis.searchCommand _ _ _ _ _);
               eexists).
  unfold redis_operations in Hop.
  repeat (apply elem_of_cons in Hop as [Hop|Hop]; [done|]).
  by apply elem_of_nil in Hop.
Qed.

Lemma redis_evalCondition_rejects (c : DbSearch.condition) (st : Redis.db) :
  toLowerCase (DbSearch.cond_operation c) ∉ redis_operations ->
  RedisRecord.evalCondition secret c st
  = Thrown (Error (js "Unsupported operation: " ++ DbSearch.cond_operation c)).
Proof.
  intros Hop. unfold RedisRecord.evalCondition.
  repeat case_decide; try done; exfalso; apply Hop; unfold redis_operations;
    match goal with H : _ = _ |- _ => rewrite H end;
    apply (bool_decide_unpack _); by vm_compute.
Qed.

Lemma redis_resultSetsOf_Forall2 (conds : list DbSearch.condition)
    (st : Redis.db) (sets : list (gset jsstring)) :
  RedisRecord.resultSetsOf secret conds st = Returned sets
  <-> Forall2 (fun c s => RedisRecord.evalCondition secret c st = Returned s)
        conds sets.
Proof.
  revert sets. induction conds as [|c conds IH]; intros sets;
    cbn [RedisRecord.resultSetsOf].
  - split.
    + intros [= <-]. constructor.
    + by intros ->%Forall2_nil_inv_l.
  - destruct (RedisRecord.evalCondition secret c st) as [s|e] eqn:Hc.
    + destruct (RedisRecord.resultSetsOf secret conds st) as [sets'|e] eqn:Hr.
      * split.
        -- intros [= <-]. constructor; [done|]. by apply IH.
        -- intros (s' & sets'' & Hs & Hall & ->)%Forall2_cons_inv_l.
           apply IH in Hall. congruence.
      * split; [done|].
        intros (s' & sets'' & Hs & Hall & ->)%Forall2_cons_inv_l.
        apply IH in Hall. congruence.
    + split; [done|].
      intros (s' & sets'' & Hs & Hall & ->)%Forall2_cons_inv_l.
      congruence.
Qed.

(** X5. When the search of every condition returns, the in-memory
    [executeComplexQuery] returns: under AND the tokens that are in every
    result set (none for an empty list of conditions), under OR those in
    some result set, and under any other operator the result set of the
    first condition alone. *)
Theorem redis_complex_query_composes (conds : list DbSearch.condition)
    (operator : jsstring) (st : Redis.db) (sets : list (gset jsstring)) :
  Forall2 (fun c s => RedisRecord.evalCondition secret c st = Returned s)
    conds sets ->
  exists found,
    RedisRecord.executeComplexQuery secret conds operator st = Returned found
    /\ composed_by operator sets found.
Proof.
  intros Hsets%redis_resultSetsOf_Forall2.
  unfold RedisRecord.executeComplexQuery. rewrite Hsets.
  destruct sets as [|first others].
  - exists ∅. split; [done|]. unfold composed_by.
    split; [|split]; [| |done].
    + intros _ x. split; [by intros ?%elem_of_empty|]. by intros [? _].
    + intros _ x. split; [by intros ?%elem_of_empty|].
      by intros (s & ?%elem_of_nil & _).
  - eexists. split; [done|]. apply composed_by_fold.
Qed.

(** X6. The in-memory [executeComplexQuery] throws exactly when some
    condition names an operation outside its four; the error is the one of
    the first such condition and quotes the operation as it was given. *)
Theorem redis_complex_query_throws (conds : list DbSearch.condition)
    (operator : jsstring) (st : Redis.db) (e : js_error) :
  RedisRecord.executeComplexQuery secret conds operator st = Thrown e
  <-> exists pre c post,
        conds = pre ++ c :: post
        /\ Forall
             (fun c' =>
                toLowerCase (DbSearch.cond_operation c') ∈ redis_operations)
             pre
        /\ (toLowerCase (DbSearch.cond_operation c) ∉ redis_operations)
        /\ e = Error (js "Unsupported operation: "
                        ++ DbSearch.cond_operation c).
Proof.
  unfold RedisRecord.executeComplexQuery.
  transitivity (RedisRecord.resultSetsOf secret conds st = Thrown e).
  { destruct (RedisRecord.resultSetsOf secret conds st)
      as [[|first others]|e']; split; intros; by simplify_eq. }
  induction conds as [|c conds IH]; cbn [RedisRecord.resultSetsOf].
  - split; [done|]. by intros ([|??] & ? & ? & ? & _).
  - rewrite (first_failure_cons
               (fun c' => toLowerCase (DbSearch.cond_operation c')
                          ∈ redis_operations)
               (fun c' => e = Error (js "Unsupported operation: "
                                       ++ DbSearch.cond_operation c'))).
    rewrite <- IH. clear IH.
    destruct (decide (toLowerCase (DbSearch.cond_operation c)
                        ∈ redis_operations)) as [Hin|Hnin].
    + destruct (redis_evalCondition_accepts c st Hin) as [s ->].
      destruct (RedisRecord.resultSetsOf secret conds st) as [sets|e'].
      * split; [done|]. by intros [[? _]|[_ ?]].
      * split; [intros [= <-]; by right|]. intros [[? _]|[_ ?]]; done.
    + rewrite (redis_evalCondition_rejects c st Hnin). split.
      * intros [= <-]. by left.
      * intros [[_ ->]|[? _]]; done.
Qed.



Lemma db_resultSetsOf_Forall2 (conds : list DbSearch.condition) (now : Z)
    (t : Pg.table) (sets : list (gset jsstring)) :
  DbSearch.resultSetsOf secret conds now t = Returned sets
  <-> Forall2 (fun c s => DbSearch.evalCondition secret c now t = Returned s)
        conds sets.
Proof.
  revert sets. induction conds as [|c conds IH]; intros sets;
    cbn [DbSearch.resultSetsOf].
  - split.
    + intros [= <-]. constructor.
    + by intros ->%Forall2_nil_inv_l.
  - destruct (DbSearch.evalCondition secret c now t) as [s|e] eqn:Hc.
    + destruct (DbSearch.resultSetsOf secret conds now t)
        as [sets'|e] eqn:Hr.
      * split.
        -- intros [= <-]. constructor; [done|]. by apply IH.
        -- intros (s' & sets'' & Hs & Hall & ->)%Forall2_cons_inv_l.
           apply IH in Hall. congruence.
      * split; [done|].
        intros (s' & sets'' & Hs & Hall & ->)%Forall2_cons_inv_l.
        apply IH in Hall. congruence.
    + split; [done|].
      intros (s' & sets'' & Hs & Hall & ->)%Forall2_cons_inv_l.
      congruence.
Qed.

(** X7. The relational [executeComplexQuery] composes the result sets of
    its conditions in the same way: intersection under AND (nothing for no
    condition), union under OR, and the first result set alone under any
    other operator. *)
Theorem db_complex_query_composes (conds : list DbSearch.condition)
    (operator : jsstring) (now : Z) (t : Pg.table)
    (sets : list (gset jsstring)) :
  Forall2 (fun c s => DbSearch.evalCondition secret c now t = Returned s)
    conds sets ->
  exists found,
    DbSearch.executeComplexQuery secret conds operator now t = Returned found
    /\ composed_by operator sets found.
Proof.
  intros Hsets%db_resultSetsOf_Forall2.
  unfold DbSearch.executeComplexQuery. rewrite Hsets.
  destruct sets as [|first others].
  - exists ∅. split; [done|]. unfold composed_by.
    split; [|split]; [| |done].
    + intros _ x. split; [by intros ?%elem_of_empty|]. by intros [? _].
    + intros _ x. split; [by intros ?%elem_of_empty|].
      by intros (s & ?%elem_of_nil & _).
  - eexists. split; [done|]. apply composed_by_fold.
Qed.



End Composing.

Section ComposedExamples.

#[local] Existing Instance fragment_runtime.

Lemma redis_complex_query_composes_example :
  let conds :=
    [ {| DbSearch.cond_field := js "FIRST_NAME";
         DbSearch.cond_operation := js "Starts_With";
         DbSearch.cond_value := js "Ar" |};
      {| DbSearch.cond_field := js "first_name";
         DbSearch.cond_operation := js "CONTAINS";
         DbSearch.cond_value := js "jun" |} ] in
  let st := redis_after example_secret example_indexings in
  let sets : list (gset jsstring) := [ {[js "T2"; js "T3"]}; {[js "T2"]} ] in
  Forall2
    (fun c s => RedisRecord.evalCondition example_secret c st = Returned s)
    conds sets
  /\ exists found,
       RedisRecord.executeComplexQuery example_secret conds (js "and") st
       = Returned found
       /\ composed_by (js "and") sets found.
Proof.
  cbn zeta.
  match goal with
  | |- ?H /\ _ => assert (Hsets : H) by (repeat constructor; by vm_compute)
  end.
  split; [exact Hsets|].
  exact (redis_complex_query_composes example_secret _ (js "and") _ _ Hsets).
Defined.

Lemma db_complex_query_composes_example :
  let conds :=
    [ {| DbSearch.cond_field := js "FIRST_NAME";
         DbSearch.cond_operation := js "StartsWith";
         DbSearch.cond_value := js "Ar" |};
      {| DbSearch.cond_field := js "first_name";
         DbSearch.cond_operation := js "CONTAINS";
         DbSearch.cond_value := js "jun" |} ] in
  let t := table_after example_secret example_indexings in
  let sets : list (gset jsstring) := [ {[js "T2"; js "T3"]}; {[js "T2"]} ] in
  Forall2
    (fun c s => DbSearch.evalCondition example_secret c 6 t = Returned s)
    conds sets
  /\ exists found,
       DbSearch.executeComplexQuery example_secret conds (js "or") 6 t
       = Returned found
       /\ composed_by (js "or") sets found.
Proof.
  cbn zeta.
  match goal with
  | |- ?H /\ _ => assert (Hsets : H) by (repeat constructor; by vm_compute)
  end.
  split; [exact Hsets|].
  exact (db_complex_query_composes example_secret _ (js "or") _ _ _ Hsets).
Defined.

End ComposedExamples.

(** ** Records on the in-memory indexer *)

Section Records.

Context {R : Runtime}.

Variable secret : jsstring.

(** The loop of [indexRecord] from any intermediate state: one pipeline
    over the keys of the indexable entries. *)
Lemma indexRecordLoop_from (entries : list (jsstring * js_value))
    (token : jsstring) (k : nat) (total : nat) (fields : list jsstring)
    (st : Redis.db) :
  foldl
    (fun acc entry =>
       let '(total, fields, st') := acc in
       let '(fieldName, value) := entry in
       match RedisRecord.indexable value with
       | Some s =>
           let result := Redis.indexFieldValue secret fieldName s token k st' in
           (total + Redis.indexed result.1, fields ++ [fieldName], result.2)
       | None => acc
       end)
    (total, fields, st) entries
  = let keys :=
      flat_map
        (fun entry =>
           match RedisRecord.indexable entry.2 with
           | Some s =>
               Redis.generateAllIndexKeys secret (Redis.getFieldAlias entry.1)
                 s k
           | None => []
           end) entries in
    (total + length keys,
     fields ++ map fst (filter (fun entry =>
                                  is_Some (RedisRecord.indexable entry.2))
                               entries),
     foldl (fun s key => Redis.sAdd key token s) st keys).
Proof.
  cbn zeta. revert total fields st.
  induction entries as [|[fieldName value] entries IH];
    intros total fields st; cbn [foldl flat_map].
  - by rewrite Nat.add_0_r, app_nil_r.
  - rewrite filter_cons. cbn [fst snd].
    destruct (RedisRecord.indexable value) as [s|] eqn:Hv.
    + rewrite decide_True by done. cbn zeta.
      rewrite IH. unfold Redis.indexFieldValue. cbn [fst snd Redis.indexed].
      rewrite length_app, foldl_app, Nat.add_assoc. cbn [map fst].
      by rewrite <- (assoc_L (++)).
    + rewrite decide_False by (by intros [? ?]). cbn [app]. apply IH.
Qed.

Lemma indexRecord_store (entries : list (jsstring * js_value))
    (token : jsstring) (k : nat) (st : Redis.db) :
  (RedisRecord.indexRecord secret entries token k st).2
  = foldl (fun s key => Redis.sAdd key token s) st
      (flat_map
         (fun entry =>
            match RedisRecord.indexable entry.2 with
            | Some s =>
                Redis.generateAllIndexKeys secret
                  (Redis.getFieldAlias entry.1) s k
            | None => []
            end) entries).
Proof.
  unfold RedisRecord.indexRecord, RedisRecord.indexRecordLoop.
  by rewrite indexRecordLoop_from.
Qed.

(** X10. After [indexRecord], every field of the record that holds a
    non-blank string is searchable: a query whose normalized form matches
    the field's normalized value (as for a single [indexFieldValue]) is
    answered with a set that contains the record's token, whatever the
    store held before and whatever the other fields are. *)
Theorem indexRecord_covers (entries : list (jsstring * js_value))
    (token : jsstring) (k : nat) (st : Redis.db)
    (fieldName v op q : jsstring) :
  (fieldName, JsString v) ∈ entries ->
  trim v <> [] ->
  query_matches k (Redis.normalize v) op (Redis.normalize q) ->
  exists found,
    Redis.search secret fieldName op q k
      (RedisRecord.indexRecord secret entries token k st).2 = Returned found
    /\ token ∈ found.
Proof.
  intros Hin Hblank Hm.
  destruct (keysFor_indexed secret (Redis.getFieldAlias fieldName) v op _ k
              Hm q eq_refl) as [Hne Hkeys].
  apply search_over_keys; [done|]. intros key Hkey.
  rewrite indexRecord_store. apply sMembers_pipeline.
  apply list_elem_of_In, in_flat_map. exists (fieldName, JsString v).
  split; [by apply list_elem_of_In|]. cbn [fst snd RedisRecord.indexable].
  assert (Hv : v <> []) by (intros ->; by apply Hblank).
  rewrite !bool_decide_eq_false_2 by done.
  by apply list_elem_of_In, Hkeys.
Qed.

Lemma record_keys_filter (entries : list (jsstring * js_value)) (k : nat) :
  flat_map
    (fun entry =>
       match RedisRecord.indexable entry.2 with
       | Some s =>
           Redis.generateAllIndexKeys secret (Redis.getFieldAlias entry.1) s k
       | None => []
       end)
    (filter (fun entry => is_Some (RedisRecord.indexable entry.2)) entries)
  = flat_map
      (fun entry =>
         match RedisRecord.indexable entry.2 with
         | Some s =>
             Redis.generateAllIndexKeys secret (Redis.getFieldAlias entry.1)
               s k
         | None => []
         end) entries.
Proof.
  induction entries as [|[fieldName value] entries IH]; [done|].
  rewrite filter_cons. cbn [fst snd flat_map].
  destruct (RedisRecord.indexable value) as [s|] eqn:Hv.
  - rewrite decide_True by done. cbn [flat_map fst snd].
    by rewrite Hv, IH.
  - by rewrite decide_False by (by intros [? ?]).
Qed.

Lemma length_generateAllIndexKeys (field value : jsstring) (k : nat) :
  length (Redis.generateAllIndexKeys secret field value k)
  = let n := length (Redis.normalize value) in
    1 + 2 * n + (if k <=? n then n - k + 1 else 0).
Proof.
  unfold Redis.generateAllIndexKeys. cbn zeta.
  rewrite !length_app, !length_map, !length_seq, length_reverse_string.
  cbn [length]. destruct (k <=? _); [rewrite length_map, length_seq|];
    cbn [length]; lia.
Qed.

(** X11. [indexRecord] skips every field whose value is not a string, is
    empty or is all whitespace: [indexedFields] lists the other field names
    in order, [totalKeys] counts for each of them one equality key, one key
    per prefix and per suffix and one per gram (repetitions included), the
    store is as after indexing those fields alone, and [recordData] still
    names every field. *)
Theorem indexRecord_summary (entries : list (jsstring * js_value))
    (token : jsstring) (k : nat) (st : Redis.db) :
  let indexed :=
    filter (fun entry => is_Some (RedisRecord.indexable entry.2)) entries in
  let result := RedisRecord.indexRecord secret entries token k st in
  RedisRecord.indexedFields result.1 = map fst indexed
  /\ RedisRecord.recordKeys result.1 = map fst entries
  /\ RedisRecord.summary_token result.1 = token
  /\ RedisRecord.totalKeys result.1
     = sum_list
         (map (fun entry =>
                 match RedisRecord.indexable entry.2 with
                 | Some s =>
                     let n := length (Redis.normalize s) in
                     1 + 2 * n + (if k <=? n then n - k + 1 else 0)
                 | None => 0
                 end) indexed)
  /\ result.2 = (RedisRecord.indexRecord secret indexed token k st).2.
Proof.
  cbn zeta. rewrite !indexRecord_store, record_keys_filter.
  unfold RedisRecord.indexRecord, RedisRecord.indexRecordLoop.
  rewrite indexRecordLoop_from. cbn zeta.
  cbn [fst snd RedisRecord.indexedFields RedisRecord.recordKeys
       RedisRecord.summary_token RedisRecord.totalKeys app].
  split; [done|]. split; [done|]. split; [done|]. split; [|done].
  rewrite Nat.add_0_l, <- record_keys_filter.
  induction (filter _ entries) as [|[fieldName value] l IH]; [done|].
  cbn [flat_map map sum_list fst snd]. rewrite length_app, IH. f_equal.
  destruct (RedisRecord.indexable value) as [s|]; [|done].
  apply length_generateAllIndexKeys.
Qed.

End Records.

Section RecordExamples.

#[local] Existing Instance fragment_runtime.

Lemma indexRecord_covers_example :
  let entries :=
    [ (js "FIRST_NAME", JsString (js " Arjun"));
      (js "AGE", JsNotString);
      (js "CITY", JsString (js "   ")) ] in
  (js "FIRST_NAME", JsString (js " Arjun")) ∈ entries
  /\ trim (js " Arjun") <> []
  /\ query_matches 3 (Redis.normalize (js " Arjun")) (js "contains")
       (Redis.normalize (js "RJU"))
  /\ exists found,
       Redis.search example_secret (js "FIRST_NAME") (js "contains")
         (js "RJU") 3
         (RedisRecord.indexRecord example_secret entries (js "T9") 3 ∅).2
       = Returned found
       /\ js "T9" ∈ found.
Proof.
  cbn zeta.
  assert (Hin : (js "FIRST_NAME", JsString (js " Arjun"))
                ∈ [ (js "FIRST_NAME", JsString (js " Arjun"));
                    (js "AGE", JsNotString);
                    (js "CITY", JsString (js "   ")) ]) by by left.
  assert (Hblank : trim (js " Arjun") <> []) by by vm_compute.
  assert (Hm : query_matches 3 (Redis.normalize (js " Arjun")) (js "contains")
                 (Redis.normalize (js "RJU"))).
  { apply matches_contains; [vm_compute; lia|].
    exists (js "a"), (js "n"). by vm_compute. }
  split; [exact Hin|]. split; [exact Hblank|]. split; [exact Hm|].
  exact (indexRecord_covers example_secret _ (js "T9") 3 ∅ (js "FIRST_NAME")
           (js " Arjun") (js "contains") (js "RJU") Hin Hblank Hm).
Defined.

End RecordExamples.

(** ** Stores without empty sets *)

Lemma no_empty_sets_empty : no_empty_sets ∅.
Proof. intros key s Hs. by rewrite lookup_empty in Hs. Qed.

Lemma no_empty_sets_sAdd (key member : jsstring) (st : Redis.db) :
  no_empty_sets st -> no_empty_sets (Redis.sAdd key member st).
Proof.
  intros Hst key' s. unfold Redis.sAdd.
  destruct (decide (key = key')) as [->|Hne].
  - rewrite lookup_insert_eq. intros [= <-] Hempty.
    assert (Hm : member ∈ ({[member]} ∪ Redis.sMembers key' st))
      by (apply elem_of_union_l; by apply elem_of_singleton).
    rewrite Hempty in Hm. by apply elem_of_empty in Hm.
  - rewrite lookup_insert_ne by done. apply Hst.
Qed.

Lemma no_empty_sets_delete (key : jsstring) (st : Redis.db) :
  no_empty_sets st -> no_empty_sets (delete key st).
Proof.
  intros Hst key' s Hs. apply lookup_delete_Some in Hs as [_ Hs].
  by apply (Hst key').
Qed.

Lemma no_empty_sets_sRem (key member : jsstring) (st : Redis.db) :
  no_empty_sets st -> no_empty_sets (Redis.sRem key member st).
Proof.
  intros Hst. unfold Redis.sRem. destruct (st !! key) as [s|]; [|done].
  cbn zeta. case_decide as Hs; [by apply no_empty_sets_delete|].
  intros key' s'. destruct (decide (key = key')) as [->|Hne].
  - rewrite lookup_insert_eq. by intros [= <-].
  - rewrite lookup_insert_ne by done. apply Hst.
Qed.

Lemma no_empty_sets_foldl (command : jsstring -> jsstring -> Redis.db -> Redis.db)
    (keys : list jsstring) (token : jsstring) (st : Redis.db) :
  (forall key st', no_empty_sets st' -> no_empty_sets (command key token st')) ->
  no_empty_sets st ->
  no_empty_sets (foldl (fun s key => command key token s) st keys).
Proof.
  intros Hc. revert st. induction keys as [|key keys IH]; intros st Hst;
    cbn [foldl]; [done|]. by apply IH, Hc.
Qed.

(** Without empty sets, a store is determined by the members of its
    keys. *)
Lemma no_empty_sets_eq (st st' : Redis.db) :
  no_empty_sets st -> no_empty_sets st' ->
  (forall key, Redis.sMembers key st = Redis.sMembers key st') ->
  st = st'.
Proof.
  intros Hst Hst' Hm. apply map_eq. intros key. specialize (Hm key).
  unfold Redis.sMembers in Hm.
  destruct (st !! key) as [s|] eqn:Hs, (st' !! key) as [s'|] eqn:Hs';
    cbn in Hm.
  - by rewrite Hm.
  - by apply Hst in Hs.
  - by apply Hst' in Hs'.
  - done.
Qed.

Lemma sMembers_sRem (key key' member : jsstring) (st : Redis.db) :
  Redis.sMembers key' (Redis.sRem key member st)
  = if decide (key = key') then Redis.sMembers key' st ∖ {[member]}
    else Redis.sMembers key' st.
Proof.
  unfold Redis.sRem, Redis.sMembers.
  destruct (st !! key) as [s|] eqn:Hs; cbn zeta.
  - case_decide as Hempty.
    + destruct (decide (key = key')) as [->|Hne].
      * by rewrite lookup_delete_eq, Hs.
      * by rewrite lookup_delete_ne.
    + destruct (decide (key = key')) as [->|Hne].
      * by rewrite lookup_insert_eq, Hs.
      * by rewrite lookup_insert_ne.
  - destruct (decide (key = key')) as [->|Hne]; [|done].
    rewrite Hs. cbn. apply leibniz_equiv. intros x.
    rewrite elem_of_difference. split; [by intros ?%elem_of_empty|].
    by intros [?%elem_of_empty _].
Qed.

Lemma sMembers_sRem_pipeline (keys : list jsstring) (token key : jsstring)
    (st : Redis.db) :
  Redis.sMembers key (foldl (fun s k => Redis.sRem k token s) st keys)
  = if decide (key ∈ keys) then Redis.sMembers key st ∖ {[token]}
    else Redis.sMembers key st.
Proof.
  revert st. induction keys as [|k ks IH]; intros st; cbn [foldl].
  - case_decide as Hin; [by apply elem_of_nil in Hin | done].
  - rewrite IH, sMembers_sRem.
    destruct (decide (key ∈ ks)) as [Hin|Hnin],
             (decide (k = key)) as [->|Hne].
    + rewrite decide_True by (by left). apply leibniz_equiv. intros x.
      rewrite !elem_of_difference. tauto.
    + by rewrite decide_True by (by right).
    + by rewrite decide_True by (by left).
    + rewrite decide_False; [done|].
      by intros [?|?]%elem_of_cons.
Qed.

Lemma sMembers_sAdd_pipeline (keys : list jsstring) (token key : jsstring)
    (st : Redis.db) :
  Redis.sMembers key (foldl (fun s k => Redis.sAdd k token s) st keys)
  = if decide (key ∈ keys) then {[token]} ∪ Redis.sMembers key st
    else Redis.sMembers key st.
Proof.
  unfold Redis.sMembers at 1. rewrite lookup_pipeline.
  by case_decide.
Qed.

Lemma cleanupEmptyKeys_id (keys : list jsstring) (st : Redis.db) :
  no_empty_sets st -> Redis.cleanupEmptyKeys keys st = st.
Proof.
  intros Hst. unfold Redis.cleanupEmptyKeys.
  induction keys as [|key keys IH]; cbn [foldl]; [done|].
  destruct (Nat.eqb_spec (Redis.sCard key st) 0) as [Hcard|_]; [|done].
  unfold Redis.del. rewrite delete_id; [done|].
  unfold Redis.sCard, Redis.sMembers in Hcard.
  destruct (st !! key) as [s|] eqn:Hs; [|done]. cbn in Hcard.
  apply size_empty_inv, leibniz_equiv in Hcard. by apply Hst in Hs.
Qed.

Lemma sMembers_cleanupEmptyKeys (keys : list jsstring) (key : jsstring)
    (st : Redis.db) :
  Redis.sMembers key (Redis.cleanupEmptyKeys keys st) = Redis.sMembers key st.
Proof.
  unfold Redis.cleanupEmptyKeys. revert st.
  induction keys as [|k keys IH]; intros st; cbn [foldl]; [done|].
  rewrite IH. destruct (Nat.eqb_spec (Redis.sCard k st) 0) as [Hcard|_];
    [|done].
  unfold Redis.del, Redis.sMembers at 1.
  destruct (decide (k = key)) as [->|Hne].
  - rewrite lookup_delete_eq. cbn. symmetry.
    by apply leibniz_equiv, size_empty_inv.
  - by rewrite lookup_delete_ne.
Qed.

Lemma no_empty_sets_redis_after {R : Runtime} (secret : jsstring)
    (ops : list indexing) :
  no_empty_sets (redis_after secret ops).
Proof.
  unfold redis_after. generalize no_empty_sets_empty.
  generalize (∅ : Redis.db).
  induction ops as [|o ops IH]; intros st Hst; cbn [foldl]; [done|].
  apply IH. unfold Redis.indexFieldValue. cbn [snd].
  apply (no_empty_sets_foldl Redis.sAdd); [|done].
  intros key st'. apply no_empty_sets_sAdd.
Qed.

(** X12. On a store without empty sets (every store a Redis server can
    hold) [cleanupEmptyKeys] deletes nothing, in either indexer class: the
    server has already dropped each set with its last member. *)
Theorem cleanupEmptyKeys_redundant (keys : list jsstring) (st : Redis.db) :
  no_empty_sets st ->
  Redis.cleanupEmptyKeys keys st = st /\ Hmac.cleanupEmptyKeys keys st = st.
Proof.
  intros Hst. split; [by apply cleanupEmptyKeys_id|].
  by apply (cleanupEmptyKeys_id keys st).
Qed.

(** ** RedisHmacIndexer *)

Lemma hmac_prefixes_elem (x n : jsstring) :
  x <> [] -> x `prefix_of` n -> x ∈ Hmac.prefixes n.
Proof.
  intros Hx [rest ->]. unfold Hmac.prefixes.
  apply list_elem_of_fmap. exists (length x - 1). split.
  - rewrite slice_from_start.
    replace (length x - 1 + 1) with (length x)
      by (destruct x; [done|cbn [length]; lia]).
    by rewrite take_app_length.
  - apply list_elem_of_In, in_seq. rewrite length_app.
    destruct x; [done|]. cbn [length]. lia.
Qed.

Lemma hmac_grams_elem (g n : jsstring) (k : nat) :
  g ∈ Hmac.grams n k
  <-> k <= length n /\ length g = k /\ substring_of g n.
Proof.
  unfold Hmac.grams. destruct (Nat.ltb_spec (length n) k) as [Hlt|Hle].
  - split; [by intros ?%elem_of_nil|]. lia.
  - rewrite list_elem_of_In.
    rewrite (map_ext _ (fun i => take k (drop i n)))
      by (intros i; apply slice_window).
    rewrite In_windows by done. tauto.
Qed.

Lemma substring_of_trans (a b c : jsstring) :
  substring_of a b -> substring_of b c -> substring_of a c.
Proof.
  intros (l1 & r1 & ->) (l2 & r2 & ->). exists (l2 ++ l1), (r1 ++ r2).
  by rewrite <- !(assoc_L (++)).
Qed.

Section HmacIndexer.

Context {R : Runtime}.

Variable secret : jsstring.

Lemma queue_foldl (command : jsstring -> jsstring -> Redis.db -> Redis.db)
    (keys : Hmac.idx_keys) (token : jsstring) (st : Redis.db) :
  Hmac.queue command keys token st
  = foldl (fun s key => command key token s) st
      (Hmac.eq keys :: Hmac.pres keys ++ Hmac.sufs keys ++ Hmac.gk keys).
Proof. unfold Hmac.queue. cbn [foldl]. by rewrite !foldl_app. Qed.

(** The keys of the lookups that match a phrase are keys of the phrase. *)
Lemma hmac_lookup_keys (phrase q : jsstring) (k : nat) :
  let keys := Hmac.idxKeys secret phrase k in
  let all := Hmac.eq keys :: Hmac.pres keys ++ Hmac.sufs keys ++ Hmac.gk keys in
  (Hmac.norm q = Hmac.norm phrase ->
   js "idx:eq:" ++ Hmac.H secret (Hmac.norm q) ∈ all)
  /\ (Hmac.norm q <> [] -> Hmac.norm q `prefix_of` Hmac.norm phrase ->
      js "idx:pre:" ++ Hmac.H secret (Hmac.norm q) ∈ all)
  /\ (Hmac.norm q <> [] ->
      reverse_string (Hmac.norm q)
        `prefix_of` reverse_string (Hmac.norm phrase) ->
      js "idx:suf:" ++ Hmac.H secret (reverse_string (Hmac.norm q)) ∈ all)
  /\ (substring_of (Hmac.norm q) (Hmac.norm phrase) ->
      forall key,
        key ∈ map (fun g => js "idx:g" ++ number_to_string k ++ js ":"
                              ++ Hmac.H secret g)
                  (Hmac.grams (Hmac.norm q) k) ->
        key ∈ all).
Proof.
  cbn zeta. unfold Hmac.idxKeys. cbn [Hmac.eq Hmac.pres Hmac.sufs Hmac.gk].
  split; [|split; [|split]].
  - intros ->. by left.
  - intros Hne Hpre. right. apply elem_of_app. left.
    apply (list_elem_of_fmap_2 (fun x => js "idx:pre:" ++ Hmac.H secret x)).
    by apply hmac_prefixes_elem.
  - intros Hne Hpre. right. apply elem_of_app. right.
    apply elem_of_app. left.
    apply (list_elem_of_fmap_2 (fun x => js "idx:suf:" ++ Hmac.H secret x)).
    apply hmac_prefixes_elem; [|done].
    intros Hnil%(f_equal length). rewrite length_reverse_string in Hnil.
    by destruct (Hmac.norm q).
  - intros Hsub key (g & -> & Hg)%list_elem_of_fmap.
    right. apply elem_of_app. right. apply elem_of_app. right.
    apply (list_elem_of_fmap_2
             (fun x => js "idx:g" ++ number_to_string k ++ js ":"
                         ++ Hmac.H secret x)).
    apply hmac_grams_elem in Hg as (Hk & Hlen & Hg).
    apply hmac_grams_elem. split; [|split; [done|]].
    + destruct Hsub as (a & b & ->). rewrite !length_app. lia.
    + by apply (substring_of_trans _ (Hmac.norm q)).
Qed.

Lemma hmac_contains_elem (q : jsstring) (k : nat) (st : Redis.db)
    (x : jsstring) :
  k <= length (Hmac.norm q) ->
  x ∈ Hmac.containsLookup secret q k st
  <-> forall key,
        key ∈ map (fun g => js "idx:g" ++ number_to_string k ++ js ":"
                              ++ Hmac.H secret g)
                  (Hmac.grams (Hmac.norm q) k) ->
        x ∈ Redis.sMembers key st.
Proof.
  intros Hk. unfold Hmac.containsLookup. cbn zeta.
  set (keys := map _ (Hmac.grams (Hmac.norm q) k)).
  assert (Hne : keys <> []).
  { unfold keys, Hmac.grams.
    destruct (Nat.ltb_spec (length (Hmac.norm q)) k); [lia|].
    intros Hnil%(f_equal length).
    rewrite !length_map, length_seq in Hnil. cbn [length] in Hnil. lia. }
  destruct (Nat.eqb_spec (length keys) 0) as [Hz|_];
    [by destruct keys|].
  by apply elem_of_sInter_iff.
Qed.

(** X13. After [addPhraseToken(phrase, token)] the token is returned by
    every lookup that matches the normalized phrase: the equality
    lookup of the phrase, the starts-with lookup of each non-empty prefix,
    the ends-with lookup of each non-empty suffix of the code-point
    reversal, and the contains lookup of each substring of at least [k]
    units. *)
Theorem addPhraseToken_covers (phrase token q : jsstring) (k : nat)
    (st : Redis.db) :
  let st' := (Hmac.addPhraseToken secret phrase token k st).2 in
  (Hmac.norm q = Hmac.norm phrase -> token ∈ Hmac.equalsLookup secret q st')
  /\ (Hmac.norm q <> [] -> Hmac.norm q `prefix_of` Hmac.norm phrase ->
      token ∈ Hmac.startsWithLookup secret q st')
  /\ (Hmac.norm q <> [] ->
      reverse_string (Hmac.norm q)
        `prefix_of` reverse_string (Hmac.norm phrase) ->
      token ∈ Hmac.endsWithLookup secret q st')
  /\ (k <= length (Hmac.norm q) ->
      substring_of (Hmac.norm q) (Hmac.norm phrase) ->
      token ∈ Hmac.containsLookup secret q k st').
Proof.
  cbn zeta. unfold Hmac.addPhraseToken. cbn [snd]. rewrite queue_foldl.
  destruct (hmac_lookup_keys phrase q k) as (Heq & Hpre & Hsuf & Hgk).
  split; [|split; [|split]].
  - intros Hq. by apply sMembers_pipeline, Heq.
  - intros Hne Hq. by apply sMembers_pipeline, Hpre.
  - intros Hne Hq. by apply sMembers_pipeline, Hsuf.
  - intros Hk Hq. apply hmac_contains_elem; [done|].
    intros key Hkey. by apply sMembers_pipeline, Hgk.
Qed.

Lemma sMembers_removePhraseToken (phrase token key : jsstring) (k : nat)
    (st : Redis.db) :
  let keys := Hmac.idxKeys secret phrase k in
  Redis.sMembers key (Hmac.removePhraseToken secret phrase token k st).2
  = if decide (key ∈ Hmac.eq keys
                     :: Hmac.pres keys ++ Hmac.sufs keys ++ Hmac.gk keys)
    then Redis.sMembers key st ∖ {[token]}
    else Redis.sMembers key st.
Proof.
  cbn zeta. unfold Hmac.removePhraseToken. cbn [snd].
  change (Hmac.cleanupEmptyKeys ?keys ?s) with (Redis.cleanupEmptyKeys keys s).
  by rewrite sMembers_cleanupEmptyKeys, queue_foldl, sMembers_sRem_pipeline.
Qed.

Lemma no_empty_sets_removePhraseToken (phrase token : jsstring) (k : nat)
    (st : Redis.db) :
  no_empty_sets st ->
  no_empty_sets (Hmac.removePhraseToken secret phrase token k st).2.
Proof.
  intros Hst. unfold Hmac.removePhraseToken. cbn [snd].
  change (Hmac.cleanupEmptyKeys ?keys ?s) with (Redis.cleanupEmptyKeys keys s).
  assert (Hq : no_empty_sets
                 (Hmac.queue Redis.sRem (Hmac.idxKeys secret phrase k)
                    token st)).
  { rewrite queue_foldl. apply (no_empty_sets_foldl Redis.sRem); [|done].
    intros key st'. apply no_empty_sets_sRem. }
  by rewrite cleanupEmptyKeys_id.
Qed.

Lemma no_empty_sets_addPhraseToken (phrase token : jsstring) (k : nat)
    (st : Redis.db) :
  no_empty_sets st ->
  no_empty_sets (Hmac.addPhraseToken secret phrase token k st).2.
Proof.
  intros Hst. unfold Hmac.addPhraseToken. cbn [snd]. rewrite queue_foldl.
  apply (no_empty_sets_foldl Redis.sAdd); [|done].
  intros key st'. apply no_empty_sets_sAdd.
Qed.

(** X14. Round trip on the RedisHmacIndexer: when the token was under none
    of the phrase's keys, [addPhraseToken] followed by [removePhraseToken]
    of the same phrase and token gives back the store as it was, keys
    included. *)
Theorem add_remove_round_trip (phrase token : jsstring) (k : nat)
    (st : Redis.db) :
  let keys := Hmac.idxKeys secret phrase k in
  no_empty_sets st ->
  (forall key,
      key ∈ Hmac.eq keys :: Hmac.pres keys ++ Hmac.sufs keys ++ Hmac.gk keys ->
      token ∉ Redis.sMembers key st) ->
  (Hmac.removePhraseToken secret phrase token k
     (Hmac.addPhraseToken secret phrase token k st).2).2 = st.
Proof.
  cbn zeta. intros Hst Hfresh.
  apply no_empty_sets_eq; [|done|].
  { by apply no_empty_sets_removePhraseToken, no_empty_sets_addPhraseToken. }
  intros key. rewrite sMembers_removePhraseToken.
  unfold Hmac.addPhraseToken. cbn [snd].
  rewrite queue_foldl, sMembers_sAdd_pipeline.
  case_decide as Hin; [|done].
  specialize (Hfresh key Hin). apply leibniz_equiv. intros x.
  rewrite elem_of_difference, elem_of_union, !elem_of_singleton. split.
  - intros [[->|Hx] Hne]; done.
  - intros Hx. split; [by right|]. by intros ->.
Qed.

(** X15. [removePhraseToken(phrase, token)] takes the token out of every
    key of the phrase, whatever else was indexed: afterwards no lookup that
    matches the phrase returns the token, even one that also matches
    another phrase still indexed for the same token. *)
Theorem removePhraseToken_erases (phrase token q : jsstring) (k : nat)
    (st : Redis.db) :
  let st' := (Hmac.removePhraseToken secret phrase token k st).2 in
  (Hmac.norm q = Hmac.norm phrase -> token ∉ Hmac.equalsLookup secret q st')
  /\ (Hmac.norm q <> [] -> Hmac.norm q `prefix_of` Hmac.norm phrase ->
      token ∉ Hmac.startsWithLookup secret q st')
  /\ (Hmac.norm q <> [] ->
      reverse_string (Hmac.norm q)
        `prefix_of` reverse_string (Hmac.norm phrase) ->
      token ∉ Hmac.endsWithLookup secret q st')
  /\ (k <= length (Hmac.norm q) ->
      substring_of (Hmac.norm q) (Hmac.norm phrase) ->
      token ∉ Hmac.containsLookup secret q k st').
Proof.
  cbn zeta.
  destruct (hmac_lookup_keys phrase q k) as (Heq & Hpre & Hsuf & Hgk).
  assert (Hgone : forall key,
             key ∈ Hmac.eq (Hmac.idxKeys secret phrase k)
                   :: Hmac.pres (Hmac.idxKeys secret phrase k)
                   ++ Hmac.sufs (Hmac.idxKeys secret phrase k)
                   ++ Hmac.gk (Hmac.idxKeys secret phrase k) ->
             token ∉ Redis.sMembers key
                       (Hmac.removePhraseToken secret phrase token k st).2).
  { intros key Hkey. rewrite sMembers_removePhraseToken.
    rewrite decide_True by done. rewrite elem_of_difference, elem_of_singleton.
    by intros [_ ?]. }
  split; [|split; [|split]].
  - intros Hq. by apply Hgone, Heq.
  - intros Hne Hq. by apply Hgone, Hpre.
  - intros Hne Hq. by apply Hgone, Hsuf.
  - intros Hk Hq Hin. rewrite hmac_contains_elem in Hin by done.
    assert (Hg : take k (Hmac.norm q) ∈ Hmac.grams (Hmac.norm q) k).
    { apply hmac_grams_elem. split; [done|]. split.
      - rewrite length_take. lia.
      - exists [], (drop k (Hmac.norm q)). cbn [app]. by rewrite take_drop. }
    apply (list_elem_of_fmap_2
             (fun g => js "idx:g" ++ number_to_string k ++ js ":"
                         ++ Hmac.H secret g)) in Hg.
    by apply (Hgone _ (Hgk Hq _ Hg)), Hin.
Qed.

(** X16. [removePhraseToken(phrase, token)] leaves every other token where
    it was: whether another token is returned by a lookup is the same
    before and after. *)
Theorem removePhraseToken_keeps_others (phrase token other q : jsstring)
    (k k' : nat) (st : Redis.db) :
  other <> token ->
  let st' := (Hmac.removePhraseToken secret phrase token k st).2 in
  (other ∈ Hmac.equalsLookup secret q st'
   <-> other ∈ Hmac.equalsLookup secret q st)
  /\ (other ∈ Hmac.startsWithLookup secret q st'
      <-> other ∈ Hmac.startsWithLookup secret q st)
  /\ (other ∈ Hmac.endsWithLookup secret q st'
      <-> other ∈ Hmac.endsWithLookup secret q st)
  /\ (other ∈ Hmac.containsLookup secret q k' st'
      <-> other ∈ Hmac.containsLookup secret q k' st).
Proof.
  intros Hne. cbn zeta.
  assert (Hkeep : forall key,
             other ∈ Redis.sMembers key
                       (Hmac.removePhraseToken secret phrase token k st).2
             <-> other ∈ Redis.sMembers key st).
  { intros key. rewrite sMembers_removePhraseToken. case_decide; [|done].
    rewrite elem_of_difference, elem_of_singleton. tauto. }
  split; [apply Hkeep|]. split; [apply Hkeep|]. split; [apply Hkeep|].
  unfold Hmac.containsLookup. cbn zeta.
  destruct (length _ =? 0) eqn:Hlen; [done|].
  apply Nat.eqb_neq in Hlen.
  rewrite !elem_of_sInter_iff by (intros Hnil; by rewrite Hnil in Hlen).
  split; intros Hall key Hkey; by apply Hkeep, Hall.
Qed.

Lemma sMembers_addTokenPhrases (token phrase key : jsstring)
    (phrases : list jsstring) (k : nat) (st : Redis.db) :
  let keys := Hmac.idxKeys secret phrase k in
  phrase ∈ phrases ->
  key ∈ Hmac.eq keys :: Hmac.pres keys ++ Hmac.sufs keys ++ Hmac.gk keys ->
  token ∈ Redis.sMembers key (Hmac.addTokenPhrases secret token phrases k st).2.
Proof.
  cbn zeta. intros Hin Hkey. unfold Hmac.addTokenPhrases. cbn [snd].
  revert st. induction phrases as [|p phrases IH]; intros st;
    [by apply elem_of_nil in Hin|].
  cbn [foldl]. apply elem_of_cons in Hin as [<-|Hin]; [|by apply IH].
  assert (Hnow : token ∈ Redis.sMembers key
                   (Hmac.queue Redis.sAdd (Hmac.idxKeys secret phrase k)
                      token st))
    by (rewrite queue_foldl; by apply sMembers_pipeline).
  revert Hnow. generalize (Hmac.queue Redis.sAdd (Hmac.idxKeys secret phrase k)
                             token st).
  clear IH. induction phrases as [|p phrases IH]; intros st' Hst';
    cbn [foldl]; [done|].
  apply IH. rewrite queue_foldl. by apply sMembers_pipeline_mono.
Qed.

(** X17. [addTokenPhrases(token, phrases)] makes the token findable through
    every phrase of the batch: each lookup that matches one of the phrases
    once normalized returns the token. *)
Theorem addTokenPhrases_covers (token phrase q : jsstring)
    (phrases : list jsstring) (k : nat) (st : Redis.db) :
  phrase ∈ phrases ->
  let st' := (Hmac.addTokenPhrases secret token phrases k st).2 in
  (Hmac.norm q = Hmac.norm phrase -> token ∈ Hmac.equalsLookup secret q st')
  /\ (Hmac.norm q <> [] -> Hmac.norm q `prefix_of` Hmac.norm phrase ->
      token ∈ Hmac.startsWithLookup secret q st')
  /\ (Hmac.norm q <> [] ->
      reverse_string (Hmac.norm q)
        `prefix_of` reverse_string (Hmac.norm phrase) ->
      token ∈ Hmac.endsWithLookup secret q st')
  /\ (k <= length (Hmac.norm q) ->
      substring_of (Hmac.norm q) (Hmac.norm phrase) ->
      token ∈ Hmac.containsLookup secret q k st').
Proof.
  intros Hin. cbn zeta.
  destruct (hmac_lookup_keys phrase q k) as (Heq & Hpre & Hsuf & Hgk).
  split; [|split; [|split]].
  - intros Hq. by apply (sMembers_addTokenPhrases token phrase), Heq.
  - intros Hne Hq. by apply (sMembers_addTokenPhrases token phrase), Hpre.
  - intros Hne Hq. by apply (sMembers_addTokenPhrases token phrase), Hsuf.
  - intros Hk Hq. apply hmac_contains_elem; [done|].
    intros key Hkey. by apply (sMembers_addTokenPhrases token phrase), Hgk.
Qed.

End HmacIndexer.

Section HmacExamples.

#[local] Existing Instance fragment_runtime.

Lemma cleanupEmptyKeys_redundant_example :
  let st := redis_after example_secret example_indexings in
  let keys :=
    Redis.generateAllIndexKeys example_secret (js "fn") (js "Arjun") 3 in
  no_empty_sets st
  /\ Redis.cleanupEmptyKeys keys st = st
  /\ Hmac.cleanupEmptyKeys keys st = st.
Proof.
  cbn zeta.
  assert (Hst : no_empty_sets (redis_after example_secret example_indexings))
    by apply no_empty_sets_redis_after.
  split; [exact Hst|].
  exact (cleanupEmptyKeys_redundant _ _ Hst).
Defined.

Lemma addPhraseToken_covers_example :
  Hmac.norm (js "RJU") <> []
  /\ 3 <= length (Hmac.norm (js "RJU"))
  /\ substring_of (Hmac.norm (js "RJU")) (Hmac.norm (js "Arjun"))
  /\ js "T2" ∈ Hmac.containsLookup example_secret (js "RJU") 3
                 (Hmac.addPhraseToken example_secret (js "Arjun") (js "T2")
                    3 ∅).2.
Proof.
  assert (Hk : 3 <= length (Hmac.norm (js "RJU"))) by (vm_compute; lia).
  assert (Hsub : substring_of (Hmac.norm (js "RJU")) (Hmac.norm (js "Arjun")))
    by (exists (js "a"), (js "n"); by vm_compute).
  split; [by vm_compute|]. split; [exact Hk|]. split; [exact Hsub|].
  exact (proj2 (proj2 (proj2
           (addPhraseToken_covers example_secret (js "Arjun") (js "T2")
              (js "RJU") 3 ∅))) Hk Hsub).
Defined.

Lemma add_remove_round_trip_example :
  let st := (Hmac.addPhraseToken example_secret (js "ac") (js "T1") 3 ∅).2 in
  let keys := Hmac.idxKeys example_secret (js "ab") 3 in
  no_empty_sets st
  /\ (forall key,
        key ∈ Hmac.eq keys :: Hmac.pres keys ++ Hmac.sufs keys ++ Hmac.gk keys ->
        js "T2" ∉ Redis.sMembers key st)
  /\ (Hmac.removePhraseToken example_secret (js "ab") (js "T2") 3
        (Hmac.addPhraseToken example_secret (js "ab") (js "T2") 3 st).2).2
     = st.
Proof.
  cbn zeta.
  assert (Hst : no_empty_sets
                  (Hmac.addPhraseToken example_secret (js "ac") (js "T1") 3
                     ∅).2)
    by apply no_empty_sets_addPhraseToken, no_empty_sets_empty.
  assert (Hfresh : forall key,
             key ∈ Hmac.eq (Hmac.idxKeys example_secret (js "ab") 3)
                   :: Hmac.pres (Hmac.idxKeys example_secret (js "ab") 3)
                   ++ Hmac.sufs (Hmac.idxKeys example_secret (js "ab") 3)
                   ++ Hmac.gk (Hmac.idxKeys example_secret (js "ab") 3) ->
             js "T2" ∉ Redis.sMembers key
                         (Hmac.addPhraseToken example_secret (js "ac")
                            (js "T1") 3 ∅).2).
  { apply Forall_forall, (bool_decide_unpack _). by vm_compute. }
  split; [exact Hst|]. split; [exact Hfresh|].
  exact (add_remove_round_trip example_secret (js "ab") (js "T2") 3 _
           Hst Hfresh).
Defined.

Lemma removePhraseToken_erases_example :
  let st :=
    (Hmac.addPhraseToken example_secret (js "ac") (js "T") 3
       (Hmac.addPhraseToken example_secret (js "ab") (js "T") 3 ∅).2).2 in
  let st' := (Hmac.removePhraseToken example_secret (js "ab") (js "T") 3 st).2 in
  Hmac.norm (js "A") <> []
  /\ Hmac.norm (js "A") `prefix_of` Hmac.norm (js "ab")
  /\ Hmac.norm (js "A") `prefix_of` Hmac.norm (js "ac")
  /\ js "T" ∈ Hmac.equalsLookup example_secret (js "ac") st'
  /\ (js "T" ∉ Hmac.startsWithLookup example_secret (js "A") st').
Proof.
  cbn zeta.
  assert (Hne : Hmac.norm (js "A") <> []) by by vm_compute.
  assert (Hpre : Hmac.norm (js "A") `prefix_of` Hmac.norm (js "ab"))
    by (exists (js "b"); by vm_compute).
  split; [exact Hne|]. split; [exact Hpre|].
  split; [exists (js "c"); by vm_compute|].
  split; [apply (bool_decide_unpack _); by vm_compute|].
  exact (proj1 (proj2
           (removePhraseToken_erases example_secret (js "ab") (js "T")
              (js "A") 3 _)) Hne Hpre).
Defined.

Lemma removePhraseToken_keeps_others_example :
  let st :=
    (Hmac.addPhraseToken example_secret (js "ab") (js "T2") 3
       (Hmac.addPhraseToken example_secret (js "ab") (js "T1") 3 ∅).2).2 in
  let st' := (Hmac.removePhraseToken example_secret (js "ab") (js "T1") 3 st).2 in
  js "T2" <> js "T1"
  /\ js "T2" ∈ Hmac.equalsLookup example_secret (js "AB") st
  /\ js "T2" ∈ Hmac.equalsLookup example_secret (js "AB") st'.
Proof.
  cbn zeta.
  assert (Hne : js "T2" <> js "T1") by by vm_compute.
  assert (Hin : js "T2" ∈ Hmac.equalsLookup example_secret (js "AB")
                  (Hmac.addPhraseToken example_secret (js "ab") (js "T2") 3
                     (Hmac.addPhraseToken example_secret (js "ab") (js "T1")
                        3 ∅).2).2)
    by (apply (bool_decide_unpack _); by vm_compute).
  split; [exact Hne|]. split; [exact Hin|].
  exact (proj2 (proj1
           (removePhraseToken_keeps_others example_secret (js "ab") (js "T1")
              (js "T2") (js "AB") 3 3 _ Hne)) Hin).
Defined.

Lemma addTokenPhrases_covers_example :
  js "Arnav" ∈ [js "Arjun"; js "Arnav"]
  /\ Hmac.norm (js "AR") <> []
  /\ Hmac.norm (js "AR") `prefix_of` Hmac.norm (js "Arnav")
  /\ js "T7" ∈ Hmac.startsWithLookup example_secret (js "AR")
                 (Hmac.addTokenPhrases example_secret (js "T7")
                    [js "Arjun"; js "Arnav"] 3 ∅).2.
Proof.
  assert (Hin : js "Arnav" ∈ [js "Arjun"; js "Arnav"])
    by (apply (bool_decide_unpack _); by vm_compute).
  assert (Hne : Hmac.norm (js "AR") <> []) by by vm_compute.
  assert (Hpre : Hmac.norm (js "AR") `prefix_of` Hmac.norm (js "Arnav"))
    by (exists (js "nav"); by vm_compute).
  split; [exact Hin|]. split; [exact Hne|]. split; [exact Hpre|].
  exact (proj1 (proj2
           (addTokenPhrases_covers example_secret (js "T7") (js "Arnav")
              (js "AR") _ 3 ∅ Hin)) Hne Hpre).
Defined.

End HmacExamples.

(** ** Maintenance of the relational index *)

Lemma selected_cleanupExpiredEntries (keys : list jsstring) (now now' : Z)
    (t : Pg.table) :
  (now <= now')%Z ->
  DbSearch.selected keys now' (DbMaintenance.cleanupExpiredEntries now t).2
  = DbSearch.selected keys now' t.
Proof.
  intros Hle. unfold DbSearch.selected, DbMaintenance.cleanupExpiredEntries.
  cbn [snd]. rewrite map_filter_filter. apply map_filter_ext.
  intros key r _. cbn [fst snd]. split; [tauto|].
  intros [Hk Hlive]. split; [done|]. lia.
Qed.

Lemma searchTokensInIndex_cleanupExpiredEntries (keys : list jsstring)
    (now now' : Z) (t : Pg.table) :
  (now <= now')%Z ->
  DbSearch.searchTokensInIndex keys now'
    (DbMaintenance.cleanupExpiredEntries now t).2
  = DbSearch.searchTokensInIndex keys now' t.
Proof.
  intros Hle. unfold DbSearch.searchTokensInIndex.
  destruct keys; [done|]. by rewrite selected_cleanupExpiredEntries.
Qed.

Section Maintenance.

Context {R : Runtime}.

Variable hmacSecret : jsstring.

(** X18. [cleanupExpiredEntries] run at time [now] changes no answer given
    at [now] or later on the table it has cleaned, as long as nothing is
    indexed in between: [search], [executeComplexQuery] and [performSearch]
    return on the cleaned table what they return on the table as it
    was. *)
Theorem cleanup_preserves_answers (now now' : Z) (t : Pg.table) :
  (now <= now')%Z ->
  let t' := (DbMaintenance.cleanupExpiredEntries now t).2 in
  (forall fieldName op q K,
      DbSearch.search hmacSecret fieldName op q K now' t'
      = DbSearch.search hmacSecret fieldName op q K now' t)
  /\ (forall queryConditions operator,
        DbSearch.executeComplexQuery hmacSecret queryConditions operator
          now' t'
        = DbSearch.executeComplexQuery hmacSecret queryConditions operator
            now' t)
  /\ (forall config query fieldType queryType,
        DbSearch.performSearch hmacSecret config query fieldType queryType
          now' t'
        = DbSearch.performSearch hmacSecret config query fieldType queryType
            now' t).
Proof.
  intros Hle. cbn zeta.
  assert (Hsearch : forall fieldName op q K,
             DbSearch.search hmacSecret fieldName op q K now'
               (DbMaintenance.cleanupExpiredEntries now t).2
             = DbSearch.search hmacSecret fieldName op q K now' t).
  { intros fieldName op q K. unfold DbSearch.search.
    destruct (DbSearch.keysFor _ _ _ _ _) as [|k1 [|k2 ks]]; [done| |].
    - by rewrite searchTokensInIndex_cleanupExpiredEntries.
    - cbn zeta.
      replace (map (fun k => DbSearch.searchTokensInIndex [k] now'
                               (DbMaintenance.cleanupExpiredEntries now t).2)
                   (k1 :: k2 :: ks))
        with (map (fun k => DbSearch.searchTokensInIndex [k] now' t)
                  (k1 :: k2 :: ks)); [done|].
      apply map_ext. intros k.
      by rewrite searchTokensInIndex_cleanupExpiredEntries. }
  split; [done|]. split.
  - intros queryConditions operator. unfold DbSearch.executeComplexQuery.
    assert (Hsets : DbSearch.resultSetsOf hmacSecret queryConditions now'
                      (DbMaintenance.cleanupExpiredEntries now t).2
                    = DbSearch.resultSetsOf hmacSecret queryConditions now' t).
    { induction queryConditions as [|c conds IH];
        cbn [DbSearch.resultSetsOf]; [done|].
      rewrite IH. unfold DbSearch.evalCondition,
        DbSearch.searchFieldEquals, DbSearch.searchFieldStartsWith,
        DbSearch.searchFieldEndsWith, DbSearch.searchFieldContains.
      by rewrite !Hsearch. }
    by rewrite Hsets.
  - intros config query fieldType queryType. unfold DbSearch.performSearch.
    by rewrite Hsearch.
Qed.

End Maintenance.

(** X19. [cleanupExpiredEntries] splits the table: the rows it keeps are
    those with [retention_until >= now], unchanged; the count it returns is
    the number of rows it removed; a second run at the same time removes
    nothing.  A row with [retention_until = now] is kept although no search
    at [now] selects it. *)
Theorem cleanup_partition (now : Z) (t : Pg.table) :
  let result := DbMaintenance.cleanupExpiredEntries now t in
  (forall key r,
      result.2 !! key = Some r
      <-> t !! key = Some r /\ (now <= Pg.retention_until r)%Z)
  /\ result.1 + size result.2 = size t
  /\ DbMaintenance.cleanupExpiredEntries now result.2 = (0, result.2)
  /\ (forall key r keys,
        t !! key = Some r -> Pg.retention_until r = now ->
        result.2 !! key = Some r
        /\ DbSearch.selected keys now result.2 !! key = None).
Proof.
  cbn zeta. unfold DbMaintenance.cleanupExpiredEntries. cbn [fst snd].
  split; [|split; [|split]].
  - intros key r. rewrite map_lookup_filter_Some. cbn [snd].
    split; intros [? ?]; (split; [done|lia]).
  - rewrite <- map_size_disj_union
      by apply (map_disjoint_filter_complement
                  (fun kr : jsstring * Pg.row =>
                     (Pg.retention_until kr.2 < now)%Z)).
    by rewrite (map_filter_union_complement
                  (fun kr : jsstring * Pg.row =>
                     (Pg.retention_until kr.2 < now)%Z)).
  - f_equal.
    + apply map_size_empty_iff, map_empty_filter.
      intros key r Hr%map_lookup_filter_Some. cbn [snd] in *. tauto.
    + apply map_filter_id.
      intros key r Hr%map_lookup_filter_Some. cbn [snd] in *. tauto.
  - intros key r keys Hlook Hret. split.
    + apply map_lookup_filter_Some. cbn [snd]. split; [done|lia].
    + apply map_lookup_filter_None. right. intros r' Hr' [_ Hlive].
      apply map_lookup_filter_Some in Hr' as [Hr' _].
      cbn [snd] in Hlive. rewrite Hlook in Hr'. injection Hr' as <-. lia.
Qed.

Section MaintenanceExamples.

#[local] Existing Instance fragment_runtime.

Lemma cleanup_preserves_answers_example :
  let t := table_after example_secret example_indexings in
  let now := (DbIndexer.one_year + 1)%Z in
  let t' := (DbMaintenance.cleanupExpiredEntries now t).2 in
  (now <= now + 2)%Z
  /\ (DbMaintenance.cleanupExpiredEntries now t).1 = 12
  /\ size t' < size t
  /\ DbSearch.search example_secret (js "FIRST_NAME") (js "startsWith")
       (js "Ar") 3 (now + 2) t = Returned {[js "T2"; js "T3"]}
  /\ DbSearch.search example_secret (js "FIRST_NAME") (js "startsWith")
       (js "Ar") 3 (now + 2) t'
     = DbSearch.search example_secret (js "FIRST_NAME") (js "startsWith")
         (js "Ar") 3 (now + 2) t.
Proof.
  cbn zeta.
  assert (Hle : (DbIndexer.one_year + 1 <= DbIndexer.one_year + 1 + 2)%Z)
    by lia.
  split; [exact Hle|]. split; [by vm_compute|].
  split; [vm_compute; lia|]. split; [by vm_compute|].
  exact (proj1 (cleanup_preserves_answers example_secret _ _
                  (table_after example_secret example_indexings) Hle)
           (js "FIRST_NAME") (js "startsWith") (js "Ar") 3).
Defined.

(** What is indexed after the cleanup may be answered differently.  The
    row of the prefix ["ar"] of the first name lists ["T2"] and is expired
    at a year and a millisecond.  Indexed at that time for another first
    name with the same prefix, the row is updated and live again with both
    references; after a cleanup it is created anew with the new reference
    alone. *)
Lemma cleanup_then_index_differs :
  let t :=
    (DbIndexer.indexFieldValue example_secret (js "FIRST_NAME") (js "Arjun")
       (js "T2") 0 ∅).2 in
  let now := (DbIndexer.one_year + 1)%Z in
  let index t0 :=
    (DbIndexer.indexFieldValue example_secret (js "FIRST_NAME") (js "Arnav")
       (js "T3") now t0).2 in
  DbSearch.search example_secret (js "FIRST_NAME") (js "startsWith")
    (js "Ar") 3 now t = Returned ∅
  /\ DbSearch.search example_secret (js "FIRST_NAME") (js "startsWith")
       (js "Ar") 3 now (index t) = Returned {[js "T2"; js "T3"]}
  /\ DbSearch.search example_secret (js "FIRST_NAME") (js "startsWith")
       (js "Ar") 3 now
       (index (DbMaintenance.cleanupExpiredEntries now t).2)
     = Returned {[js "T3"]}.
Proof. by vm_compute. Qed.

End MaintenanceExamples.

(** ** Rows under further indexing *)

Lemma split_on_app (d : N) (acc a b : jsstring) :
  Pg.split_on d acc (a ++ d :: b)
  = Pg.split_on d acc a ++ Pg.split_on d [] b.
Proof.
  revert acc. induction a as [|c a IH]; intros acc; cbn [app Pg.split_on].
  - by rewrite N.eqb_refl.
  - destruct (c =? d)%N; [|by apply IH]. cbn [app]. f_equal. apply IH.
Qed.

Lemma row_tokens_extended (r r' : Pg.row) (s : jsstring) :
  Pg.token_set r' = Pg.token_set r ++ js "," ++ s ->
  DbSearch.row_tokens r ⊆ DbSearch.row_tokens r'.
Proof.
  intros Hset x. unfold DbSearch.row_tokens, Pg.string_to_array.
  rewrite Hset. destruct (Pg.token_set r) as [|c a] eqn:Ha.
  { cbn [map]. rewrite filter_nil. by intros ?%elem_of_nil. }
  change ((c :: a) ++ js "," ++ s) with (c :: (a ++ 0x2C%N :: s)).
  rewrite !list_elem_of_filter, !list_elem_of_fmap.
  intros [Hx (piece & -> & Hpiece)]. split; [done|].
  exists piece. split; [done|].
  change (c :: (a ++ 0x2C%N :: s)) with ((c :: a) ++ 0x2C%N :: s).
  rewrite split_on_app. apply elem_of_app. by left.
Qed.

(** What a row may become when tokens are added under its key. *)
Lemma upsert_extends (key token fieldType : jsstring)
    (retention now : Z) (t : Pg.table) (k : jsstring) (r : Pg.row) :
  t !! k = Some r ->
  exists r',
    DbIndexer.upsert key token fieldType retention now t !! k = Some r'
    /\ Pg.field_type r' = Pg.field_type r
    /\ Pg.created_at r' = Pg.created_at r
    /\ (Pg.retention_until r <= Pg.retention_until r')%Z
    /\ (Pg.token_set r' = Pg.token_set r
        \/ exists s, Pg.token_set r' = Pg.token_set r ++ js "," ++ s).
Proof.
  intros Hr. destruct (decide (key = k)) as [->|Hne].
  - rewrite (upsert_updated _ _ _ _ _ _ r Hr). eexists.
    split; [done|]. cbn [Pg.field_type Pg.created_at Pg.retention_until
                          Pg.token_set].
    split; [done|]. split; [done|]. split; [lia|].
    destruct (Pg.like _ _); [by left|]. right. by exists token.
  - rewrite upsert_other by done. exists r.
    split; [done|]. split; [done|]. split; [done|]. split; [lia|by left].
Qed.

Lemma pipeline_extends (keys : list jsstring) (token fieldType : jsstring)
    (retention now : Z) (t : Pg.table) (k : jsstring) (r : Pg.row) :
  t !! k = Some r ->
  exists r',
    foldl (fun t' key =>
             DbIndexer.upsert key token fieldType retention now t')
          t keys !! k = Some r'
    /\ Pg.field_type r' = Pg.field_type r
    /\ Pg.created_at r' = Pg.created_at r
    /\ (Pg.retention_until r <= Pg.retention_until r')%Z
    /\ (Pg.token_set r' = Pg.token_set r
        \/ exists s, Pg.token_set r' = Pg.token_set r ++ js "," ++ s).
Proof.
  revert t r. induction keys as [|key keys IH]; intros t r Hr; cbn [foldl].
  - exists r. split; [done|]. split; [done|]. split; [done|].
    split; [lia|by left].
  - destruct (upsert_extends key token fieldType retention now t k r Hr)
      as (r1 & Hr1 & Hf1 & Hc1 & Hret1 & Hset1).
    destruct (IH _ r1 Hr1) as (r' & Hr' & Hf & Hc & Hret & Hset).
    exists r'. split; [done|]. split; [congruence|]. split; [congruence|].
    split; [lia|].
    destruct Hset1 as [Hs1|[s1 Hs1]], Hset as [Hs|[s Hs]].
    + left. congruence.
    + right. exists s. congruence.
    + right. exists s1. congruence.
    + right. exists (s1 ++ js "," ++ s). rewrite Hs, Hs1.
      by rewrite <- !(assoc_L (++)).
Qed.

Section Rows.

Context {R : Runtime}.

Variable hmacSecret : jsstring.

(** A refused call leaves the row as it is, an accepted one extends it. *)
Lemma indexFieldValue_extends (fieldName value token : jsstring)
    (now : Z) (t : Pg.table) (key : jsstring) (r : Pg.row) :
  t !! key = Some r ->
  exists r',
    (DbIndexer.indexFieldValue hmacSecret fieldName value token now t).2
      !! key = Some r'
    /\ Pg.field_type r' = Pg.field_type r
    /\ Pg.created_at r' = Pg.created_at r
    /\ (Pg.retention_until r <= Pg.retention_until r')%Z
    /\ (Pg.token_set r' = Pg.token_set r
        \/ exists s, Pg.token_set r' = Pg.token_set r ++ js "," ++ s).
Proof.
  intros Hr.
  destruct (indexFieldValue_table hmacSecret fieldName value)
    as [[e He]|(keys' & fieldType & Hk)].
  - rewrite He. cbn [snd]. exists r.
    split; [done|]. split; [done|]. split; [done|]. split; [lia|by left].
  - rewrite Hk. cbn [snd]. by apply pipeline_extends.
Qed.

Lemma indexFieldValue_extends_rows_aux (fieldName value token : jsstring)
    (now : Z) (t : Pg.table) (key : jsstring) (r : Pg.row) :
  t !! key = Some r ->
  exists r',
    (DbIndexer.indexFieldValue hmacSecret fieldName value token now t).2
      !! key = Some r'
    /\ (Pg.retention_until r <= Pg.retention_until r')%Z
    /\ DbSearch.row_tokens r ⊆ DbSearch.row_tokens r'.
Proof.
  intros Hr.
  destruct (indexFieldValue_extends fieldName value token now t key r Hr)
    as (r' & Hr' & Hf & Hc & Hret & Hset).
  exists r'. do 2 (split; [done|]).
  destruct Hset as [Hs|[s Hs]].
  - unfold DbSearch.row_tokens. by rewrite Hs.
  - by apply (row_tokens_extended r r' s).
Qed.

(** X20. The relational [indexFieldValue] never rewrites what a row was
    created with: a row present before the call is present after it with
    the [field_type] and [created_at] of its first writer, a
    [retention_until] that is no earlier, a [token_set] that is the old one
    or the old one followed by a comma and more, and every token it listed
    still listed. *)
Theorem indexFieldValue_extends_rows (fieldName value token : jsstring)
    (now : Z) (t : Pg.table) (key : jsstring) (r : Pg.row) :
  t !! key = Some r ->
  exists r',
    (DbIndexer.indexFieldValue hmacSecret fieldName value token now t).2
      !! key = Some r'
    /\ Pg.field_type r' = Pg.field_type r
    /\ Pg.created_at r' = Pg.created_at r
    /\ (Pg.retention_until r <= Pg.retention_until r')%Z
    /\ (Pg.token_set r' = Pg.token_set r
        \/ exists s, Pg.token_set r' = Pg.token_set r ++ js "," ++ s)
    /\ DbSearch.row_tokens r ⊆ DbSearch.row_tokens r'.
Proof.
  intros Hr.
  destruct (indexFieldValue_extends fieldName value token now t key r Hr)
    as (r' & Hr' & Hf & Hc & Hret & Hset).
  exists r'. do 5 (split; [done|]).
  destruct Hset as [Hs|[s Hs]].
  - unfold DbSearch.row_tokens. by rewrite Hs.
  - by apply (row_tokens_extended r r' s).
Qed.

Lemma searchTokensInIndex_monotone (keys : list jsstring) (now time : Z)
    (fieldName value token : jsstring) (t : Pg.table) :
  DbSearch.searchTokensInIndex keys now t
  ⊆ DbSearch.searchTokensInIndex keys now
      (DbIndexer.indexFieldValue hmacSecret fieldName value token time t).2.
Proof.
  intros x (key & r & Hr & Hkey & Hlive & Hx)%elem_of_searchTokensInIndex.
  destruct (indexFieldValue_extends_rows_aux fieldName value token time t
              key r Hr) as (r' & Hr' & Hret & Hsub).
  apply elem_of_searchTokensInIndex. exists key, r'.
  split; [done|]. split; [done|]. split; [lia|]. by apply Hsub.
Qed.

(** X21. A relational [indexFieldValue] call, at whatever time, never
    removes a token from the answer of a [search] asked at a given time:
    the answer on the table after the call includes the answer before
    it. *)
Theorem db_search_monotone (fieldName op q : jsstring) (K : nat) (now : Z)
    (fieldName' value token : jsstring) (time : Z) (t : Pg.table) :
  exists before after,
    DbSearch.search hmacSecret fieldName op q K now t = Returned before
    /\ DbSearch.search hmacSecret fieldName op q K now
         (DbIndexer.indexFieldValue hmacSecret fieldName' value token time
            t).2
       = Returned after
    /\ before ⊆ after.
Proof.
  unfold DbSearch.search.
  destruct (DbSearch.keysFor _ _ _ _ _) as [|k1 [|k2 ks]].
  - by exists ∅, ∅.
  - eexists _, _. split; [done|]. split; [done|].
    apply searchTokensInIndex_monotone.
  - eexists _, _. split; [done|]. split; [done|]. cbn zeta.
    rewrite !(map_cons _ k1 (k2 :: ks)). cbn [hd tl].
    intros x. rewrite !elem_of_foldl_intersection_sets.
    intros [Hfirst Hrest]. split; [by apply searchTokensInIndex_monotone|].
    intros s (k & -> & Hk)%list_elem_of_fmap.
    apply searchTokensInIndex_monotone, Hrest.
    by apply (list_elem_of_fmap_2
                (fun key => DbSearch.searchTokensInIndex [key] now t)).
Qed.

End Rows.

Section RowExamples.

#[local] Existing Instance fragment_runtime.

Lemma indexFieldValue_extends_rows_example :
  let t :=
    (DbIndexer.indexFieldValue example_secret (js "FIRST_NAME") (js "Arjun")
       (js "T2") 0 ∅).2 in
  let key := DbIndexer.indexKey example_secret (js "fn") (js "pre") (js "ar") in
  let r := {| Pg.token_set := js "T2"; Pg.field_type := js "FIRST_NAME";
              Pg.created_at := 0;
              Pg.retention_until := DbIndexer.one_year |} in
  let r' := {| Pg.token_set := js "T2,T3"; Pg.field_type := js "FIRST_NAME";
               Pg.created_at := 0;
               Pg.retention_until := 5 + DbIndexer.one_year |} in
  t !! key = Some r
  /\ (DbIndexer.indexFieldValue example_secret (js "first_name") (js "Arnav")
        (js "T3") 5 t).2 !! key = Some r'
  /\ exists r'',
       (DbIndexer.indexFieldValue example_secret (js "first_name")
          (js "Arnav") (js "T3") 5 t).2 !! key = Some r''
       /\ Pg.field_type r'' = Pg.field_type r.
Proof.
  cbn zeta.
  match goal with
  | |- ?H /\ _ => assert (Hr : H) by by vm_compute
  end.
  split; [exact Hr|]. split; [by vm_compute|].
  destruct (indexFieldValue_extends_rows example_secret (js "first_name")
              (js "Arnav") (js "T3") 5 _ _ _ Hr)
    as (r'' & Hr'' & Hf & _).
  exists r''. split; [exact Hr''|exact Hf].
Defined.

End RowExamples.

(** ** Field detection *)

Lemma split_on_nonempty (d : N) (acc s : jsstring) : Pg.split_on d acc s <> [].
Proof.
  revert acc. induction s as [|c s IH]; intros acc; cbn [Pg.split_on]; [done|].
  destruct (c =? d)%N; [done|apply IH].
Qed.

Lemma join_cons (separator p : jsstring) (rest : list jsstring) :
  rest <> [] -> join separator (p :: rest) = p ++ separator ++ join separator rest.
Proof. by destruct rest. Qed.

(** Splitting at a separator and joining with it gives the string back. *)
Lemma join_split_on (d : N) (acc s : jsstring) :
  join [d] (Pg.split_on d acc s) = rev acc ++ s.
Proof.
  revert acc. induction s as [|c s IH]; intros acc; cbn [Pg.split_on].
  - cbn [join]. by rewrite app_nil_r.
  - destruct (N.eqb_spec c d) as [->|Hne].
    + rewrite join_cons by apply split_on_nonempty. by rewrite IH.
    + rewrite IH. cbn [rev]. by rewrite <- (assoc_L (++)).
Qed.

Lemma join_split (d : N) (s : jsstring) : join [d] (split d s) = s.
Proof. unfold split. by rewrite join_split_on. Qed.

Lemma split_piece (d : N) (x : jsstring) : d ∉ x -> split d x = [x].
Proof.
  intros Hd. unfold split. rewrite <- (app_nil_r x) at 1.
  rewrite split_on_field by done. cbn [Pg.split_on].
  by rewrite app_nil_r, rev_involutive.
Qed.

Lemma split_two_pieces (d : N) (a b rest : jsstring) :
  d ∉ a -> d ∉ b ->
  split d (a ++ d :: b ++ d :: rest) = a :: b :: split d rest.
Proof.
  intros Ha Hb. unfold split. rewrite split_on_app.
  change (Pg.split_on d [] a) with (split d a). rewrite split_piece by done.
  cbn [app]. f_equal. rewrite split_on_app.
  change (Pg.split_on d [] b) with (split d b). by rewrite split_piece.
Qed.

Section Detection.

Context {R : Runtime}.

Lemma fieldTypeOfToken_suffix (a b fieldType : jsstring) :
  0x5F%N ∉ a -> 0x5F%N ∉ b ->
  fieldType ∈ DbRecords.validFieldTypes ->
  DbRecords.fieldTypeOfToken (Some (a ++ js "_" ++ b ++ js "_" ++ fieldType))
  = Some fieldType.
Proof.
  intros Ha Hb Hft. unfold DbRecords.fieldTypeOfToken.
  change (a ++ js "_" ++ b ++ js "_" ++ fieldType)
    with (a ++ 0x5F%N :: b ++ 0x5F%N :: fieldType).
  destruct (a ++ 0x5F%N :: b ++ 0x5F%N :: fieldType) as [|c token] eqn:Htoken;
    [by destruct a|].
  cbn zeta. rewrite <- Htoken, !split_two_pieces by done.
  assert (Hlen : 3 <= length (a :: b :: split 0x5F fieldType)).
  { cbn [length]. pose proof (split_on_nonempty 0x5F [] fieldType) as Hne.
    unfold split. destruct (Pg.split_on _ _ _); [done|]. cbn [length]. lia. }
  apply Nat.leb_le in Hlen. rewrite Hlen. cbn [drop].
  change (js "_") with [0x5F%N]. rewrite drop_0, join_split.
  by rewrite bool_decide_eq_true_2.
Qed.

(** X22. The tokens the data generator writes carry their field type to
    the indexer: for a base token [TKN_] plus an alphanumeric random part
    and any field type the generator uses, [determineFieldName] returns
    that field type from the token [`${baseToken}_${type}`], whatever the
    decrypted value looks like. *)
Theorem determineFieldName_of_generated_token
    (decryptedValue randomPart fieldType : jsstring) :
  Forall (fun c => Generator.is_upper_alphanumeric c = true) randomPart ->
  fieldType ∈ Generator.field_types ->
  DbRecords.determineFieldName decryptedValue
    (Some (Generator.fieldToken (Generator.generateToken randomPart)
             fieldType))
  = fieldType.
Proof.
  intros Hrandom Hft. unfold DbRecords.determineFieldName,
    Generator.fieldToken, Generator.generateToken.
  rewrite <- (assoc_L (++)).
  change (js "TKN_" ++ randomPart ++ js "_" ++ fieldType)
    with (js "TKN" ++ js "_" ++ randomPart ++ js "_" ++ fieldType).
  rewrite fieldTypeOfToken_suffix; [done| | |].
  - apply (bool_decide_unpack _). by vm_compute.
  - intros Hin. rewrite Forall_forall in Hrandom.
    by specialize (Hrandom _ Hin).
  - unfold Generator.field_types in Hft.
    repeat (apply elem_of_cons in Hft as [->|Hft];
            [apply (bool_decide_unpack _); by vm_compute|]).
    by apply elem_of_nil in Hft.
Qed.

(** X23. Without a field type in the token, [determineFieldName] answers
    from the value alone and only ever with one of nine names: LAST_NAME,
    MIDDLE_NAME, DATE_OF_BIRTH, CITY and COUNTRY are never detected. *)
Theorem determineFieldName_fallback_range (decryptedValue : jsstring)
    (token : option jsstring) :
  DbRecords.fieldTypeOfToken token = None ->
  DbRecords.determineFieldName decryptedValue token
    ∈ [ js "EMAIL"; js "MOBILE_NUMBER"; js "PAN_CARD"; js "PASSPORT_NUMBER";
        js "CREDIT_CARD"; js "SSN"; js "ADDRESS"; js "FIRST_NAME";
        js "FULL_NAME" ].
Proof.
  intros Htoken. unfold DbRecords.determineFieldName. rewrite Htoken.
  cbn zeta.
  repeat match goal with
         | |- context [if ?b then _ else _] => destruct b
         end;
    apply (bool_decide_unpack _); by vm_compute.
Qed.

(** X24. [determineFieldId] and [determineFieldName] run the same tests:
    without a field type in the token, the id of the detected name in
    [FIELD_IDS] is the detected id, except that the name FULL_NAME has no
    entry in [FIELD_IDS] (the id is then that of NAME). *)
Theorem determineFieldId_consistent (decryptedValue : jsstring)
    (token : option jsstring) :
  DbRecords.fieldTypeOfToken token = None ->
  field_id FIELD_IDS (DbRecords.determineFieldName decryptedValue token)
  = Some (DbRecords.determineFieldId decryptedValue)
  \/ (DbRecords.determineFieldName decryptedValue token = js "FULL_NAME"
      /\ field_id FIELD_IDS (js "FULL_NAME") = None
      /\ DbRecords.determineFieldId decryptedValue = 3%Z).
Proof.
  intros Htoken.
  unfold DbRecords.determineFieldName, DbRecords.determineFieldId.
  rewrite Htoken. cbn zeta.
  repeat match goal with
         | |- context [if ?b then _ else _] => destruct b
         end;
    first [ left; by vm_compute | right; by vm_compute ].
Qed.

(** X27. The address test comes before the name test: without a field
    type in the token, a value is named FULL_NAME only if it has at most
    ten code units or no U+0020 (a longer name with a space is filed as
    ADDRESS), consists of letters and whitespace, and holds two words or
    more. *)
Theorem full_name_only_when_short (decryptedValue : jsstring)
    (token : option jsstring) :
  DbRecords.fieldTypeOfToken token = None ->
  DbRecords.determineFieldName decryptedValue token = js "FULL_NAME" ->
  (0x20%N ∈ toLowerCase decryptedValue ->
   length (toLowerCase decryptedValue) <= 10)
  /\ name_pattern decryptedValue = true
  /\ 2 <= length (split_whitespace [] false
                    (trim (toLowerCase decryptedValue))).
Proof.
  intros Htoken. unfold DbRecords.determineFieldName. rewrite Htoken.
  cbn zeta. set (value := toLowerCase decryptedValue).
  assert (Hother : forall name : jsstring,
             length name <> 9 -> name = js "FULL_NAME" ->
             (0x20%N ∈ value -> length value <= 10)
             /\ name_pattern decryptedValue = true
             /\ 2 <= length (split_whitespace [] false (trim value))).
  { intros name Hlen ->. by destruct Hlen. }
  destruct (bool_decide (0x40%N ∈ value)); [by apply Hother|].
  destruct (digits_pattern 10 (digits_of value)); [by apply Hother|].
  destruct (pan_pattern (toUpperCase decryptedValue)); [by apply Hother|].
  destruct (passport_pattern (toUpperCase decryptedValue));
    [by apply Hother|].
  destruct (card_pattern value); [by apply Hother|].
  destruct (digits_pattern 9 (digits_of value)); [by apply Hother|].
  assert (Hshort : bool_decide (0x20%N ∈ value) && (10 <? length value)
                   = false ->
                   0x20%N ∈ value -> length value <= 10).
  { intros Hb Hsp. rewrite bool_decide_eq_true_2 in Hb by done.
    cbn [andb] in Hb. apply Nat.ltb_ge in Hb. lia. }
  destruct (bool_decide (0x20%N ∈ value) && (10 <? length value));
    [by apply Hother|].
  specialize (Hshort eq_refl).
  destruct (name_pattern decryptedValue); cbn [andb]; [|by apply Hother].
  destruct (length value <? 50); [|by apply Hother].
  destruct (Nat.eqb_spec (length (split_whitespace [] false (trim value))) 1)
    as [Hone|Hone]; [by apply Hother|].
  destruct (Nat.eqb_spec (length (split_whitespace [] false (trim value))) 2)
    as [Htwo|Htwo]; [intros _; split; [done|]; split; [done|lia]|].
  destruct (Nat.leb_spec 3 (length (split_whitespace [] false (trim value))))
    as [Hthree|Hthree]; [intros _; split; [done|]; split; [done|lia]|].
  by apply Hother.
Qed.

End Detection.

(** ** Records on the relational indexer *)

Section DbRecord.

Context {R : Runtime}.

Variable hmacSecret : jsstring.

Variable decryptPIIData : jsstring -> js_result jsstring.

(** The field name [determineFieldName] gives is within the limit of its
    column. *)
Lemma determineFieldName_fits (decryptedValue : jsstring)
    (token : option jsstring) :
  length (spread (DbRecords.determineFieldName decryptedValue token)) <= 50.
Proof.
  unfold DbRecords.determineFieldName.
  destruct (DbRecords.fieldTypeOfToken token) as [fieldType|] eqn:Htoken.
  - unfold DbRecords.fieldTypeOfToken in Htoken.
    destruct token as [[|c token]|]; [done| |done]. cbn zeta in Htoken.
    destruct (3 <=? _); [|done].
    case_bool_decide as Hvalid; [|done]. injection Htoken as <-.
    revert Hvalid. generalize (join (js "_") (drop 2 (split 95 (c :: token)))).
    intros fieldType Hvalid. unfold DbRecords.validFieldTypes in Hvalid.
    repeat (apply elem_of_cons in Hvalid as [->|Hvalid];
            [vm_compute; lia|]).
    by apply elem_of_nil in Hvalid.
  - cbn zeta.
    repeat match goal with
           | |- context [if ?b then _ else _] => destruct b
           end;
      vm_compute; lia.
Qed.

Lemma db_indexRecord_cases (row : DbRecords.token_row * Z) (t : Pg.table) :
  let outcome :=
    DbRecords.indexRecord hmacSecret decryptPIIData (DbRecords.row_id row.1)
      (DbRecords.pii_data_point row.1) (DbRecords.row_token row.1) None
      row.2 t in
  match outcome.1 with
  | Returned _ => DbRecords.indexes hmacSecret decryptPIIData row = true
  | Thrown _ => DbRecords.indexes hmacSecret decryptPIIData row = false
  end
  /\ (DbRecords.writes hmacSecret decryptPIIData row = false ->
      outcome.2 = t).
Proof.
  cbn zeta. unfold DbRecords.indexes, DbRecords.writes, DbRecords.decrypts,
    DbRecords.has_text, DbRecords.keys_accepted, DbRecords.indexRecord.
  destruct (decryptPIIData _) as [v|e]; [|done].
  destruct (bool_decide (DbIndexer.normalize v = [])); [done|].
  cbn zeta. cbn [negb andb orb]. unfold DbIndexer.indexFieldValue. cbn zeta.
  set (fieldName := DbRecords.determineFieldName v
                      (Some (DbRecords.row_token row.1))).
  set (keys := DbIndexer.generateAllIndexKeys hmacSecret
                 (DbIndexer.getFieldAlias fieldName)
                 (DbIndexer.normalize v) 3).
  destruct (mapM (Pg.varchar 255) keys) as [keys'|] eqn:Hkeys.
  - rewrite (addTokens_accepted keys keys' fieldName fieldName);
      [done|done|].
    apply varchar_within, determineFieldName_fits.
  - destruct (addTokens_refused keys fieldName) as [e He];
      [apply generateAllIndexKeys_nonempty|by left|].
    by rewrite He.
Qed.

(** The loop of [buildIndexFromDatabase] from any intermediate state. *)
Lemma build_loop_from (rows : list (DbRecords.token_row * Z))
    (indexed failed : nat) (t : Pg.table) :
  foldl
    (fun acc row =>
       let '(indexed, failed, t0) := acc in
       match DbRecords.indexRecord hmacSecret decryptPIIData
               (DbRecords.row_id row.1) (DbRecords.pii_data_point row.1)
               (DbRecords.row_token row.1) None row.2 t0 with
       | (Returned _, t1) => (indexed + 1, failed, t1)
       | (Thrown _, t1) => (indexed, failed + 1, t1)
       end)
    (indexed, failed, t) rows
  = (indexed
     + length (List.filter (DbRecords.indexes hmacSecret decryptPIIData)
                 rows),
     failed
     + length (List.filter
                 (fun row =>
                    negb (DbRecords.indexes hmacSecret decryptPIIData row))
                 rows),
     foldl
       (fun t0 row =>
          (DbRecords.indexRecord hmacSecret decryptPIIData
             (DbRecords.row_id row.1) (DbRecords.pii_data_point row.1)
             (DbRecords.row_token row.1) None row.2 t0).2)
       t (List.filter (DbRecords.writes hmacSecret decryptPIIData) rows)).
Proof.
  revert indexed failed t.
  induction rows as [|row rows IH]; intros indexed failed t;
    cbn [foldl List.filter].
  - by rewrite !Nat.add_0_r.
  - destruct (db_indexRecord_cases row t) as [Hres Htable].
    destruct (DbRecords.indexRecord hmacSecret decryptPIIData
                (DbRecords.row_id row.1) (DbRecords.pii_data_point row.1)
                (DbRecords.row_token row.1) None row.2 t)
      as [[o|e] t1] eqn:Hrec; cbn [fst snd] in Hres, Htable;
      rewrite IH, Hres; cbn [negb length];
      (destruct (DbRecords.writes hmacSecret decryptPIIData row);
       [cbn [foldl]; rewrite Hrec; cbn [snd]
       |rewrite Htable by done]);
      repeat (apply (f_equal2 pair)); first [lia|done].
Qed.

Lemma filter_agree {A : Type} (f g : A -> bool) (l : list A) :
  Forall (fun x => f x = g x) l -> List.filter f l = List.filter g l.
Proof.
  induction 1 as [|x l Hx _ IH]; [done|].
  cbn [List.filter]. by rewrite Hx, IH.
Qed.

(** X25. [buildIndexFromDatabase] counts a record as failed exactly when
    [indexRecord] throws for it, and as indexed otherwise; the two counts
    add up to the total.  [indexRecord] throws when the decryption throws,
    or when the record has text and the key column refuses one of its
    index keys, the call being then rolled back; the field name it detects
    is never refused.  A blank record (one whose normalized text is empty,
    for which [indexRecord] returns null) counts as indexed.  The index is
    left as by the records that write to it alone.  Where no key of any
    record is refused, the failed records are exactly those whose
    decryption throws, and the index is left as by the records that
    decrypt to some text alone. *)
Theorem buildIndexFromDatabase_counts (rows : list (DbRecords.token_row * Z))
    (t : Pg.table) :
  let result :=
    DbRecords.buildIndexFromDatabase hmacSecret decryptPIIData rows t in
  DbRecords.build_total result.1 = length rows
  /\ DbRecords.build_indexed result.1 + DbRecords.build_failed result.1
     = DbRecords.build_total result.1
  /\ DbRecords.build_failed result.1
     = length (List.filter
                 (fun row =>
                    negb (DbRecords.indexes hmacSecret decryptPIIData row))
                 rows)
  /\ DbRecords.build_indexed result.1
     = length (List.filter (DbRecords.indexes hmacSecret decryptPIIData)
                 rows)
  /\ result.2
     = (DbRecords.buildIndexFromDatabase hmacSecret decryptPIIData
          (List.filter (DbRecords.writes hmacSecret decryptPIIData) rows)
          t).2
  /\ (Forall (fun row =>
                DbRecords.keys_accepted hmacSecret decryptPIIData row = true)
             rows ->
      DbRecords.build_failed result.1
      = length (List.filter
                  (fun row => negb (DbRecords.decrypts decryptPIIData row))
                  rows)
      /\ DbRecords.build_indexed result.1
         = length (List.filter (DbRecords.decrypts decryptPIIData) rows)
      /\ result.2
         = (DbRecords.buildIndexFromDatabase hmacSecret decryptPIIData
              (List.filter (DbRecords.has_text decryptPIIData) rows) t).2).
Proof.
  cbn zeta.
  assert (Hwrites : forall l,
             (DbRecords.buildIndexFromDatabase hmacSecret decryptPIIData l
                t).2
             = (DbRecords.buildIndexFromDatabase hmacSecret decryptPIIData
                  (List.filter (DbRecords.writes hmacSecret decryptPIIData)
                     l) t).2).
  { intros l. unfold DbRecords.buildIndexFromDatabase.
    rewrite !build_loop_from. cbn [snd]. f_equal. clear.
    induction l as [|row l IH]; [done|]. cbn [List.filter].
    destruct (DbRecords.writes hmacSecret decryptPIIData row) eqn:Hrow;
      [|done].
    cbn [List.filter]. by rewrite Hrow, <- IH. }
  assert (Hcounts :
            DbRecords.build_failed
              (DbRecords.buildIndexFromDatabase hmacSecret decryptPIIData
                 rows t).1
            = length (List.filter
                        (fun row =>
                           negb (DbRecords.indexes hmacSecret decryptPIIData
                                   row)) rows)
            /\ DbRecords.build_indexed
                 (DbRecords.buildIndexFromDatabase hmacSecret decryptPIIData
                    rows t).1
               = length (List.filter
                           (DbRecords.indexes hmacSecret decryptPIIData)
                           rows)).
  { unfold DbRecords.buildIndexFromDatabase. rewrite build_loop_from.
    by cbn [fst DbRecords.build_failed DbRecords.build_indexed]. }
  destruct Hcounts as [Hfailed Hindexed].
  split; [|split; [|split; [|split; [|split]]]].
  - unfold DbRecords.buildIndexFromDatabase. by rewrite build_loop_from.
  - rewrite Hfailed, Hindexed.
    unfold DbRecords.buildIndexFromDatabase. rewrite build_loop_from.
    cbn [fst DbRecords.build_total]. clear.
    induction rows as [|row rows IH]; [done|]. cbn [List.filter].
    destruct (DbRecords.indexes hmacSecret decryptPIIData row);
      cbn [negb length]; lia.
  - exact Hfailed.
  - exact Hindexed.
  - apply Hwrites.
  - intros Haccepted. rewrite Hfailed, Hindexed, Hwrites.
    assert (Hsame : Forall (fun row =>
                              DbRecords.indexes hmacSecret decryptPIIData row
                              = DbRecords.decrypts decryptPIIData row) rows).
    { eapply Forall_impl; [exact Haccepted|]. intros row Hrow.
      unfold DbRecords.indexes. cbn beta. rewrite Hrow.
      by rewrite orb_true_r, andb_true_r. }
    assert (Hsame' : Forall (fun row =>
                               DbRecords.writes hmacSecret decryptPIIData row
                               = DbRecords.has_text decryptPIIData row)
                            rows).
    { eapply Forall_impl; [exact Haccepted|]. intros row Hrow.
      unfold DbRecords.writes. cbn beta. by rewrite Hrow, andb_true_r. }
    rewrite (filter_agree _ _ rows Hsame), (filter_agree _ _ rows Hsame').
    split; [|done]. f_equal. apply filter_agree.
    eapply Forall_impl; [exact Hsame|]. intros row Hrow. cbn beta.
    by rewrite Hrow.
Qed.

Context {F : AsciiFaithful R}.

(** X26. [indexRecord] normalizes the decrypted value before handing it to
    [indexFieldValue], which normalizes again.  On an ASCII value the
    second pass changes nothing: the record is indexed under the keys of
    the raw value, the index is as after [indexFieldValue] on the raw
    value, and where that call returns the result reports the normalized
    text and the field name given; where that call is refused (a field
    name or a key beyond the limit of its column) and rolled back,
    [indexRecord] throws its error. *)
Theorem db_indexRecord_ascii (recordId : Z)
    (encrypted token fieldName value : jsstring) (now : Z) (t : Pg.table) :
  decryptPIIData encrypted = Returned value ->
  is_ascii value ->
  DbIndexer.normalize value <> [] ->
  fieldName <> [] ->
  let direct :=
    DbIndexer.indexFieldValue hmacSecret fieldName value token now t in
  DbRecords.indexRecord hmacSecret decryptPIIData recordId encrypted token
    (Some fieldName) now t
  = (match direct.1 with
     | Returned summary =>
         Returned
           (Some {| DbRecords.recordId := recordId;
                    DbRecords.opaqueToken := token;
                    DbRecords.fieldName := fieldName;
                    DbRecords.fieldAlias := DbIndexer.getFieldAlias fieldName;
                    DbRecords.keyCount := DbIndexer.indexed summary;
                    DbRecords.normalizedValue := DbIndexer.normalize value |})
     | Thrown e => Thrown e
     end,
     direct.2).
Proof.
  intros Hdecrypt Hascii Htext Hname. cbn zeta.
  unfold DbRecords.indexRecord. rewrite Hdecrypt.
  rewrite bool_decide_eq_false_2 by done.
  destruct fieldName as [|c f]; [done|]. cbn zeta.
  unfold DbIndexer.indexFieldValue. cbn zeta.
  assert (Hkeys : DbIndexer.generateAllIndexKeys hmacSecret
                    (DbIndexer.getFieldAlias (c :: f))
                    (DbIndexer.normalize value) 3
                  = DbIndexer.generateAllIndexKeys hmacSecret
                      (DbIndexer.getFieldAlias (c :: f)) value 3).
  { unfold DbIndexer.generateAllIndexKeys.
    change (DbIndexer.normalize ?s) with (Redis.normalize s).
    by rewrite normalize_ascii_idempotent. }
  rewrite Hkeys.
  by destruct (DbIndexer.addTokens _ _ _ _ _).
Qed.

End DbRecord.

Section DetectionExamples.

#[local] Existing Instance fragment_runtime.

Lemma determineFieldName_of_generated_token_example :
  Forall (fun c => Generator.is_upper_alphanumeric c = true)
    (js "A1B2C3D4E5F6")
  /\ js "LAST_NAME" ∈ Generator.field_types
  /\ Generator.fieldToken (Generator.generateToken (js "A1B2C3D4E5F6"))
       (js "LAST_NAME") = js "TKN_A1B2C3D4E5F6_LAST_NAME"
  /\ DbRecords.determineFieldName (js "9876543210")
       (Some (Generator.fieldToken
                (Generator.generateToken (js "A1B2C3D4E5F6"))
                (js "LAST_NAME")))
     = js "LAST_NAME".
Proof.
  assert (Hrandom : Forall (fun c => Generator.is_upper_alphanumeric c = true)
                      (js "A1B2C3D4E5F6"))
    by (apply (bool_decide_unpack _); by vm_compute).
  assert (Hft : js "LAST_NAME" ∈ Generator.field_types)
    by (apply (bool_decide_unpack _); by vm_compute).
  split; [exact Hrandom|]. split; [exact Hft|]. split; [by vm_compute|].
  exact (determineFieldName_of_generated_token (js "9876543210") _ _
           Hrandom Hft).
Defined.

Lemma determineFieldName_fallback_range_example :
  DbRecords.fieldTypeOfToken (Some (js "TKN_A1B2C3D4E5F6")) = None
  /\ DbRecords.determineFieldName (js "Kumar") (Some (js "TKN_A1B2C3D4E5F6"))
     = js "FIRST_NAME"
  /\ DbRecords.determineFieldName (js "Kumar") (Some (js "TKN_A1B2C3D4E5F6"))
       ∈ [ js "EMAIL"; js "MOBILE_NUMBER"; js "PAN_CARD";
           js "PASSPORT_NUMBER"; js "CREDIT_CARD"; js "SSN"; js "ADDRESS";
           js "FIRST_NAME"; js "FULL_NAME" ].
Proof.
  assert (Htoken : DbRecords.fieldTypeOfToken (Some (js "TKN_A1B2C3D4E5F6"))
                   = None) by by vm_compute.
  split; [exact Htoken|]. split; [by vm_compute|].
  exact (determineFieldName_fallback_range (js "Kumar") _ Htoken).
Defined.

Lemma determineFieldId_consistent_example :
  DbRecords.fieldTypeOfToken None = None
  /\ DbRecords.determineFieldName (js "Arjun Roy") None = js "FULL_NAME"
  /\ (field_id FIELD_IDS (DbRecords.determineFieldName (js "Arjun Roy") None)
      = Some (DbRecords.determineFieldId (js "Arjun Roy"))
      \/ (DbRecords.determineFieldName (js "Arjun Roy") None
          = js "FULL_NAME"
          /\ field_id FIELD_IDS (js "FULL_NAME") = None
          /\ DbRecords.determineFieldId (js "Arjun Roy") = 3%Z)).
Proof.
  assert (Htoken : DbRecords.fieldTypeOfToken None = None) by done.
  split; [exact Htoken|]. split; [by vm_compute|].
  exact (determineFieldId_consistent (js "Arjun Roy") None Htoken).
Defined.

Lemma full_name_only_when_short_example :
  DbRecords.fieldTypeOfToken None = None
  /\ DbRecords.determineFieldName (js "Arjun Roy") None = js "FULL_NAME"
  /\ DbRecords.determineFieldName (js "Arjun Kumar") None = js "ADDRESS"
  /\ (0x20%N ∈ toLowerCase (js "Arjun Roy") ->
      length (toLowerCase (js "Arjun Roy")) <= 10).
Proof.
  assert (Htoken : DbRecords.fieldTypeOfToken None = None) by done.
  assert (Hname : DbRecords.determineFieldName (js "Arjun Roy") None
                  = js "FULL_NAME") by by vm_compute.
  split; [exact Htoken|]. split; [exact Hname|]. split; [by vm_compute|].
  exact (proj1 (full_name_only_when_short (js "Arjun Roy") None Htoken Hname)).
Defined.

Lemma db_indexRecord_ascii_example :
  (fun _ : jsstring => Returned (js " Arjun ")) (js "vault:v1:c2VjcmV0")
  = Returned (js " Arjun ")
  /\ is_ascii (js " Arjun ")
  /\ DbIndexer.normalize (js " Arjun ") <> []
  /\ js "FIRST_NAME" <> []
  /\ (DbIndexer.indexFieldValue example_secret (js "FIRST_NAME")
        (js " Arjun ") (js "T2") 0 ∅).1
     = Returned {| DbIndexer.indexed := 14;
                   DbIndexer.summary_field := js "FIRST_NAME";
                   DbIndexer.summary_alias := js "fn" |}
  /\ (let direct :=
        DbIndexer.indexFieldValue example_secret (js "FIRST_NAME")
          (js " Arjun ") (js "T2") 0 ∅ in
      DbRecords.indexRecord example_secret
        (fun _ : jsstring => Returned (js " Arjun ")) 7
        (js "vault:v1:c2VjcmV0") (js "T2") (Some (js "FIRST_NAME")) 0 ∅
      = (match direct.1 with
         | Returned summary =>
             Returned
               (Some {| DbRecords.recordId := 7;
                        DbRecords.opaqueToken := js "T2";
                        DbRecords.fieldName := js "FIRST_NAME";
                        DbRecords.fieldAlias :=
                          DbIndexer.getFieldAlias (js "FIRST_NAME");
                        DbRecords.keyCount := DbIndexer.indexed summary;
                        DbRecords.normalizedValue :=
                          DbIndexer.normalize (js " Arjun ") |})
         | Thrown e => Thrown e
         end,
         direct.2)).
Proof.
  assert (Hascii : is_ascii (js " Arjun "))
    by (apply (bool_decide_unpack _); by vm_compute).
  assert (Htext : DbIndexer.normalize (js " Arjun ") <> []) by by vm_compute.
  assert (Hname : js "FIRST_NAME" <> []) by done.
  split; [reflexivity|]. split; [exact Hascii|]. split; [exact Htext|].
  split; [exact Hname|]. split; [by vm_compute|].
  exact (db_indexRecord_ascii (F := fragment_ascii_faithful)
           example_secret (fun _ => Returned (js " Arjun ")) 7
           (js "vault:v1:c2VjcmV0") (js "T2") (js "FIRST_NAME")
           (js " Arjun ") 0 ∅ eq_refl Hascii Htext Hname).
Defined.

(** A field name of 51 characters is refused by its column: the relational
    [indexFieldValue] throws and leaves the table as it was, and so does
    [indexRecord], while the in-memory indexer stores the keys. *)
Lemma long_field_name_refused :
  let fieldName := repeat 0x41%N 51 in
  DbIndexer.indexFieldValue example_secret fieldName (js "Bob") (js "T1") 0 ∅
  = (Thrown (Pg.value_too_long 50), ∅)
  /\ DbRecords.indexRecord example_secret
       (fun _ : jsstring => Returned (js "Bob")) 7 (js "vault:v1:c2VjcmV0")
       (js "T1") (Some fieldName) 0 ∅
     = (Thrown (Pg.value_too_long 50), ∅)
  /\ Redis.search example_secret fieldName (js "eq") (js "Bob") 3
       (Redis.indexFieldValue example_secret fieldName (js "Bob") (js "T1")
          3 ∅).2
     = Returned {[js "T1"]}
  /\ DbSearch.search example_secret fieldName (js "eq") (js "Bob") 3 1
       (DbIndexer.indexFieldValue example_secret fieldName (js "Bob")
          (js "T1") 0 ∅).2
     = Returned ∅.
Proof. by vm_compute. Qed.

(** A build over three records: one whose decryption throws, a blank one
    and one with text.  No key is refused; one record is counted as
    failed, two as indexed, and the index is the one the record with text
    gives. *)
Lemma buildIndexFromDatabase_counts_example :
  Forall (fun row =>
            DbRecords.keys_accepted example_secret example_decrypt row = true)
         example_rows
  /\ (DbRecords.buildIndexFromDatabase example_secret example_decrypt
        example_rows ∅).1
     = {| DbRecords.build_indexed := 2; DbRecords.build_failed := 1;
          DbRecords.build_total := 3 |}
  /\ (DbRecords.buildIndexFromDatabase example_secret example_decrypt
        example_rows ∅).2
     = (DbIndexer.indexFieldValue example_secret (js "FIRST_NAME") (js "Bob")
          (js "T3") 3 ∅).2
  /\ DbRecords.build_failed
       (DbRecords.buildIndexFromDatabase example_secret example_decrypt
          example_rows ∅).1
     = length (List.filter
                 (fun row => negb (DbRecords.decrypts example_decrypt row))
                 example_rows).
Proof.
  assert (Haccepted :
            Forall (fun row =>
                      DbRecords.keys_accepted example_secret example_decrypt
                        row = true) example_rows)
    by (apply (bool_decide_unpack _); by vm_compute).
  split; [exact Haccepted|]. split; [by vm_compute|]. split; [by vm_compute|].
  exact (proj1
           (proj2 (proj2 (proj2 (proj2 (proj2
              (buildIndexFromDatabase_counts example_secret example_decrypt
                 example_rows ∅))))) Haccepted)).
Defined.

End DetectionExamples.

(** ** The grams of the trigram index *)

Lemma elem_of_unique (seen grams : list jsstring) (g : jsstring) :
  g ∈ Trigram.unique seen grams <-> g ∈ grams /\ g ∉ seen.
Proof.
  revert seen. induction grams as [|x grams IH]; intros seen;
    cbn [Trigram.unique].
  - split; [by intros ?%elem_of_nil|]. by intros [?%elem_of_nil _].
  - case_decide as Hx.
    + rewrite IH, elem_of_cons. split; [tauto|].
      intros [[->|Hg] Hs]; [done|tauto].
    + rewrite !elem_of_cons, IH, elem_of_cons. split.
      * intros [->|[Hg Hs]]; [tauto|]. split; [tauto|]. tauto.
      * intros [[->|Hg] Hs]; [by left|].
        destruct (decide (g = x)) as [->|Hne]; [by left|]. right.
        split; [done|]. tauto.
Qed.

Lemma elem_of_windows (bounded g : jsstring) (n : nat) :
  g ∈ Trigram.windows bounded n
  <-> n <= length bounded /\ length g = n /\ substring_of g bounded.
Proof.
  unfold Trigram.windows, Trigram.substr. rewrite list_elem_of_In.
  destruct (le_lt_dec n (length bounded)) as [Hle|Hlt].
  - replace (length bounded + 1 - n) with (length bounded - n + 1) by lia.
    rewrite In_windows by done. tauto.
  - replace (length bounded + 1 - n) with 0 by lia. cbn [seq map].
    split; [done|]. lia.
Qed.

Lemma substring_of_length (q v : jsstring) :
  substring_of q v -> length q <= length v.
Proof. intros (a & b & ->). rewrite !length_app. lia. Qed.

(** The bounded query is a piece of the bounded value. *)
Lemma bounded_query_in_value (queryType q v : jsstring) :
  Trigram.asks queryType q v ->
  substring_of
    (if decide (queryType = Trigram.EXACT)
     then Trigram.BOUNDARY_START ++ q ++ Trigram.BOUNDARY_END
     else if decide (queryType = Trigram.STARTS_WITH)
     then Trigram.BOUNDARY_START ++ q
     else if decide (queryType = Trigram.ENDS_WITH)
     then q ++ Trigram.BOUNDARY_END
     else q)
    (Trigram.BOUNDARY_START ++ v ++ Trigram.BOUNDARY_END).
Proof.
  unfold Trigram.asks. repeat case_decide.
  - intros ->. exists [], []. by rewrite app_nil_r.
  - intros [rest ->]. exists [], (rest ++ Trigram.BOUNDARY_END).
    cbn [app]. by rewrite <- !(assoc_L (++)).
  - intros [front ->]. exists (Trigram.BOUNDARY_START ++ front), [].
    by rewrite app_nil_r, <- !(assoc_L (++)).
  - intros (a & b & ->). exists (Trigram.BOUNDARY_START ++ a),
      (b ++ Trigram.BOUNDARY_END). by rewrite <- !(assoc_L (++)).
Qed.

(** X28. On the trigram index a query of more than three code units is
    covered: when the normalized value is what the query type asks for
    (equal to the query, starting with it, ending with it, containing it),
    every gram [generateQueryTrigrams] produces for the query is among the
    grams [generateTrigrams] produces for the value. *)
Theorem long_query_grams_covered (queryType q v g : jsstring) :
  3 < length q ->
  Trigram.asks queryType q v ->
  g ∈ Trigram.generateQueryTrigrams q queryType ->
  g ∈ Trigram.generateTrigrams v.
Proof.
  intros Hlong Hasks. pose proof (bounded_query_in_value _ _ _ Hasks) as Hsub.
  assert (Hv : length q <= length v).
  { unfold Trigram.asks in Hasks. repeat case_decide.
    - by subst.
    - destruct Hasks as [rest ->]. rewrite length_app. lia.
    - destruct Hasks as [front ->]. rewrite length_app. lia.
    - by apply substring_of_length. }
  unfold Trigram.generateQueryTrigrams, Trigram.generateTrigrams.
  destruct (Nat.ltb_spec (length q) 1) as [?|_]; [lia|].
  destruct (Nat.ltb_spec (length v) 1) as [?|_]; [lia|].
  destruct (Nat.leb_spec (length q) 3) as [?|_]; [lia|].
  cbn zeta. rewrite !elem_of_unique, app_nil_r, !elem_of_app.
  intros [(Hn & Hlen & Hg)%elem_of_windows _]. split; [|apply not_elem_of_nil].
  left. apply elem_of_windows. split; [|split; [done|]].
  - rewrite !length_app. cbn [length Trigram.BOUNDARY_START
                               Trigram.BOUNDARY_END]. lia.
  - by apply (substring_of_trans _ _ _ Hg).
Qed.

(** X29. A query of one to three code units finds no value of more than
    three: the query then has a gram of two code units (for a contains
    query, if it has two code units at least), while every gram of such a
    value has three, so some key the search intersects was never written
    for the value. *)
Theorem short_query_gram_missed (queryType q v : jsstring) :
  1 <= length q <= 3 ->
  3 < length v ->
  2 <= length q
  \/ queryType ∈ [Trigram.EXACT; Trigram.STARTS_WITH; Trigram.ENDS_WITH] ->
  exists g,
    g ∈ Trigram.generateQueryTrigrams q queryType
    /\ (g ∉ Trigram.generateTrigrams v).
Proof.
  intros [Hq1 Hq3] Hv Hbound.
  unfold Trigram.generateQueryTrigrams, Trigram.generateTrigrams.
  destruct (Nat.ltb_spec (length q) 1) as [?|_]; [lia|].
  destruct (Nat.ltb_spec (length v) 1) as [?|_]; [lia|].
  destruct (Nat.leb_spec (length q) 3) as [_|?]; [|lia].
  destruct (Nat.leb_spec (length v) 3) as [?|_]; [lia|].
  cbn zeta.
  set (bounded := if decide (queryType = Trigram.EXACT) then _ else _).
  assert (Hb : 2 <= length bounded).
  { unfold bounded. repeat case_decide; rewrite ?length_app;
      cbn [length Trigram.BOUNDARY_START Trigram.BOUNDARY_END]; try lia.
    destruct Hbound as [?|Hin]; [lia|].
    repeat (apply elem_of_cons in Hin as [?|Hin]; [done|]).
    by apply elem_of_nil in Hin. }
  exists (take 2 bounded). split.
  - apply elem_of_unique. split; [|apply not_elem_of_nil].
    apply elem_of_app. right. apply elem_of_windows.
    split; [done|]. split; [rewrite length_take; lia|].
    exists [], (drop 2 bounded). cbn [app]. by rewrite take_drop.
  - rewrite elem_of_unique, app_nil_r.
    intros [(_ & Hlen & _)%elem_of_windows _].
    rewrite length_take in Hlen. lia.
Qed.

Section GramExamples.

Lemma long_query_grams_covered_example :
  3 < length (js "arju")
  /\ Trigram.asks Trigram.STARTS_WITH (js "arju") (js "arjun")
  /\ [0x01%N] ++ js "ar" ∈ Trigram.generateQueryTrigrams (js "arju")
                            Trigram.STARTS_WITH
  /\ [0x01%N] ++ js "ar" ∈ Trigram.generateTrigrams (js "arjun").
Proof.
  assert (Hlong : 3 < length (js "arju")) by (vm_compute; lia).
  assert (Hasks : Trigram.asks Trigram.STARTS_WITH (js "arju") (js "arjun")).
  { unfold Trigram.asks. rewrite decide_False by by vm_compute.
    rewrite decide_True by done. by exists (js "n"). }
  assert (Hg : [0x01%N] ++ js "ar"
               ∈ Trigram.generateQueryTrigrams (js "arju") Trigram.STARTS_WITH)
    by (apply (bool_decide_unpack _); by vm_compute).
  split; [exact Hlong|]. split; [exact Hasks|]. split; [exact Hg|].
  exact (long_query_grams_covered _ _ _ _ Hlong Hasks Hg).
Defined.

Lemma short_query_gram_missed_example :
  1 <= length (js "ar") <= 3
  /\ 3 < length (js "arjun")
  /\ (2 <= length (js "ar")
      \/ Trigram.STARTS_WITH
         ∈ [Trigram.EXACT; Trigram.STARTS_WITH; Trigram.ENDS_WITH])
  /\ Trigram.asks Trigram.STARTS_WITH (js "ar") (js "arjun")
  /\ exists g,
       g ∈ Trigram.generateQueryTrigrams (js "ar") Trigram.STARTS_WITH
       /\ (g ∉ Trigram.generateTrigrams (js "arjun")).
Proof.
  assert (Hq : 1 <= length (js "ar") <= 3) by (vm_compute; lia).
  assert (Hv : 3 < length (js "arjun")) by (vm_compute; lia).
  assert (Hb : 2 <= length (js "ar")
               \/ Trigram.STARTS_WITH
                  ∈ [Trigram.EXACT; Trigram.STARTS_WITH; Trigram.ENDS_WITH])
    by (left; vm_compute; lia).
  split; [exact Hq|]. split; [exact Hv|]. split; [exact Hb|]. split.
  { unfold Trigram.asks. rewrite decide_False by by vm_compute.
    rewrite decide_True by done. by exists (js "jun"). }
  exact (short_query_gram_missed Trigram.STARTS_WITH _ _ Hq Hv Hb).
Defined.

End GramExamples.

(** ** Batches of searches *)

Section Batch.

Context {R : Runtime}.

Variable hmacSecret : jsstring.

Variable config : DbSearch.search_config.


End Batch.
